(** * zylisp/lang: the evaluator and its lexical environments

    A shallow embedding of the packages [sexpr] (types.go) and
    [interpreter] (env.go, eval.go, primitives.go).

    Go values of interface type [sexpr.SExpr] become an inductive type with
    one constructor per implementing struct.  An [*Env] is a pointer to a
    mutable record that several closures and child scopes may share, so the
    environments live in an explicit store and every operation that mutates
    one passes the store along.  [Eval] is not total (a program may recurse
    for ever), so it is given fuel: [None] means that the Go call does not
    return. *)

From stdpp Require Import base option list strings gmap.
From Stdlib Require Import ZArith Lia.

#[local] Set Warnings "-register-all".
Local Open Scope string_scope.
Local Open Scope list_scope.
Local Open Scope stdpp_scope.

(** ** Package sexpr (types.go) *)

(** Address of an [Env] record in the store; a Go [*Env] that is not nil. *)
Abbreviation loc := nat.

(** The Go functions of primitives.go that [makePrimitive] wraps into the
    [Fn] field of a [sexpr.Primitive]; they are the only values of that
    function type the repository builds. *)
Inductive PrimFn : Type :=
  | primAdd | primSub | primMul | primDiv
  | primEq | primLt | primGt | primLte | primGte
  | primList | primCar | primCdr | primCons
  | primIsNumber | primIsSymbol | primIsList | primIsNull.

Module sexpr.

(** The structs implementing the interface [SExpr].  [Number] holds an
    int64, kept as a [Z]; the arithmetic primitives reduce their results
    with [wrap64] below.  [Func.Params] is a [[]Symbol] and a [Symbol] is a
    struct with the single field [Name], so the slice is kept as the list of
    the names.  [Func.Env] is the pointer to the environment. *)
Inductive SExpr : Type :=
  | Number (Value : Z)
  | Symbol (Name : string)
  | String (Value : string)
  | Bool (Value : bool)
  | Nil
  | List (Elements : list SExpr)
  | Func (Params : list string) (Body : SExpr) (Env : loc)
  | Primitive (Name : string) (Fn : PrimFn).

End sexpr.

Abbreviation SExpr := sexpr.SExpr.

(** ** Errors

    Every error of the interpreter is built by [fmt.Errorf]; one
    constructor per format string, carrying the values the format prints. *)
Inductive Error : Type :=
  | UndefinedVariable (name : string)
      (* "undefined variable: %s" *)
  | CannotEvaluate (expr : SExpr)
      (* "cannot evaluate: %v" *)
  | FormArity (form : string) (expected got : nat)
      (* "define requires 2 arguments, got %d", and the same for lambda,
         if (3 arguments) and quote (1 argument) *)
  | DefineNotSymbol
      (* "define: first argument must be a symbol" *)
  | LambdaParamsNotList
      (* "lambda: parameters must be a list" *)
  | LambdaParamNotSymbol (p : SExpr)
      (* "lambda: parameter must be a symbol, got %v" *)
  | NotCallable (fn : SExpr)
      (* "not a function: %v" *)
  | FuncArity (expected got : nat)
      (* "function expects %d arguments, got %d" *)
  | PrimNoArgument (op : string)
      (* "-: requires at least 1 argument", and the same for / *)
  | PrimArity (op : string) (expected got : nat)
      (* "=: requires 2 arguments, got %d", "car: requires 1 argument, got %d", ... *)
  | ExpectedNumber (op : string) (arg : SExpr)
      (* "+: expected number, got %v", ... *)
  | ExpectedNumbers (op : string)
      (* "=: expected numbers", ... *)
  | ExpectedList (op : string) (arg : SExpr)
      (* "car: expected list, got %v", "cons: second argument must be a list, got %v" *)
  | EmptyList (op : string)
      (* "car: cannot take car of empty list", ... *)
  | DivisionByZero.
      (* "/: division by zero" *)

(** The error taxonomy the messages fall into: wrong argument counts are
    arity errors, wrong operand shapes of a special form are malformed
    forms.  The message of the default case of [Eval] is a kind of its
    own. *)
Inductive ErrorKind : Type :=
  | KUndefinedVariable | KMalformedForm | KArityError | KTypeError
  | KDivisionByZero | KEmptyListError | KNotCallable | KCannotEvaluate.

Definition error_kind (e : Error) : ErrorKind :=
  match e with
  | UndefinedVariable _ => KUndefinedVariable
  | CannotEvaluate _ => KCannotEvaluate
  | FormArity _ _ _ => KArityError
  | DefineNotSymbol | LambdaParamsNotList | LambdaParamNotSymbol _ => KMalformedForm
  | NotCallable _ => KNotCallable
  | FuncArity _ _ | PrimNoArgument _ | PrimArity _ _ _ => KArityError
  | ExpectedNumber _ _ | ExpectedNumbers _ | ExpectedList _ _ => KTypeError
  | EmptyList _ => KEmptyListError
  | DivisionByZero => KDivisionByZero
  end.

(** A Go result pair [(value, error)]. *)
Inductive Res (A : Type) : Type :=
  | Ok (a : A)
  | Err (e : Error).
Arguments Ok {A} a.
Arguments Err {A} e.

(** ** Package interpreter: env.go *)

(** [type Env struct { bindings map[string]sexpr.SExpr; parent *Env }];
    a nil parent is [None]. *)
Record Env : Type := mkEnv {
  bindings : gmap string SExpr;
  parent : option loc
}.

(** The store: the [Env] records allocated so far, by address.  [NewEnv]
    allocates at the end, so an address is never reused. *)
Abbreviation Store := (list Env).

(** [NewEnv(parent)]: a fresh record with an empty map. *)
Definition NewEnv (parent : option loc) (h : Store) : loc * Store :=
  (length h, h ++ [mkEnv ∅ parent]).

(** [e.Extend()] is [NewEnv(e)]. *)
Definition Extend (e : loc) (h : Store) : loc * Store := NewEnv (Some e) h.

(** [e.Define(name, value)]: [e.bindings[name] = value].  Pointers come
    from [NewEnv] and records are never freed, so [e] is in the store. *)
Definition Define (e : loc) (name : string) (value : SExpr) (h : Store) : Store :=
  match h !! e with
  | Some env => <[e := mkEnv (<[name := value]> (bindings env)) (parent env)]> h
  | None => h
  end.

(** [e.Lookup(name)].  The recursion follows the parent pointers; [fuel]
    bounds the number of scopes visited.  [None]: the pointer is not in the
    store, or the chain is longer than the fuel. *)
Fixpoint Lookup_at (fuel : nat) (h : Store) (e : loc) (name : string)
  : option (Res SExpr) :=
  match fuel with
  | O => None
  | S fuel' =>
      env ← h !! e;
      match bindings env !! name with
      | Some value => Some (Ok value)
      | None =>
          match parent env with
          | Some p => Lookup_at fuel' h p name
          | None => Some (Err (UndefinedVariable name))
          end
      end
  end.

(** [e.Set(name, value)], with the store it leaves. *)
Fixpoint Set_at (fuel : nat) (h : Store) (e : loc) (name : string) (value : SExpr)
  : option (Res unit * Store) :=
  match fuel with
  | O => None
  | S fuel' =>
      env ← h !! e;
      match bindings env !! name with
      | Some _ =>
          Some (Ok tt, <[e := mkEnv (<[name := value]> (bindings env)) (parent env)]> h)
      | None =>
          match parent env with
          | Some p => Set_at fuel' h p name value
          | None => Some (Err (UndefinedVariable name), h)
          end
      end
  end.

(** [e.Lookup(name)] and [e.Set(name, value)] ([Set] is a reserved word
    here) on a store.
    A chain without a cycle visits every record at most once, so the number
    of records is fuel enough; on a chain with a cycle, which the Go code
    would follow for ever, the result is [None]. *)
Definition Lookup (h : Store) (e : loc) (name : string) : option (Res SExpr) :=
  Lookup_at (length h) h e name.

Definition Set_ (h : Store) (e : loc) (name : string) (value : SExpr)
  : option (Res unit * Store) :=
  Set_at (length h) h e name value.

(** ** Package interpreter: primitives.go *)

(** int64 arithmetic: the result of an operation on mathematical integers,
    reduced to the two's-complement range. *)
Definition wrap64 (z : Z) : Z := ((z + 2 ^ 63) mod 2 ^ 64 - 2 ^ 63)%Z.

Definition int64 (z : Z) : Prop := (- 2 ^ 63 <= z < 2 ^ 63)%Z.

Module prim.
Import sexpr.

(** The loop of [primAdd]: [sum += num.Value] over the arguments. *)
Fixpoint add_loop (sum : Z) (args : list SExpr) : Res SExpr :=
  match args with
  | [] => Ok (Number sum)
  | Number v :: rest => add_loop (wrap64 (sum + v)) rest
  | arg :: _ => Err (ExpectedNumber "+" arg)
  end.

Definition Add (args : list SExpr) (env : loc) : Res SExpr :=
  match args with
  | [] => Ok (Number 0)
  | _ => add_loop 0 args
  end.

(** The loop of [primSub] over [args[1:]]. *)
Fixpoint sub_loop (result : Z) (args : list SExpr) : Res SExpr :=
  match args with
  | [] => Ok (Number result)
  | Number v :: rest => sub_loop (wrap64 (result - v)) rest
  | arg :: _ => Err (ExpectedNumber "-" arg)
  end.

Definition Sub (args : list SExpr) (env : loc) : Res SExpr :=
  match args with
  | [] => Err (PrimNoArgument "-")
  | Number first :: rest =>
      match rest with
      | [] => Ok (Number (wrap64 (- first)))
      | _ => sub_loop first rest
      end
  | arg0 :: _ => Err (ExpectedNumber "-" arg0)
  end.

Fixpoint mul_loop (product : Z) (args : list SExpr) : Res SExpr :=
  match args with
  | [] => Ok (Number product)
  | Number v :: rest => mul_loop (wrap64 (product * v)) rest
  | arg :: _ => Err (ExpectedNumber "*" arg)
  end.

Definition Mul (args : list SExpr) (env : loc) : Res SExpr :=
  match args with
  | [] => Ok (Number 1)
  | _ => mul_loop 1 args
  end.

(** The loop of [primDiv] over [args[1:]]: each argument is checked to be
    a number, then to be nonzero, then [result /= num.Value].  Go's [/] on
    integers truncates toward zero. *)
Fixpoint div_loop (result : Z) (args : list SExpr) : Res SExpr :=
  match args with
  | [] => Ok (Number result)
  | Number v :: rest =>
      if (v =? 0)%Z then Err DivisionByZero
      else div_loop (wrap64 (Z.quot result v)) rest
  | arg :: _ => Err (ExpectedNumber "/" arg)
  end.

Definition Div (args : list SExpr) (env : loc) : Res SExpr :=
  match args with
  | [] => Err (PrimNoArgument "/")
  | Number first :: rest =>
      match rest with
      | [] =>
          if (first =? 0)%Z then Err DivisionByZero
          else Ok (Number (wrap64 (Z.quot 1 first)))
      | _ => div_loop first rest
      end
  | arg0 :: _ => Err (ExpectedNumber "/" arg0)
  end.

(** [primEq], [primLt], [primGt], [primLte], [primGte] differ in the
    operator only. *)
Definition compare (op : string) (test : Z -> Z -> bool)
    (args : list SExpr) (env : loc) : Res SExpr :=
  match args with
  | [a; b] =>
      match a, b with
      | Number x, Number y => Ok (Bool (test x y))
      | _, _ => Err (ExpectedNumbers op)
      end
  | _ => Err (PrimArity op 2 (length args))
  end.

Definition MkList (args : list SExpr) (env : loc) : Res SExpr :=
  Ok (List args).

Definition Car (args : list SExpr) (env : loc) : Res SExpr :=
  match args with
  | [a] =>
      match a with
      | List [] => Err (EmptyList "car")
      | List (x :: _) => Ok x
      | _ => Err (ExpectedList "car" a)
      end
  | _ => Err (PrimArity "car" 1 (length args))
  end.

Definition Cdr (args : list SExpr) (env : loc) : Res SExpr :=
  match args with
  | [a] =>
      match a with
      | List [] => Err (EmptyList "cdr")
      | List (_ :: tl) => Ok (List tl)
      | _ => Err (ExpectedList "cdr" a)
      end
  | _ => Err (PrimArity "cdr" 1 (length args))
  end.

Definition Cons (args : list SExpr) (env : loc) : Res SExpr :=
  match args with
  | [a; b] =>
      match b with
      | List elements => Ok (List (a :: elements))
      | _ => Err (ExpectedList "cons" b)
      end
  | _ => Err (PrimArity "cons" 2 (length args))
  end.

(** [primIsNumber], [primIsSymbol], [primIsList], [primIsNull]. *)
Definition predicate (op : string) (test : SExpr -> bool)
    (args : list SExpr) (env : loc) : Res SExpr :=
  match args with
  | [a] => Ok (Bool (test a))
  | _ => Err (PrimArity op 1 (length args))
  end.

Definition is_number (a : SExpr) : bool :=
  match a with Number _ => true | _ => false end.
Definition is_symbol (a : SExpr) : bool :=
  match a with Symbol _ => true | _ => false end.
Definition is_list (a : SExpr) : bool :=
  match a with List _ => true | _ => false end.
Definition is_null (a : SExpr) : bool :=
  match a with List [] => true | _ => false end.

End prim.

(** Calling the function stored in a [Primitive]: [f.Fn(args, env)].  No
    primitive reads or writes an environment. *)
Definition call (fn : PrimFn) (args : list SExpr) (env : loc) : Res SExpr :=
  match fn with
  | primAdd => prim.Add args env
  | primSub => prim.Sub args env
  | primMul => prim.Mul args env
  | primDiv => prim.Div args env
  | primEq => prim.compare "=" Z.eqb args env
  | primLt => prim.compare "<" Z.ltb args env
  | primGt => prim.compare ">" Z.gtb args env
  | primLte => prim.compare "<=" Z.leb args env
  | primGte => prim.compare ">=" Z.geb args env
  | primList => prim.MkList args env
  | primCar => prim.Car args env
  | primCdr => prim.Cdr args env
  | primCons => prim.Cons args env
  | primIsNumber => prim.predicate "number?" prim.is_number args env
  | primIsSymbol => prim.predicate "symbol?" prim.is_symbol args env
  | primIsList => prim.predicate "list?" prim.is_list args env
  | primIsNull => prim.predicate "null?" prim.is_null args env
  end.

Definition makePrimitive (name : string) (fn : PrimFn) : SExpr :=
  sexpr.Primitive name fn.

(** [LoadPrimitives(env)]: seventeen calls of [env.Define]. *)
Definition LoadPrimitives (env : loc) (h : Store) : Store :=
  foldl (fun h '(name, fn) => Define env name (makePrimitive name fn) h) h
    [("+", primAdd); ("-", primSub); ("*", primMul); ("/", primDiv);
     ("=", primEq); ("<", primLt); (">", primGt); ("<=", primLte); (">=", primGte);
     ("list", primList); ("car", primCar); ("cdr", primCdr); ("cons", primCons);
     ("number?", primIsNumber); ("symbol?", primIsSymbol);
     ("list?", primIsList); ("null?", primIsNull)].

(** ** Package interpreter: eval.go *)

(** What a call of the evaluator leaves: its result pair and the store,
    or [None] when the call does not return. *)
Abbreviation Outcome A := (option (Res A * Store)).

(** [isTruthy(value)]. *)
Definition isTruthy (value : SExpr) : bool :=
  match value with
  | sexpr.Bool v => v
  | sexpr.Nil => false
  | _ => true
  end.

(** The loop of [evalLambda] over [paramsList.Elements]. *)
Fixpoint lambda_params (elements : list SExpr) : Res (list string) :=
  match elements with
  | [] => Ok []
  | sexpr.Symbol name :: rest =>
      match lambda_params rest with
      | Ok params => Ok (name :: params)
      | Err e => Err e
      end
  | p :: _ => Err (LambdaParamNotSymbol p)
  end.

(** The loop of [applyFunc]: [funcEnv.Define(param.Name, args[i])]. *)
Fixpoint bind_params (funcEnv : loc) (params : list string) (args : list SExpr)
    (h : Store) : Store :=
  match params, args with
  | param :: params', arg :: args' =>
      bind_params funcEnv params' args' (Define funcEnv param arg h)
  | _, _ => h
  end.

Section Evaluator.

(** The recursive calls of [Eval] made by the functions below. *)
Variable Eval : SExpr -> loc -> Store -> Outcome SExpr.

(** [evalDefine(list, env)]; [list] is [list.Elements]. *)
Definition evalDefine (list : list SExpr) (env : loc) (h : Store) : Outcome SExpr :=
  match list with
  | [_; target; expr] =>
      match target with
      | sexpr.Symbol name =>
          match Eval expr env h with
          | Some (Ok value, h1) => Some (Ok value, Define env name value h1)
          | Some (Err err, h1) => Some (Err err, h1)
          | None => None
          end
      | _ => Some (Err DefineNotSymbol, h)
      end
  | _ => Some (Err (FormArity "define" 2 (length list - 1)), h)
  end.

(** [evalLambda(list, env)]. *)
Definition evalLambda (list : list SExpr) (env : loc) (h : Store) : Outcome SExpr :=
  match list with
  | [_; paramsList; body] =>
      match paramsList with
      | sexpr.List elements =>
          match lambda_params elements with
          | Ok params => Some (Ok (sexpr.Func params body env), h)
          | Err err => Some (Err err, h)
          end
      | _ => Some (Err LambdaParamsNotList, h)
      end
  | _ => Some (Err (FormArity "lambda" 2 (length list - 1)), h)
  end.

(** [evalIf(list, env)]. *)
Definition evalIf (list : list SExpr) (env : loc) (h : Store) : Outcome SExpr :=
  match list with
  | [_; test; thenE; elseE] =>
      match Eval test env h with
      | Some (Ok value, h1) =>
          if isTruthy value then Eval thenE env h1 else Eval elseE env h1
      | Some (Err err, h1) => Some (Err err, h1)
      | None => None
      end
  | _ => Some (Err (FormArity "if" 3 (length list - 1)), h)
  end.

(** [evalQuote(list, env)]. *)
Definition evalQuote (list : list SExpr) (env : loc) (h : Store) : Outcome SExpr :=
  match list with
  | [_; expr] => Some (Ok expr, h)
  | _ => Some (Err (FormArity "quote" 1 (length list - 1)), h)
  end.

(** The argument loop of [evalApply] over [list.Elements[1:]]. *)
Fixpoint evalArgs (elements : list SExpr) (env : loc) (h : Store)
  : Outcome (list SExpr) :=
  match elements with
  | [] => Some (Ok [], h)
  | arg :: rest =>
      match Eval arg env h with
      | Some (Ok value, h1) =>
          match evalArgs rest env h1 with
          | Some (Ok args, h2) => Some (Ok (value :: args), h2)
          | other => other
          end
      | Some (Err err, h1) => Some (Err err, h1)
      | None => None
      end
  end.

(** [applyFunc(fn, args)], [fn] given by its three fields. *)
Definition applyFunc (params : list string) (body : SExpr) (fnEnv : loc)
    (args : list SExpr) (h : Store) : Outcome SExpr :=
  if negb (length args =? length params)%nat then
    Some (Err (FuncArity (length params) (length args)), h)
  else
    let '(funcEnv, h1) := Extend fnEnv h in
    Eval body funcEnv (bind_params funcEnv params args h1).

(** [evalApply(list, env)].  [list.Elements[0]] of an empty list would
    be a run-time panic; [evalList] never passes one. *)
Definition evalApply (list : list SExpr) (env : loc) (h : Store) : Outcome SExpr :=
  match list with
  | [] => None
  | head :: rest =>
      match Eval head env h with
      | Some (Ok fn, h1) =>
          match evalArgs rest env h1 with
          | Some (Ok args, h2) =>
              match fn with
              | sexpr.Primitive _ f => Some (call f args env, h2)
              | sexpr.Func params body fnEnv => applyFunc params body fnEnv args h2
              | _ => Some (Err (NotCallable fn), h2)
              end
          | Some (Err err, h2) => Some (Err err, h2)
          | None => None
          end
      | Some (Err err, h1) => Some (Err err, h1)
      | None => None
      end
  end.

(** [evalList(list, env)]. *)
Definition evalList (list : list SExpr) (env : loc) (h : Store) : Outcome SExpr :=
  match list with
  | [] => Some (Ok sexpr.Nil, h)
  | first :: _ =>
      match first with
      | sexpr.Symbol name =>
          if decide (name = "define") then evalDefine list env h
          else if decide (name = "lambda") then evalLambda list env h
          else if decide (name = "if") then evalIf list env h
          else if decide (name = "quote") then evalQuote list env h
          else evalApply list env h
      | _ => evalApply list env h
      end
  end.

End Evaluator.

(** [Eval(expr, env)].  One unit of fuel per nested call of [Eval]. *)
Fixpoint Eval (fuel : nat) (expr : SExpr) (env : loc) (h : Store) : Outcome SExpr :=
  match fuel with
  | O => None
  | S fuel' =>
      match expr with
      | sexpr.Number _ | sexpr.String _ | sexpr.Bool _ | sexpr.Nil => Some (Ok expr, h)
      | sexpr.Symbol name =>
          match Lookup h env name with
          | Some r => Some (r, h)
          | None => None
          end
      | sexpr.List elements => evalList (Eval fuel') elements env h
      | _ => Some (Err (CannotEvaluate expr), h)
      end
  end.

(** The names handled by [evalList] itself. *)
Definition special_form (first : SExpr) : bool :=
  match first with
  | sexpr.Symbol name =>
      bool_decide (name = "define") || bool_decide (name = "lambda")
      || bool_decide (name = "if") || bool_decide (name = "quote")
  | _ => false
  end.

(** ** Notions used to state the properties *)

(** The number of operands each special form takes. *)
Definition form_operands (form : string) : option nat :=
  if decide (form = "define") then Some 2%nat
  else if decide (form = "lambda") then Some 2%nat
  else if decide (form = "if") then Some 3%nat
  else if decide (form = "quote") then Some 1%nat
  else None.

(** The operand is the number zero. *)
Definition is_zero (a : SExpr) : bool :=
  match a with
  | sexpr.Number 0%Z => true
  | _ => false
  end.

(** Some divisor operand is zero: the only argument when there is one,
    an argument after the first when there are several. *)
Definition zero_divisor (args : list SExpr) : bool :=
  match args with
  | [] => false
  | [a] => is_zero a
  | _ :: rest => existsb is_zero rest
  end.

(** The value the scope at [l] itself binds to [name], if any. *)
Definition binding (h : Store) (l : loc) (name : string) : option SExpr :=
  env ← h !! l; bindings env !! name.

(** The scopes reached from [e] by following the parent pointers, [e]
    first and the root last. *)
Fixpoint scope_chain (fuel : nat) (h : Store) (e : loc) : option (list loc) :=
  match fuel with
  | O => None
  | S fuel' =>
      env ← h !! e;
      match parent env with
      | Some p => cons e <$> scope_chain fuel' h p
      | None => Some [e]
      end
  end.

(** The first scope of a chain that binds [name]. *)
Fixpoint first_binding (h : Store) (name : string) (chain : list loc) : option loc :=
  match chain with
  | [] => None
  | l :: chain' =>
      match binding h l name with
      | Some _ => Some l
      | None => first_binding h name chain'
      end
  end.

(** Every parent pointer points to a record allocated earlier. *)
Definition store_ok (h : Store) : Prop :=
  forall l env p, h !! l = Some env -> parent env = Some p -> (p < l)%nat.

(** Every environment pointer inside the value is below [n]. *)
Fixpoint closed_value (n : nat) (v : SExpr) : Prop :=
  match v with
  | sexpr.List elements =>
      fold_right (fun x acc => closed_value n x /\ acc) True elements
  | sexpr.Func _ body env => (env < n)%nat /\ closed_value n body
  | _ => True
  end.

(** The stores the evaluator works on: parent pointers point to older
    records, and the pointers inside the bound values are allocated. *)
Definition store_closed (h : Store) : Prop :=
  store_ok h
  /\ forall l env name v,
       h !! l = Some env -> bindings env !! name = Some v ->
       closed_value (length h) v.

(** An evaluation function keeps the stores closed: from a closed store, a
    closed expression and an allocated environment, what it leaves is a
    closed store that still has every record, and a closed value. *)
Definition keeps_closed (ev : SExpr -> loc -> Store -> option (Res SExpr * Store))
  : Prop :=
  forall expr env h r h',
    store_closed h ->
    closed_value (length h) expr ->
    (env < length h)%nat ->
    ev expr env h = Some (r, h') ->
    store_closed h'
    /\ (length h <= length h')%nat
    /\ forall v, r = Ok v -> closed_value (length h') v.

(** The result of a lookup along a chain: the nearest binding. *)
Fixpoint chain_lookup (h : Store) (name : string) (chain : list loc) : Res SExpr :=
  match chain with
  | [] => Err (UndefinedVariable name)
  | l :: chain' =>
      match binding h l name with
      | Some v => Ok v
      | None => chain_lookup h name chain'
      end
  end.

(** The elements are evaluated one after the other, from the left, each in
    the store the one before it left, and all of them give a value. *)
Inductive args_evaluated (ev : SExpr -> loc -> Store -> Outcome SExpr) (env : loc)
  : Store -> list SExpr -> list SExpr -> Store -> Prop :=
  | args_evaluated_nil (h : Store) :
      args_evaluated ev env h [] [] h
  | args_evaluated_cons (h h1 h2 : Store) (arg value : SExpr)
      (rest values : list SExpr) :
      ev arg env h = Some (Ok value, h1) ->
      args_evaluated ev env h1 rest values h2 ->
      args_evaluated ev env h (arg :: rest) (value :: values) h2.

(** The values [evalApply] can apply. *)
Definition callable (fn : SExpr) : bool :=
  match fn with
  | sexpr.Primitive _ _ | sexpr.Func _ _ _ => true
  | _ => false
  end.

(** ** Programs used as examples *)

Module Examples.
Import sexpr.

(** [NewEnv(nil)] followed by [LoadPrimitives]. *)
Definition base : loc * Store :=
  let '(env, h) := NewEnv None [] in (env, LoadPrimitives env h).

(** Evaluate the forms one after the other in the same environment, and
    give the result of the last. *)
Fixpoint run (fuel : nat) (forms : list SExpr) (env : loc) (h : Store)
  : Outcome SExpr :=
  match forms with
  | [] => Some (Ok Nil, h)
  | [form] => Eval fuel form env h
  | form :: rest =>
      match Eval fuel form env h with
      | Some (_, h1) => run fuel rest env h1
      | None => None
      end
  end.

Definition result {A} (o : Outcome A) : option (Res A) := fst <$> o.

(** [(define square (lambda (x) (star x x)))], with [*] for star. *)
Definition define_square : SExpr :=
  List [Symbol "define"; Symbol "square";
        List [Symbol "lambda"; List [Symbol "x"];
              List [Symbol "*"; Symbol "x"; Symbol "x"]]].

(** [(if (define x 1) zzz 2)]: binds [x], then fails on the unbound [zzz]. *)
Definition define_then_fail : SExpr :=
  List [Symbol "if"; List [Symbol "define"; Symbol "x"; Number 1];
        Symbol "zzz"; Number 2].

(** [NewEnv(nil)] alone, and the same scope once [x] is defined as 1. *)
Definition empty_root : Store := [mkEnv ∅ None].
Definition x_is_1 : Store := [mkEnv {["x" := Number 1]} None].

(** A root scope with [x = 42] and an empty child of it. *)
Definition two_scopes : Store :=
  [mkEnv {["x" := Number 42]} None; mkEnv ∅ (Some 0%nat)].

End Examples.

(** ** Further notions *)

(** The names and functions [LoadPrimitives] registers, in its order. *)
Definition primitive_table : list (string * PrimFn) :=
  [("+", primAdd); ("-", primSub); ("*", primMul); ("/", primDiv);
   ("=", primEq); ("<", primLt); (">", primGt); ("<=", primLte); (">=", primGte);
   ("list", primList); ("car", primCar); ("cdr", primCdr); ("cons", primCons);
   ("number?", primIsNumber); ("symbol?", primIsSymbol);
   ("list?", primIsList); ("null?", primIsNull)].

(** [h'] keeps every record of [h], with the same parent and with every
    name the record binds still bound. *)
Definition store_grows (h h' : Store) : Prop :=
  forall l env,
    h !! l = Some env ->
    exists env',
      h' !! l = Some env'
      /\ parent env' = parent env
      /\ forall name, is_Some (bindings env !! name) -> is_Some (bindings env' !! name).

(** An evaluation function only lets the store grow. *)
Definition keeps_records (ev : SExpr -> loc -> Store -> option (Res SExpr * Store))
  : Prop :=
  forall expr env h r h', ev expr env h = Some (r, h') -> store_grows h h'.

(** Arithmetic on numerals, as a program would nest it. *)
Inductive aexp : Type :=
  | ANum (n : Z)
  | AAdd (a b : aexp)
  | ASub (a b : aexp)
  | AMul (a b : aexp)
  | ANeg (a : aexp).

(** The form the reader gives for it. *)
Fixpoint aexp_form (t : aexp) : SExpr :=
  match t with
  | ANum n => sexpr.Number n
  | AAdd a b => sexpr.List [sexpr.Symbol "+"; aexp_form a; aexp_form b]
  | ASub a b => sexpr.List [sexpr.Symbol "-"; aexp_form a; aexp_form b]
  | AMul a b => sexpr.List [sexpr.Symbol "*"; aexp_form a; aexp_form b]
  | ANeg a => sexpr.List [sexpr.Symbol "-"; aexp_form a]
  end.

(** Its value in int64 arithmetic. *)
Fixpoint aexp_value (t : aexp) : Z :=
  match t with
  | ANum n => n
  | AAdd a b => wrap64 (aexp_value a + aexp_value b)
  | ASub a b => wrap64 (aexp_value a - aexp_value b)
  | AMul a b => wrap64 (aexp_value a * aexp_value b)
  | ANeg a => wrap64 (- aexp_value a)
  end.

Fixpoint aexp_height (t : aexp) : nat :=
  match t with
  | ANum _ => 0
  | AAdd a b | ASub a b | AMul a b => S (Nat.max (aexp_height a) (aexp_height b))
  | ANeg a => S (aexp_height a)
  end.

(** ** Package parser: reader.go *)

Module parser.

(** [type TokenType int], with its eight constants. *)
Inductive TokenType : Type :=
  | LPAREN | RPAREN | NUMBER | SYMBOL | STRING | BOOL | EOF | ILLEGAL.

#[global] Instance TokenType_eq_dec : EqDecision TokenType.
Proof. solve_decision. Defined.

(** [type Token struct { Type TokenType; Value string; Line int; Col int }];
    the field [Type] is [Typ] here. *)
Record Token : Type := mkToken {
  Typ : TokenType;
  Value : string;
  Line : nat;
  Col : nat
}.

(** The two errors of [strconv.ParseInt]. *)
Inductive NumError : Type := ErrSyntax | ErrRange.

(** The errors of the package, one constructor per format string, with the
    values the format prints. *)
Inductive ParseError : Type :=
  | IllegalToken (line col : nat) (value : string)
      (* "illegal token at line %d, col %d: %q" *)
  | UnexpectedEndOfInput
      (* "unexpected end of input" *)
  | UnexpectedClosingParen (line col : nat)
      (* "unexpected closing paren at line %d, col %d" *)
  | UnexpectedEndOfFile
      (* "unexpected end of file" *)
  | UnexpectedToken (typ : TokenType) (line col : nat)
      (* "unexpected token %v at line %d, col %d" *)
  | UnclosedList
      (* "unclosed list" *)
  | InvalidNumber (value : string) (line col : nat) (err : NumError)
      (* "invalid number %q at line %d, col %d: %v" *)
  | TrailingToken (line col : nat) (typ : TokenType).
      (* "unexpected token after expression at line %d, col %d: %v" *)

Inductive PRes (A : Type) : Type :=
  | POk (a : A)
  | PErr (e : ParseError).
Arguments POk {A} a.
Arguments PErr {A} e.

(** [Token{Type: EOF}]: the other fields have their zero values. *)
Definition eof_token : Token := mkToken EOF EmptyString 0 0.

Section Reader.

(** [strconv.ParseInt(s, 10, 64)], a function of the Go library. *)
Variable ParseInt : string -> NumError + Z.

(** The reader is the slice of tokens, which it never changes, and the
    position [r.pos]. *)

(** [r.isAtEnd()]. *)
Definition isAtEnd (tokens : list Token) (pos : nat) : bool :=
  match tokens !! pos with
  | None => true
  | Some tok => bool_decide (Typ tok = EOF)
  end.

(** [r.peek()]. *)
Definition peek (tokens : list Token) (pos : nat) : Token :=
  if isAtEnd tokens pos then eof_token
  else default eof_token (tokens !! pos).

(** [r.advance()]: the token and the new position. *)
Definition advance (tokens : list Token) (pos : nat) : Token * nat :=
  if isAtEnd tokens pos then (eof_token, pos)
  else (default eof_token (tokens !! pos), S pos).

(** [r.readNumber()]. *)
Definition readNumber (tokens : list Token) (pos : nat) : PRes (SExpr * nat) :=
  let '(tok, pos') := advance tokens pos in
  match ParseInt (Value tok) with
  | inr value => POk (sexpr.Number value, pos')
  | inl err => PErr (InvalidNumber (Value tok) (Line tok) (Col tok) err)
  end.

(** [r.readSymbol()]. *)
Definition readSymbol (tokens : list Token) (pos : nat) : PRes (SExpr * nat) :=
  let '(tok, pos') := advance tokens pos in
  POk (sexpr.Symbol (Value tok), pos').

(** [r.readString()]. *)
Definition readString (tokens : list Token) (pos : nat) : PRes (SExpr * nat) :=
  let '(tok, pos') := advance tokens pos in
  POk (sexpr.String (Value tok), pos').

(** [r.readBool()]. *)
Definition readBool (tokens : list Token) (pos : nat) : PRes (SExpr * nat) :=
  let '(tok, pos') := advance tokens pos in
  POk (sexpr.Bool (bool_decide (Value tok = "true")), pos').

(** The loop of [readList], with the calls of [readExpr] it makes; one
    unit of fuel per iteration. *)
Fixpoint readList_loop (readExpr : nat -> option (PRes (SExpr * nat)))
    (fuel : nat) (tokens : list Token) (pos : nat) (elements : list SExpr)
  : option (PRes (SExpr * nat)) :=
  match fuel with
  | O => None
  | S fuel' =>
      if negb (isAtEnd tokens pos)
         && negb (bool_decide (Typ (peek tokens pos) = RPAREN))
      then
        match readExpr pos with
        | Some (POk (expr, pos')) =>
            readList_loop readExpr fuel' tokens pos' (elements ++ [expr])
        | Some (PErr err) => Some (PErr err)
        | None => None
        end
      else if isAtEnd tokens pos then Some (PErr UnclosedList)
      else Some (POk (sexpr.List elements, (advance tokens pos).2))
  end.

(** [r.readList()]. *)
Definition readList (readExpr : nat -> option (PRes (SExpr * nat)))
    (fuel : nat) (tokens : list Token) (pos : nat)
  : option (PRes (SExpr * nat)) :=
  readList_loop readExpr fuel tokens (advance tokens pos).2 [].

(** [r.readExpr()]; one unit of fuel per nested call. *)
Fixpoint readExpr (fuel : nat) (tokens : list Token) (pos : nat)
  : option (PRes (SExpr * nat)) :=
  match fuel with
  | O => None
  | S fuel' =>
      if isAtEnd tokens pos then Some (PErr UnexpectedEndOfInput)
      else
        let tok := peek tokens pos in
        match Typ tok with
        | LPAREN => readList (readExpr fuel' tokens) fuel' tokens pos
        | NUMBER => Some (readNumber tokens pos)
        | SYMBOL => Some (readSymbol tokens pos)
        | STRING => Some (readString tokens pos)
        | BOOL => Some (readBool tokens pos)
        | RPAREN => Some (PErr (UnexpectedClosingParen (Line tok) (Col tok)))
        | EOF => Some (PErr UnexpectedEndOfFile)
        | ILLEGAL => Some (PErr (UnexpectedToken (Typ tok) (Line tok) (Col tok)))
        end
  end.

(** [Read(tokens)].  Every call of [readExpr] that returns an expression
    has consumed a token, so one unit of fuel per token, and one more, is
    enough. *)
Definition Read (tokens : list Token) : option (PRes SExpr) :=
  match readExpr (S (length tokens)) tokens 0 with
  | Some (POk (expr, pos)) =>
      if negb (isAtEnd tokens pos) && negb (bool_decide (Typ (peek tokens pos) = EOF))
      then
        let tok := peek tokens pos in
        Some (PErr (TrailingToken (Line tok) (Col tok) (Typ tok)))
      else Some (POk expr)
  | Some (PErr err) => Some (PErr err)
  | None => None
  end.

(** The grammar: the tokens that spell an expression.  A number is spelt
    by a NUMBER token whose text the library parses to it, a symbol or a
    string by a token with its text, a boolean by a BOOL token ([true]
    for the text "true", [false] for any other), a list by the spellings of
    its elements between a LPAREN and a RPAREN. *)
Inductive spells : list Token -> SExpr -> Prop :=
  | spells_Number (tok : Token) (n : Z) :
      Typ tok = NUMBER -> ParseInt (Value tok) = inr n ->
      spells [tok] (sexpr.Number n)
  | spells_Symbol (tok : Token) :
      Typ tok = SYMBOL -> spells [tok] (sexpr.Symbol (Value tok))
  | spells_String (tok : Token) :
      Typ tok = STRING -> spells [tok] (sexpr.String (Value tok))
  | spells_Bool (tok : Token) :
      Typ tok = BOOL ->
      spells [tok] (sexpr.Bool (bool_decide (Value tok = "true")))
  | spells_List (lp rp : Token) (toks : list Token) (elements : list SExpr) :
      Typ lp = LPAREN -> Typ rp = RPAREN ->
      spells_all toks elements ->
      spells (lp :: toks ++ [rp]) (sexpr.List elements)
with spells_all : list Token -> list SExpr -> Prop :=
  | spells_all_nil : spells_all [] []
  | spells_all_snoc (toks toks' : list Token) (elements : list SExpr)
      (expr : SExpr) :
      spells_all toks elements -> spells toks' expr ->
      spells_all (toks ++ toks') (elements ++ [expr]).

Scheme spells_mut := Minimality for spells Sort Prop
  with spells_all_mut := Minimality for spells_all Sort Prop.
Combined Scheme spells_mutind from spells_mut, spells_all_mut.

End Reader.

End parser.

(** The values the reader can return: no [Nil], no closure, no primitive. *)
Fixpoint readable (v : SExpr) : Prop :=
  match v with
  | sexpr.List elements => fold_right (fun x acc => readable x /\ acc) True elements
  | sexpr.Number _ | sexpr.Symbol _ | sexpr.String _ | sexpr.Bool _ => True
  | _ => False
  end.

(** ** Package parser: lexer.go *)

Module lexer.
Import parser.

(** A byte of the input. *)
Abbreviation byte := Ascii.ascii.

(** The number of a byte, to compare it with a character constant. *)
Definition code (ch : byte) : nat := Ascii.nat_of_ascii ch.

(** [isWhitespace(ch)]: space, tab, line feed, carriage return. *)
Definition isWhitespace (ch : byte) : bool :=
  (code ch =? 32)%nat || (code ch =? 9)%nat
  || (code ch =? 10)%nat || (code ch =? 13)%nat.

(** [isDigit(ch)]: ['0'] is 48 and ['9'] is 57. *)
Definition isDigit (ch : byte) : bool :=
  (48 <=? code ch)%nat && (code ch <=? 57)%nat.

(** [isSymbolSpecial(ch)]: the fourteen characters of the string are
    ASCII, so a byte is among its runes when it is one of its bytes. *)
Definition isSymbolSpecial (ch : byte) : bool :=
  existsb (fun c => (code c =? code ch)%nat)
    (String.list_ascii_of_string "+-*/<>=!?&|%$_").

(** [string(ch)] for a byte [ch]: the UTF-8 encoding of the code point of
    that number, one byte below 128 and two bytes from 128 on. *)
Definition string_of_byte (ch : byte) : string :=
  if (code ch <? 128)%nat then String.String ch EmptyString
  else String.String (Ascii.ascii_of_nat (192 + code ch / 64))
         (String.String (Ascii.ascii_of_nat (128 + code ch mod 64)) EmptyString).

(** [type Lexer struct { input string; pos, line, col int; tokens []Token }];
    the input is kept as its bytes, and the tokens are passed along by
    [Tokenize]. *)
Record Lexer : Type := mkLexer {
  input : list byte;
  pos : nat;
  line : nat;
  col : nat
}.

(** [NewLexer(input)]. *)
Definition NewLexer (text : string) : Lexer :=
  mkLexer (String.list_ascii_of_string text) 0 1 1.

(** [l.isAtEnd()]. *)
Definition isAtEnd (l : Lexer) : bool := (length (input l) <=? pos l)%nat.

(** [l.peek()]. *)
Definition peek (l : Lexer) : byte :=
  if isAtEnd l then Ascii.zero else default Ascii.zero (input l !! pos l).

(** [l.peekNext()]. *)
Definition peekNext (l : Lexer) : byte :=
  if (length (input l) <=? pos l + 1)%nat then Ascii.zero
  else default Ascii.zero (input l !! (pos l + 1)%nat).

(** [l.advance()]: the byte and the lexer after it. *)
Definition advance (l : Lexer) : byte * Lexer :=
  if isAtEnd l then (Ascii.zero, l)
  else
    let ch := default Ascii.zero (input l !! pos l) in
    (ch,
     if (code ch =? 10)%nat
     then mkLexer (input l) (S (pos l)) (S (line l)) 1
     else mkLexer (input l) (S (pos l)) (line l) (S (col l))).

(** [l.makeToken(typ, value)]. *)
Definition makeToken (l : Lexer) (typ : TokenType) (value : string) : Token :=
  mkToken typ value (line l) (col l).

(** [l.makeSingleCharToken(typ)]. *)
Definition makeSingleCharToken (l : Lexer) (typ : TokenType) : Token * Lexer :=
  let ch := peek l in
  let l' := (advance l).2 in
  (mkToken typ (string_of_byte ch) (line l') (col l' - 1), l').

(** [l.input[start:stop]]. *)
Definition slice (l : Lexer) (start stop : nat) : string :=
  String.string_of_list_ascii (take (stop - start) (drop start (input l))).

(** The bytes left to read; every loop below reads one at each turn, so
    one unit of fuel more than this is enough for it. *)
Definition remaining (l : Lexer) : nat := length (input l) - pos l.

(** The loops [for !l.isAtEnd() && p(l.peek()) { l.advance() }]. *)
Fixpoint advance_while (p : byte -> bool) (fuel : nat) (l : Lexer) : option Lexer :=
  match fuel with
  | O => None
  | S fuel' =>
      if negb (isAtEnd l) && p (peek l) then advance_while p fuel' (advance l).2
      else Some l
  end.

(** [l.skipWhitespaceAndComments()]; [';'] is 59. *)
Fixpoint skipWhitespaceAndComments (fuel : nat) (l : Lexer) : option Lexer :=
  match fuel with
  | O => None
  | S fuel' =>
      if isAtEnd l then Some l
      else
        let ch := peek l in
        if (code ch =? 59)%nat then
          l' ← advance_while (fun c => negb (code c =? 10)%nat) (S (remaining l)) l;
          skipWhitespaceAndComments fuel' l'
        else if isWhitespace ch then skipWhitespaceAndComments fuel' (advance l).2
        else Some l
  end.

(** [l.scanNumber()]; ['-'] is 45. *)
Definition scanNumber (l : Lexer) : option (Token * Lexer) :=
  let start := pos l in
  let startCol := col l in
  let l1 := if (code (peek l) =? 45)%nat then (advance l).2 else l in
  l2 ← advance_while isDigit (S (remaining l1)) l1;
  Some (mkToken NUMBER (slice l2 start (pos l2)) (line l2) startCol, l2).

(** The Go library's [unicode.IsLetter], on the rune of a byte. *)
Section Letters.

Variable IsLetter : byte -> bool.

(** [isSymbolStart(ch)] and [isSymbolChar(ch)]. *)
Definition isSymbolStart (ch : byte) : bool := IsLetter ch || isSymbolSpecial ch.

Definition isSymbolChar (ch : byte) : bool :=
  IsLetter ch || isDigit ch || isSymbolSpecial ch.

(** [l.scanSymbol()]. *)
Definition scanSymbol (l : Lexer) : option (Token * Lexer) :=
  let start := pos l in
  let startCol := col l in
  l2 ← advance_while isSymbolChar (S (remaining l)) l;
  let value := slice l2 start (pos l2) in
  if bool_decide (value = "true") || bool_decide (value = "false")
  then Some (mkToken BOOL value (line l2) startCol, l2)
  else Some (mkToken SYMBOL value (line l2) startCol, l2).

(** The byte an escape sequence stands for: [n] (110), [t] (116), [r]
    (114) give line feed, tab, carriage return; any other byte, the quote
    and the backslash among them, gives itself. *)
Definition unescape (escaped : byte) : byte :=
  if (code escaped =? 110)%nat then Ascii.ascii_of_nat 10
  else if (code escaped =? 116)%nat then Ascii.ascii_of_nat 9
  else if (code escaped =? 114)%nat then Ascii.ascii_of_nat 13
  else escaped.

(** The loop of [scanString]: either the token it returns from inside, or
    the lexer and the bytes written when it ends; the double quote is 34
    and the backslash 92. *)
Fixpoint scanString_loop (fuel : nat) (l : Lexer) (value : list byte)
  : option (Token * Lexer + Lexer * list byte) :=
  match fuel with
  | O => None
  | S fuel' =>
      if negb (isAtEnd l) && negb (code (peek l) =? 34)%nat then
        let ch := peek l in
        if (code ch =? 92)%nat then
          let l1 := (advance l).2 in
          if isAtEnd l1 then
            Some (inl (makeToken l1 ILLEGAL "unterminated string", l1))
          else
            scanString_loop fuel' (advance l1).2 (value ++ [unescape (peek l1)])
        else scanString_loop fuel' (advance l).2 (value ++ [ch])
      else Some (inr (l, value))
  end.

(** [l.scanString()]. *)
Definition scanString (l : Lexer) : option (Token * Lexer) :=
  let startCol := col l in
  let l0 := (advance l).2 in
  r ← scanString_loop (S (remaining l0)) l0 [];
  match r with
  | inl result => Some result
  | inr (l1, value) =>
      if isAtEnd l1 then Some (makeToken l1 ILLEGAL "unterminated string", l1)
      else
        let l2 := (advance l1).2 in
        Some (mkToken STRING (String.string_of_list_ascii value) (line l2) startCol, l2)
  end.

(** [l.nextToken()]; ['('] is 40 and [')'] 41. *)
Definition nextToken (l : Lexer) : option (Token * Lexer) :=
  l1 ← skipWhitespaceAndComments (S (remaining l)) l;
  if isAtEnd l1 then Some (makeToken l1 EOF EmptyString, l1)
  else
    let ch := peek l1 in
    if (code ch =? 40)%nat then Some (makeSingleCharToken l1 LPAREN)
    else if (code ch =? 41)%nat then Some (makeSingleCharToken l1 RPAREN)
    else if (code ch =? 34)%nat then scanString l1
    else if isDigit ch
            || ((code ch =? 45)%nat && negb (code (peekNext l1) =? 0)%nat
                && isDigit (peekNext l1))
    then scanNumber l1
    else if isSymbolStart ch then scanSymbol l1
    else Some (makeToken l1 ILLEGAL (string_of_byte ch), l1).

(** The loop of the method [Tokenize], with the tokens appended so far. *)
Fixpoint Tokenize_loop (fuel : nat) (l : Lexer) (tokens : list Token)
  : option (PRes (list Token)) :=
  match fuel with
  | O => None
  | S fuel' =>
      match nextToken l with
      | None => None
      | Some (tok, l') =>
          let tokens' := tokens ++ [tok] in
          if bool_decide (Typ tok = EOF) then Some (POk tokens')
          else if bool_decide (Typ tok = ILLEGAL)
          then Some (PErr (IllegalToken (Line tok) (Col tok) (Value tok)))
          else Tokenize_loop fuel' l' tokens'
      end
  end.

(** [Tokenize(input)].  Every token but the last takes at least one byte
    of the input. *)
Definition Tokenize (text : string) : option (PRes (list Token)) :=
  Tokenize_loop (S (String.length text)) (NewLexer text) [].

End Letters.

End lexer.

(** The position of a lexer is within its input, and its line and column
    count from one. *)
Definition lexer_ok (l : lexer.Lexer) : Prop :=
  (lexer.pos l <= length (lexer.input l))%nat
  /\ (1 <= lexer.line l)%nat /\ (1 <= lexer.col l)%nat.

(** The text of a number: digits, at least one, after an optional minus
    sign. *)
Definition number_text (s : string) : bool :=
  match String.list_ascii_of_string s with
  | [] => false
  | c :: ds =>
      if (lexer.code c =? 45)%nat
      then negb (bool_decide (ds = [])) && forallb lexer.isDigit ds
      else forallb lexer.isDigit (c :: ds)
  end.

(** The text of a symbol: bytes that may stand in a symbol, the first one
    a letter or a special character, and neither of the two booleans. *)
Definition symbol_text (IsLetter : Ascii.ascii -> bool) (s : string) : bool :=
  match String.list_ascii_of_string s with
  | [] => false
  | c :: cs =>
      lexer.isSymbolStart IsLetter c
      && forallb (lexer.isSymbolChar IsLetter) cs
      && negb (bool_decide (s = "true")) && negb (bool_decide (s = "false"))
  end.

(** The text of a token agrees with its type. *)
Definition token_ok (IsLetter : Ascii.ascii -> bool) (t : parser.Token) : bool :=
  match parser.Typ t with
  | parser.LPAREN => bool_decide (parser.Value t = "(")
  | parser.RPAREN => bool_decide (parser.Value t = ")")
  | parser.NUMBER => number_text (parser.Value t)
  | parser.SYMBOL => symbol_text IsLetter (parser.Value t)
  | parser.BOOL =>
      bool_decide (parser.Value t = "true") || bool_decide (parser.Value t = "false")
  | parser.EOF => bool_decide (parser.Value t = EmptyString)
  | parser.STRING | parser.ILLEGAL => true
  end.

(** The errors of the reader on a well-formed sequence of tokens: the
    input is empty, a parenthesis is not matched, a token follows the
    expression, or the library refuses the text of a number, which is then
    a number's text. *)
Definition syntax_error (e : parser.ParseError) : Prop :=
  match e with
  | parser.UnexpectedEndOfInput | parser.UnexpectedClosingParen _ _
  | parser.UnclosedList | parser.TrailingToken _ _ _ => True
  | parser.InvalidNumber value _ _ _ => number_text value = true
  | parser.IllegalToken _ _ _ | parser.UnexpectedEndOfFile
  | parser.UnexpectedToken _ _ _ => False
  end.

Module ParserExamples.

(** A stand-in for [strconv.ParseInt(s, 10, 64)] in the examples: an
    optional sign, then digits, and the range check of int64. *)
Definition digit (c : Ascii.ascii) : option Z :=
  let n := Z.of_nat (Ascii.nat_of_ascii c) in
  if ((48 <=? n) && (n <=? 57))%Z then Some (n - 48)%Z else None.

Fixpoint parse_digits (acc : Z) (s : string) : option Z :=
  match s with
  | EmptyString => Some acc
  | String.String c s' =>
      match digit c with
      | Some d => parse_digits (acc * 10 + d) s'
      | None => None
      end
  end.

Definition parse_int (s : string) : parser.NumError + Z :=
  let '(neg, digits) :=
    match s with
    | String.String c s' =>
        if (Ascii.nat_of_ascii c =? 45)%nat then (true, s')
        else if (Ascii.nat_of_ascii c =? 43)%nat then (false, s')
        else (false, s)
    | EmptyString => (false, s)
    end in
  match digits with
  | EmptyString => inl parser.ErrSyntax
  | _ =>
      match parse_digits 0 digits with
      | None => inl parser.ErrSyntax
      | Some n =>
          let v := if neg then (- n)%Z else n in
          if ((- 2 ^ 63 <=? v) && (v <? 2 ^ 63))%Z then inr v
          else inl parser.ErrRange
      end
  end.

(** A stand-in for [unicode.IsLetter] in the examples: the ASCII letters. *)
Definition ascii_letter (ch : Ascii.ascii) : bool :=
  let n := Ascii.nat_of_ascii ch in
  ((65 <=? n) && (n <=? 90) || (97 <=? n) && (n <=? 122))%nat.

(** A token of the given type and text, at line 1, column 1. *)
Definition tok (typ : parser.TokenType) (value : string) : parser.Token :=
  parser.mkToken typ value 1 1.

(** The tokens of [(+ 1 (neg x))] and the end marker. *)
Definition plus_tokens : list parser.Token :=
  [tok parser.LPAREN "("; tok parser.SYMBOL "+"; tok parser.NUMBER "1";
   tok parser.LPAREN "("; tok parser.SYMBOL "neg"; tok parser.SYMBOL "x";
   tok parser.RPAREN ")"; tok parser.RPAREN ")"; tok parser.EOF EmptyString].

End ParserExamples.

(** ** The tests of the repository, on the forms the reader gives *)

Section Tests.
Import sexpr Examples.

Example TestPrimAdd :
  result (run 3 [List [Symbol "+"; Number 1; Number 2; Number 3; Number 4]]
            base.1 base.2)
  = Some (Ok (Number 10)).
Proof. reflexivity. Qed.

Example TestPrimSub :
  result (run 3 [List [Symbol "-"; Number 10; Number 3; Number 2]] base.1 base.2)
  = Some (Ok (Number 5))
  /\ result (run 3 [List [Symbol "-"; Number 42]] base.1 base.2)
     = Some (Ok (Number (-42))).
Proof. split; reflexivity. Qed.

Example TestPrimDiv :
  result (run 3 [List [Symbol "/"; Number 24; Number 3; Number 2]] base.1 base.2)
  = Some (Ok (Number 4))
  /\ result (run 3 [List [Symbol "/"; Number 1; Number 0]] base.1 base.2)
     = Some (Err DivisionByZero).
Proof. split; reflexivity. Qed.

Example TestNestedExpressions :
  result (run 4 [List [Symbol "/";
                       List [Symbol "+"; Number 10; Number 6];
                       List [Symbol "-"; Number 6; Number 2]]] base.1 base.2)
  = Some (Ok (Number 4)).
Proof. reflexivity. Qed.

Example TestPrimCarCdr :
  result (run 4 [List [Symbol "car";
                       List [Symbol "list"; Number 1; Number 2; Number 3]]]
            base.1 base.2)
  = Some (Ok (Number 1))
  /\ result (run 4 [List [Symbol "cdr";
                          List [Symbol "list"; Number 1; Number 2; Number 3]]]
               base.1 base.2)
     = Some (Ok (List [Number 2; Number 3])).
Proof. split; reflexivity. Qed.

Example TestUserDefinedFunctions :
  result (run 5 [define_square; List [Symbol "square"; Number 5]] base.1 base.2)
  = Some (Ok (Number 25)).
Proof. reflexivity. Qed.

Example TestEvalIf :
  result (run 3 [List [Symbol "if"; Bool true; Number 1; Number 2]] base.1 base.2)
  = Some (Ok (Number 1))
  /\ result (run 3 [List [Symbol "if"; Bool false; Number 1; Number 2]]
               base.1 base.2)
     = Some (Ok (Number 2)).
Proof. split; reflexivity. Qed.

Example TestEvalQuote :
  result (run 3 [List [Symbol "quote"; List [Symbol "+"; Number 1; Number 2]]]
            base.1 base.2)
  = Some (Ok (List [Symbol "+"; Number 1; Number 2])).
Proof. reflexivity. Qed.

(** [(define x 1) (define f (lambda () x)) (define x 2) (f)]. *)
Example closure_sees_redefinition :
  result (run 4 [List [Symbol "define"; Symbol "x"; Number 1];
                 List [Symbol "define"; Symbol "f";
                       List [Symbol "lambda"; List []; Symbol "x"]];
                 List [Symbol "define"; Symbol "x"; Number 2];
                 List [Symbol "f"]] base.1 base.2)
  = Some (Ok (Number 2)).
Proof. reflexivity. Qed.

(** A closure made inside a call keeps the scope of that call:
    [(define make (lambda (x) (lambda () x)))], [(define x 7)],
    [((make 3))]. *)
Example closure_keeps_defining_scope :
  result (run 6 [List [Symbol "define"; Symbol "make";
                       List [Symbol "lambda"; List [Symbol "x"];
                             List [Symbol "lambda"; List []; Symbol "x"]]];
                 List [Symbol "define"; Symbol "x"; Number 7];
                 List [List [Symbol "make"; Number 3]]] base.1 base.2)
  = Some (Ok (Number 3)).
Proof. reflexivity. Qed.

End Tests.

(** ** int64 *)

Lemma wrap64_range (z : Z) : int64 (wrap64 z).
Proof.
  unfold int64, wrap64.
  pose proof (Z.mod_pos_bound (z + 2 ^ 63) (2 ^ 64) ltac:(lia)). lia.
Qed.

Lemma wrap64_id (z : Z) : int64 z -> wrap64 z = z.
Proof.
  unfold int64, wrap64. intros Hz. rewrite Z.mod_small; lia.
Qed.

(** ** Self-evaluating values and special-form arity *)

Section SelfEvaluation.
Import sexpr.

(** C9: a Number evaluates to itself and leaves the store alone, whatever
    the environment and the store, so two evaluations in two environments
    give the same value; the same holds for String, Bool and Nil. *)
Theorem Eval_self_evaluating :
  forall (fuel : nat) (env1 env2 : loc) (h1 h2 : Store)
         (n : Z) (s : string) (b : bool),
    (Eval (S fuel) (Number n) env1 h1 = Some (Ok (Number n), h1)
     /\ fst <$> Eval (S fuel) (Number n) env1 h1
        = fst <$> Eval (S fuel) (Number n) env2 h2)
    /\ (Eval (S fuel) (String s) env1 h1 = Some (Ok (String s), h1)
        /\ fst <$> Eval (S fuel) (String s) env1 h1
           = fst <$> Eval (S fuel) (String s) env2 h2)
    /\ (Eval (S fuel) (Bool b) env1 h1 = Some (Ok (Bool b), h1)
        /\ fst <$> Eval (S fuel) (Bool b) env1 h1
           = fst <$> Eval (S fuel) (Bool b) env2 h2)
    /\ (Eval (S fuel) Nil env1 h1 = Some (Ok Nil, h1)
        /\ fst <$> Eval (S fuel) Nil env1 h1 = fst <$> Eval (S fuel) Nil env2 h2).
Proof. intros. repeat split. Qed.

End SelfEvaluation.

Section SpecialForms.
Import sexpr.

Lemma Eval_List (fuel : nat) (elements : list SExpr) (env : loc) (h : Store) :
  Eval (S fuel) (List elements) env h = evalList (Eval fuel) elements env h.
Proof. reflexivity. Qed.

Lemma evalDefine_arity (ev : SExpr -> loc -> Store -> Outcome SExpr)
    (first : SExpr) (ops : list SExpr) (env : loc) (h : Store) :
  length ops <> 2%nat ->
  evalDefine ev (first :: ops) env h
  = Some (Err (FormArity "define" 2 (length ops)), h).
Proof.
  intros Hlen. unfold evalDefine.
  destruct ops as [|a [|b [|c ops]]]; simpl in *; try congruence;
    rewrite ?Nat.sub_0_r; reflexivity.
Qed.

Lemma evalLambda_arity (first : SExpr) (ops : list SExpr) (env : loc) (h : Store) :
  length ops <> 2%nat ->
  evalLambda (first :: ops) env h
  = Some (Err (FormArity "lambda" 2 (length ops)), h).
Proof.
  intros Hlen. unfold evalLambda.
  destruct ops as [|a [|b [|c ops]]]; simpl in *; try congruence;
    rewrite ?Nat.sub_0_r; reflexivity.
Qed.

Lemma evalIf_arity (ev : SExpr -> loc -> Store -> Outcome SExpr)
    (first : SExpr) (ops : list SExpr) (env : loc) (h : Store) :
  length ops <> 3%nat ->
  evalIf ev (first :: ops) env h
  = Some (Err (FormArity "if" 3 (length ops)), h).
Proof.
  intros Hlen. unfold evalIf.
  destruct ops as [|a [|b [|c [|d ops]]]]; simpl in *; try congruence;
    rewrite ?Nat.sub_0_r; reflexivity.
Qed.

Lemma evalQuote_arity (first : SExpr) (ops : list SExpr) (env : loc) (h : Store) :
  length ops <> 1%nat ->
  evalQuote (first :: ops) env h
  = Some (Err (FormArity "quote" 1 (length ops)), h).
Proof.
  intros Hlen. unfold evalQuote.
  destruct ops as [|a [|b ops]]; simpl in *; try congruence;
    rewrite ?Nat.sub_0_r; reflexivity.
Qed.

(** C8: a special form (define, lambda, if, quote) applied to a number of
    operands other than the one it takes fails, for every environment and
    store, with the arity error that carries the name of the form and the
    number of operands received; the store is left as it was. *)
Theorem special_form_arity :
  forall (fuel : nat) (form : string) (k : nat) (ops : list SExpr)
         (env : loc) (h : Store),
    form_operands form = Some k ->
    length ops <> k ->
    Eval (S fuel) (List (Symbol form :: ops)) env h
    = Some (Err (FormArity form k (length ops)), h)
    /\ error_kind (FormArity form k (length ops)) = KArityError.
Proof.
  intros fuel form k ops env h Hform Hlen. split; [|reflexivity].
  rewrite Eval_List. unfold form_operands in Hform. unfold evalList.
  repeat case_decide; simplify_eq.
  - by apply evalDefine_arity.
  - by apply evalLambda_arity.
  - by apply evalIf_arity.
  - by apply evalQuote_arity.
Qed.

Lemma special_form_arity_witness :
  Eval 1 (List [Symbol "if"; Bool true; Number 1]) 0%nat []
  = Some (Err (FormArity "if" 3 2), [])
  /\ error_kind (FormArity "if" 3 2) = KArityError.
Proof.
  apply (special_form_arity 0 "if" 3 [Bool true; Number 1] 0%nat []).
  - reflexivity.
  - simpl. lia.
Defined.

End SpecialForms.

(** ** Conditionals *)

Section Conditional.
Import sexpr.

Lemma isTruthy_false (v : SExpr) : isTruthy v = false <-> v = Bool false \/ v = Nil.
Proof.
  split.
  - destruct v as [| | |[]| | | |]; simpl; intros; try discriminate; auto.
  - intros [-> | ->]; reflexivity.
Qed.

Lemma Eval_if (fuel : nat) (test thenE elseE : SExpr) (env : loc) (h : Store) :
  Eval (S fuel) (List [Symbol "if"; test; thenE; elseE]) env h
  = match Eval fuel test env h with
    | Some (Ok value, h1) =>
        if isTruthy value then Eval fuel thenE env h1 else Eval fuel elseE env h1
    | Some (Err err, h1) => Some (Err err, h1)
    | None => None
    end.
Proof. reflexivity. Qed.

(** C3: when the test of [(if test then else)] evaluates to a value, the
    form evaluates exactly the branch the value selects, in the store the
    test left: a truthy value gives the outcome of [then] whatever [else]
    is, and a falsy one the outcome of [else] whatever [then] is, so the
    other branch (failing, or not returning) has no part in the result.
    The falsy values are [Bool false] and [Nil] and no other; [Number 0],
    the empty string and the empty list are truthy. *)
Theorem evalIf_one_branch :
  forall (fuel : nat) (test : SExpr) (env : loc) (h h1 : Store) (value : SExpr),
    Eval fuel test env h = Some (Ok value, h1) ->
    (isTruthy value = true ->
     forall thenE elseE,
       Eval (S fuel) (List [Symbol "if"; test; thenE; elseE]) env h
       = Eval fuel thenE env h1)
    /\ (isTruthy value = false ->
        forall thenE elseE,
          Eval (S fuel) (List [Symbol "if"; test; thenE; elseE]) env h
          = Eval fuel elseE env h1)
    /\ (forall v, isTruthy v = false <-> v = Bool false \/ v = Nil)
    /\ isTruthy (Number 0) = true
    /\ isTruthy (String EmptyString) = true
    /\ isTruthy (List []) = true.
Proof.
  intros fuel test env h h1 value Htest.
  split; [|split; [|split; [apply isTruthy_false | repeat split]]].
  - intros Ht thenE elseE. by rewrite Eval_if, Htest, Ht.
  - intros Ht thenE elseE. by rewrite Eval_if, Htest, Ht.
Qed.

Lemma evalIf_one_branch_witness :
  (forall thenE elseE,
     Eval 2 (List [Symbol "if"; Number 0; thenE; elseE]) 0%nat []
     = Eval 1 thenE 0%nat [])
  /\ Eval 2 (List [Symbol "if"; Number 0; Number 1; Symbol "unbound"]) 0%nat []
     = Some (Ok (Number 1), []).
Proof.
  pose proof (evalIf_one_branch 1 (Number 0) 0%nat [] [] (Number 0) eq_refl)
    as [Hthen _].
  split.
  - exact (Hthen eq_refl).
  - rewrite (Hthen eq_refl). reflexivity.
Defined.

End Conditional.

(** ** Division *)

Section Division.
Import sexpr.

Lemma is_zero_Number (a : SExpr) : is_zero a = true <-> a = Number 0.
Proof.
  split; [|intros ->; reflexivity].
  destruct a as [[| |]| | | | | | |]; simpl; intros; try discriminate; reflexivity.
Qed.

Lemma wrap64_small (z : Z) : (-1 <= z <= 1)%Z -> wrap64 z = z.
Proof.
  intros Hz. unfold wrap64.
  rewrite Z.mod_small; lia.
Qed.

Lemma quot_1 (n : Z) : n <> 0%Z -> (-1 <= Z.quot 1 n <= 1)%Z.
Proof.
  intros Hn.
  destruct (Z.eq_dec n 1) as [->|H1]; [vm_compute; split; discriminate|].
  destruct (Z.eq_dec n (-1)) as [->|H2]; [vm_compute; split; discriminate|].
  assert (Hq : Z.quot 1 n = 0%Z) by (apply Z.quot_small_iff; lia).
  lia.
Qed.

Lemma quot_1_large (n : Z) : (1 < Z.abs n)%Z -> Z.quot 1 n = 0%Z.
Proof. intros Hn. apply Z.quot_small_iff; lia. Qed.

(** The loop fails with a division by zero exactly when it meets a zero
    after numbers only. *)
Lemma div_loop_zero (args : list SExpr) (result : Z) :
  prim.div_loop result args = Err DivisionByZero
  <-> exists (pre : list Z) (post : list SExpr),
        args = (Number <$> pre) ++ Number 0 :: post.
Proof.
  revert result. induction args as [|a args IH]; intros result; simpl.
  - split; [discriminate|]. intros (pre & post & H).
    destruct pre; discriminate.
  - destruct a as [v| | | | | | |];
      try (split; [discriminate|]; intros (pre & post & H);
           destruct pre; discriminate).
    destruct (Z.eqb_spec v 0) as [->|Hv].
    + split; [|reflexivity]. intros _. by exists [], args.
    + rewrite IH. split.
      * intros (pre & post & ->). by exists (v :: pre), post.
      * intros (pre & post & H). destruct pre as [|w pre]; simpl in H.
        -- injection H as Hv0 _. by destruct Hv.
        -- exists pre, post. by injection H as _ ->.
Qed.

Lemma div_loop_numbers (args : list SExpr) (result : Z) :
  Forall (fun a => prim.is_number a = true) args ->
  prim.div_loop result args = Err DivisionByZero <-> existsb is_zero args = true.
Proof.
  intros Hall. revert result. induction Hall as [|a args Ha Hall IH]; intros result.
  - simpl. split; discriminate.
  - destruct a as [v| | | | | | |]; try discriminate. simpl.
    destruct (Z.eqb_spec v 0) as [->|Hv]; [done|].
    rewrite IH. destruct v; try done.
Qed.

(** C4, as the code has it: [/] fails with a division by zero exactly when
    its first operand is a number and either it is the only operand and is
    zero, or a later operand is zero and every operand before that zero is
    a number (the operands are checked one after the other, each for being
    a number and then for being zero, before the division by it).  On
    operands that are all numbers this is: exactly when some divisor
    operand is zero.  With a single nonzero number [n], the result is the
    truncated quotient [1 / n], which is [0] as soon as [|n| > 1]. *)
Theorem primDiv_division_by_zero :
  forall (args : list SExpr) (env : loc),
    (call primDiv args env = Err DivisionByZero
     <-> args = [Number 0]
         \/ exists (first : Z) (pre : list Z) (post : list SExpr),
              args = Number first :: (Number <$> pre) ++ Number 0 :: post)
    /\ (Forall (fun a => prim.is_number a = true) args ->
        (call primDiv args env = Err DivisionByZero <-> zero_divisor args = true))
    /\ (forall n : Z, n <> 0%Z ->
          call primDiv [Number n] env = Ok (Number (Z.quot 1 n)))
    /\ (forall n : Z, (1 < Z.abs n)%Z ->
          call primDiv [Number n] env = Ok (Number 0)).
Proof.
  intros args env. simpl.
  split; [split|split; [intros Hall; split|split]].
  - destruct args as [|a0 rest]; [discriminate|].
    destruct a0 as [first| | | | | | |]; try discriminate.
    simpl. destruct rest as [|a1 rest].
    + destruct (Z.eqb_spec first 0) as [->|Hf]; [by left | discriminate].
    + intros H. apply div_loop_zero in H as (pre & post & ->).
      right. by exists first, pre, post.
  - intros [-> | (first & pre & post & ->)]; [reflexivity|].
    simpl. destruct ((Number <$> pre) ++ Number 0 :: post) as [|a1 rest] eqn:E.
    + destruct pre; discriminate.
    + rewrite <- E. apply div_loop_zero. by exists pre, post.
  - destruct args as [|a0 rest]; [discriminate|].
    inversion Hall as [|? ? Ha0 Hrest]; subst.
    destruct a0 as [first| | | | | | |]; try discriminate.
    simpl. destruct rest as [|a1 rest].
    + destruct (Z.eqb_spec first 0) as [->|Hf]; [done | discriminate].
    + intros Hd. by apply (div_loop_numbers (a1 :: rest) first) in Hd.
  - destruct args as [|a0 rest]; [discriminate|].
    inversion Hall as [|? ? Ha0 Hrest]; subst.
    destruct a0 as [first| | | | | | |]; try discriminate.
    simpl. destruct rest as [|a1 rest].
    + destruct (Z.eqb_spec first 0) as [->|Hf]; [done|].
      destruct first; done.
    + intros Hd. by apply (div_loop_numbers (a1 :: rest) first).
  - intros n Hn. destruct (Z.eqb_spec n 0) as [->|_]; [done|].
    by rewrite wrap64_small by (by apply quot_1).
  - intros n Hn. destruct (Z.eqb_spec n 0) as [->|_]; [simpl in Hn; lia|].
    by rewrite quot_1_large.
Qed.

Lemma primDiv_division_by_zero_witness :
  call primDiv [Number 6; Number 2; Number 0] 0%nat = Err DivisionByZero
  /\ call primDiv [Number (-5)] 0%nat = Ok (Number 0)
  /\ call primDiv [Number (-1)] 0%nat = Ok (Number (-1)).
Proof.
  pose proof (primDiv_division_by_zero [Number 6; Number 2; Number 0] 0%nat)
    as (_ & Hnum & Hone & Hbig).
  split; [|split].
  - apply Hnum; [|reflexivity].
    repeat constructor.
  - apply Hbig. simpl. lia.
  - apply (Hone (-1)%Z). lia.
Defined.

(** C4 as it is worded fails on [(/ "a" 0)]: the divisor is zero, and the
    failure is the type error on the first operand. *)
Lemma primDiv_zero_divisor_counterexample :
  zero_divisor [String "a"; Number 0] = true
  /\ call primDiv [String "a"; Number 0] 0%nat = Err (ExpectedNumber "/" (String "a"))
  /\ ~ (call primDiv [String "a"; Number 0] 0%nat = Err DivisionByZero
        <-> zero_divisor [String "a"; Number 0] = true).
Proof.
  split; [reflexivity|]. split; [reflexivity|].
  intros [_ H]. specialize (H eq_refl). discriminate H.
Qed.

End Division.

(** ** Environment chains *)

Section Environments.
Import sexpr.

Lemma Define_length (e : loc) (name : string) (v : SExpr) (h : Store) :
  length (Define e name v h) = length h.
Proof. unfold Define. destruct (h !! e); [apply length_insert | reflexivity]. Qed.

Lemma Define_other (e l : loc) (name : string) (v : SExpr) (h : Store) :
  l <> e -> Define e name v h !! l = h !! l.
Proof.
  intros Hne. unfold Define. destruct (h !! e); [|reflexivity].
  by apply list_lookup_insert_ne.
Qed.

Lemma Define_same (e : loc) (name : string) (v : SExpr) (h : Store) (env : Env) :
  h !! e = Some env ->
  Define e name v h !! e = Some (mkEnv (<[name := v]> (bindings env)) (parent env)).
Proof.
  intros He. unfold Define. rewrite He.
  apply list_lookup_insert_eq. by eapply lookup_lt_Some.
Qed.

Lemma binding_Define_eq (e : loc) (name : string) (v : SExpr) (h : Store) :
  (e < length h)%nat -> binding (Define e name v h) e name = Some v.
Proof.
  intros Hlt. destruct (lookup_lt_is_Some_2 h e Hlt) as [env He].
  unfold binding. rewrite (Define_same _ _ _ _ _ He). simpl.
  apply lookup_insert_eq.
Qed.

Lemma binding_Define_ne (e : loc) (name name' : string) (v : SExpr) (h : Store) :
  name' <> name -> binding (Define e name v h) e name' = binding h e name'.
Proof.
  intros Hne. unfold binding. destruct (h !! e) as [env|] eqn:He.
  - rewrite (Define_same _ _ _ _ _ He). simpl. by apply lookup_insert_ne.
  - unfold Define. rewrite He. simpl. by rewrite He.
Qed.

Lemma binding_Define_other (e l : loc) (name name' : string) (v : SExpr) (h : Store) :
  l <> e -> binding (Define e name v h) l name' = binding h l name'.
Proof. intros Hne. unfold binding. by rewrite Define_other. Qed.

Lemma parent_Define (e l : loc) (name : string) (v : SExpr) (h : Store) :
  parent <$> Define e name v h !! l = parent <$> h !! l.
Proof.
  destruct (decide (l = e)) as [->|Hne]; [|by rewrite Define_other].
  destruct (h !! e) as [env|] eqn:He.
  - by rewrite (Define_same _ _ _ _ _ He).
  - unfold Define. rewrite He. by rewrite He.
Qed.

(** More fuel, or a store that keeps every record the first one has, gives
    the same lookup. *)
Lemma Lookup_at_stable (n : nat) :
  forall (h h' : Store) (e : loc) (name : string) (r : Res SExpr) (m : nat),
    Lookup_at n h e name = Some r ->
    (forall l env, h !! l = Some env -> h' !! l = Some env) ->
    (n <= m)%nat ->
    Lookup_at m h' e name = Some r.
Proof.
  induction n as [|n IH]; intros h h' e name r m Hl Hsub Hle; [discriminate|].
  destruct m as [|m]; [lia|]. cbn [Lookup_at] in *.
  destruct (h !! e) as [env|] eqn:He; [|discriminate].
  rewrite (Hsub _ _ He). cbn [mbind option_bind] in *.
  destruct (bindings env !! name); [done|].
  destruct (parent env) as [p|]; [|done].
  eapply IH; eauto. lia.
Qed.

Lemma Lookup_at_chain (n : nat) :
  forall (h : Store) (e : loc) (name : string) (chain : list loc),
    scope_chain n h e = Some chain ->
    Lookup_at n h e name = Some (chain_lookup h name chain).
Proof.
  induction n as [|n IH]; intros h e name chain Hc; [discriminate|].
  cbn [Lookup_at scope_chain] in *.
  destruct (h !! e) as [env|] eqn:He; [|discriminate].
  cbn [mbind option_bind] in *.
  destruct (parent env) as [p|].
  - destruct (scope_chain n h p) as [chain'|] eqn:Hp; [|discriminate].
    injection Hc as <-. cbn [chain_lookup]. unfold binding at 1.
    rewrite He. cbn [mbind option_bind].
    destruct (bindings env !! name); [done|]. by apply IH.
  - injection Hc as <-. cbn [chain_lookup]. unfold binding.
    rewrite He. cbn [mbind option_bind].
    by destruct (bindings env !! name).
Qed.

Lemma Set_at_chain (n : nat) :
  forall (h : Store) (e : loc) (name : string) (v : SExpr) (chain : list loc),
    scope_chain n h e = Some chain ->
    Set_at n h e name v
    = Some (match first_binding h name chain with
            | Some l => (Ok tt, Define l name v h)
            | None => (Err (UndefinedVariable name), h)
            end).
Proof.
  induction n as [|n IH]; intros h e name v chain Hc; [discriminate|].
  cbn [Set_at scope_chain] in *.
  destruct (h !! e) as [env|] eqn:He; [|discriminate].
  cbn [mbind option_bind] in *.
  destruct (parent env) as [p|] eqn:Hpar.
  - destruct (scope_chain n h p) as [chain'|] eqn:Hp; [|discriminate].
    injection Hc as <-. cbn [first_binding]. unfold binding at 1.
    rewrite He. cbn [mbind option_bind].
    destruct (bindings env !! name).
    + unfold Define. by rewrite He, Hpar.
    + by apply IH.
  - injection Hc as <-. cbn [first_binding]. unfold binding.
    rewrite He. cbn [mbind option_bind].
    destruct (bindings env !! name); [|done].
    unfold Define. by rewrite He, Hpar.
Qed.

Lemma first_binding_None (h : Store) (name : string) (chain : list loc) :
  first_binding h name chain = None
  <-> forall l, l ∈ chain -> binding h l name = None.
Proof.
  induction chain as [|l chain IH]; simpl.
  - split; [|done]. intros _ l Hl. by apply elem_of_nil in Hl.
  - destruct (binding h l name) eqn:Hb.
    + split; [discriminate|]. intros H.
      specialize (H l (list_elem_of_here _ _)). congruence.
    + rewrite IH. split.
      * intros H l' [->|Hl']%elem_of_cons; auto.
      * intros H l' Hl'. apply H. by apply list_elem_of_further.
Qed.

Lemma first_binding_Some (h : Store) (name : string) (chain : list loc) (l : loc) :
  first_binding h name chain = Some l ->
  exists pre post,
    chain = pre ++ l :: post
    /\ (forall l', l' ∈ pre -> binding h l' name = None)
    /\ is_Some (binding h l name).
Proof.
  revert l. induction chain as [|l0 chain IH]; intros l Hf; [discriminate|].
  simpl in Hf. destruct (binding h l0 name) eqn:Hb.
  - simplify_eq. exists [], chain. split; [done|]. split; [|by eexists].
    intros l' Hl'. by apply elem_of_nil in Hl'.
  - destruct (IH _ Hf) as (pre & post & -> & Hpre & Hl).
    exists (l0 :: pre), post. split; [done|]. split; [|done].
    intros l' [->|Hl']%elem_of_cons; auto.
Qed.

(** In a store built by [NewEnv], every allocated scope has a chain, and
    the number of records is fuel enough to follow it. *)
Lemma scope_chain_total (h : Store) :
  store_ok h ->
  forall (e : loc), (e < length h)%nat ->
    forall n, (e < n)%nat -> is_Some (scope_chain n h e).
Proof.
  intros Hok e. induction (lt_wf e) as [e _ IH]. intros He n Hn.
  destruct n as [|n]; [lia|]. cbn [scope_chain].
  destruct (lookup_lt_is_Some_2 h e He) as [env Henv]. rewrite Henv.
  cbn [mbind option_bind].
  destruct (parent env) as [p|] eqn:Hp; [|by eexists].
  pose proof (Hok _ _ _ Henv Hp) as Hlt.
  destruct (IH p Hlt ltac:(lia) n ltac:(lia)) as [chain ->]. by eexists.
Qed.

Lemma Lookup_at_here (n : nat) (h : Store) (e : loc) (name : string) (v : SExpr) :
  (0 < n)%nat -> binding h e name = Some v -> Lookup_at n h e name = Some (Ok v).
Proof.
  intros Hn. destruct n as [|n]; [lia|].
  unfold binding. cbn [Lookup_at]. destruct (h !! e) as [env|]; [|discriminate].
  cbn [mbind option_bind]. by intros ->.
Qed.

Lemma Lookup_at_parent (n : nat) (h : Store) (e p : loc) (name : string) :
  binding h e name = None ->
  parent <$> h !! e = Some (Some p) ->
  Lookup_at (S n) h e name = Lookup_at n h p name.
Proof.
  unfold binding. cbn [Lookup_at]. destruct (h !! e) as [env|]; [|discriminate].
  cbn [mbind option_bind fmap option_fmap option_map]. intros -> [= ->]. done.
Qed.

(** A lookup from [e] reads the records at [e] and below only. *)
Lemma Lookup_at_below (n : nat) :
  forall (h h' : Store) (e : loc) (name : string),
    store_ok h ->
    (forall l, (l <= e)%nat -> h' !! l = h !! l) ->
    Lookup_at n h' e name = Lookup_at n h e name.
Proof.
  induction n as [|n IH]; intros h h' e name Hok Hsame; [reflexivity|].
  cbn [Lookup_at]. rewrite (Hsame e) by lia.
  destruct (h !! e) as [env|] eqn:He; [|reflexivity].
  cbn [mbind option_bind].
  destruct (bindings env !! name); [reflexivity|].
  destruct (parent env) as [p|] eqn:Hp; [|reflexivity].
  pose proof (Hok _ _ _ He Hp). apply IH; [done|]. intros l Hl. apply Hsame. lia.
Qed.

Lemma NewEnv_store_ok (h : Store) (p : option loc) :
  store_ok h ->
  (forall q, p = Some q -> (q < length h)%nat) ->
  store_ok (NewEnv p h).2.
Proof.
  intros Hok Hp l env q Hl Hq. cbn [NewEnv snd] in Hl.
  destruct (decide (l < length h)%nat) as [Hlt|Hge].
  - rewrite lookup_app_l in Hl by done. by eapply Hok.
  - rewrite lookup_app_r in Hl by lia.
    destruct (l - length h)%nat as [|k] eqn:Hk; [|by destruct k].
    injection Hl as <-. cbn in Hq. specialize (Hp _ Hq). lia.
Qed.

Lemma Define_store_ok (h : Store) (e : loc) (name : string) (v : SExpr) :
  store_ok h -> store_ok (Define e name v h).
Proof.
  intros Hok l env q Hl Hq.
  pose proof (parent_Define e l name v h) as Hpar. rewrite Hl in Hpar.
  destruct (h !! l) as [env0|] eqn:E; [|discriminate].
  injection Hpar as Hpar. eapply Hok; [exact E | congruence].
Qed.

Lemma Lookup_allocated (h : Store) (e : loc) (name : string) (r : Res SExpr) :
  Lookup h e name = Some r -> (e < length h)%nat.
Proof.
  unfold Lookup. destruct (length h) as [|n] eqn:Hn; [discriminate|].
  cbn [Lookup_at]. destruct (h !! e) as [env|] eqn:He; [|discriminate].
  intros _. rewrite <- Hn. by eapply lookup_lt_Some.
Qed.

(** C6: in a store whose parent pointers point to older records (every
    store built by [NewEnv] is one), [Set] on an allocated scope returns,
    and with the chain of scopes from [e] to the root: if some scope of the
    chain binds the name, [Set] succeeds and the store it leaves is the one
    [Define] gives at the first such scope - the scopes before it do not
    bind the name, that scope now binds it to the value, its other names
    and every other record are as they were; if no scope of the chain binds
    the name, [Set] fails with UndefinedVariable of that name and leaves
    the store as it was, so no binding has been made.  It fails in no other
    case. *)
Theorem Set_first_binding :
  forall (h : Store) (e : loc) (name : string) (v : SExpr),
    store_ok h ->
    (e < length h)%nat ->
    exists chain : list loc,
      scope_chain (length h) h e = Some chain
      /\ (forall l, first_binding h name chain = Some l ->
            Set_ h e name v = Some (Ok tt, Define l name v h)
            /\ (exists pre post,
                  chain = pre ++ l :: post
                  /\ (forall l', l' ∈ pre -> binding h l' name = None)
                  /\ is_Some (binding h l name))
            /\ binding (Define l name v h) l name = Some v
            /\ (forall name', name' <> name ->
                  binding (Define l name v h) l name' = binding h l name')
            /\ (forall l', l' <> l -> Define l name v h !! l' = h !! l')
            /\ (forall l', parent <$> Define l name v h !! l' = parent <$> h !! l'))
      /\ (first_binding h name chain = None ->
          Set_ h e name v = Some (Err (UndefinedVariable name), h))
      /\ ((exists err h', Set_ h e name v = Some (Err err, h'))
          <-> forall l, l ∈ chain -> binding h l name = None)
      /\ (forall err h', Set_ h e name v = Some (Err err, h') ->
            err = UndefinedVariable name /\ h' = h).
Proof.
  intros h e name v Hok He.
  destruct (scope_chain_total h Hok e He (length h) He) as [chain Hc].
  pose proof (Set_at_chain _ h e name v chain Hc) as Hset.
  fold (Set_ h e name v) in Hset.
  exists chain. split; [done|]. split; [|split; [|split]].
  - intros l Hl. rewrite Hl in Hset. split; [done|].
    destruct (first_binding_Some _ _ _ _ Hl) as (pre & post & Hch & Hpre & Hb).
    split; [by exists pre, post|].
    split.
    { apply binding_Define_eq. destruct Hb as [w Hb]. unfold binding in Hb.
      destruct (h !! l) eqn:E; [|discriminate]. by eapply lookup_lt_Some. }
    split; [intros; by apply binding_Define_ne|].
    split; [intros; by apply Define_other|].
    intros. apply parent_Define.
  - intros Hn. by rewrite Hn in Hset.
  - rewrite <- first_binding_None. split.
    + intros (err & h' & Hs). rewrite Hs in Hset.
      destruct (first_binding h name chain); [discriminate | done].
    + intros Hn. rewrite Hn in Hset. eauto.
  - intros err h' Hs. rewrite Hs in Hset.
    destruct (first_binding h name chain); [discriminate|].
    by injection Hset as -> ->.
Qed.

Lemma two_scopes_ok : store_ok Examples.two_scopes.
Proof.
  intros l env p Hl Hp. destruct l as [|[|l]]; simplify_eq/=. lia.
Qed.

Lemma Set_first_binding_witness :
  store_ok Examples.two_scopes
  /\ Set_ Examples.two_scopes 1 "x" (Number 7)
     = Some (Ok tt, Define 0 "x" (Number 7) Examples.two_scopes)
  /\ Set_ Examples.two_scopes 1 "y" (Number 7)
     = Some (Err (UndefinedVariable "y"), Examples.two_scopes).
Proof.
  assert (Hlt : (1 < length Examples.two_scopes)%nat) by (simpl; lia).
  split; [exact two_scopes_ok|]. split.
  - destruct (Set_first_binding Examples.two_scopes 1 "x" (Number 7) two_scopes_ok Hlt)
      as (chain & Hc & Hsome & _).
    vm_compute in Hc. injection Hc as <-.
    apply (Hsome 0%nat). reflexivity.
  - destruct (Set_first_binding Examples.two_scopes 1 "y" (Number 7) two_scopes_ok Hlt)
      as (chain & Hc & _ & Hnone & _).
    vm_compute in Hc. injection Hc as <-.
    apply Hnone. reflexivity.
Defined.

(** C7: when a lookup of [x] in [p] gives [v1], and [c] is the child made
    by [p.Extend()] in which [x] is then defined as [v2]: the lookup in [c]
    gives [v2], the lookup in [p] still gives [v1], and the record of [p]
    is the one it was.  The same holds for a child of [p] made earlier, in
    any store whose parent pointers point to older records.  In general
    [Define] changes the record of the scope it is called on and no other,
    and a lookup returns the binding of the first scope, from the scope it
    starts in towards the root, that binds the name. *)
Theorem Define_shadows :
  forall (h : Store) (p : loc) (x : string) (v1 v2 : SExpr),
    Lookup h p x = Some (Ok v1) ->
    (let c := (Extend p h).1 in
     let h2 := Define c x v2 (Extend p h).2 in
     Lookup h2 c x = Some (Ok v2)
     /\ Lookup h2 p x = Some (Ok v1)
     /\ h2 !! p = h !! p
     /\ h !! c = None)
    /\ (forall (c : loc) (envc : Env),
          store_ok h ->
          h !! c = Some envc ->
          parent envc = Some p ->
          Lookup (Define c x v2 h) c x = Some (Ok v2)
          /\ Lookup (Define c x v2 h) p x = Some (Ok v1)
          /\ Define c x v2 h !! p = h !! p)
    /\ (forall (e l : loc) (name : string) (v : SExpr) (h0 : Store),
          l <> e -> Define e name v h0 !! l = h0 !! l)
    /\ (forall (n : nat) (h0 : Store) (e : loc) (name : string) (chain : list loc),
          scope_chain n h0 e = Some chain ->
          Lookup_at n h0 e name = Some (chain_lookup h0 name chain)).
Proof.
  intros h p x v1 v2 Hp.
  split; [|split;
           [|split; [intros; by apply Define_other | intros; by apply Lookup_at_chain]]].
  - pose proof (Lookup_allocated _ _ _ _ Hp) as Hlt.
    cbn [Extend NewEnv fst snd].
    assert (Hc : (h ++ [mkEnv ∅ (Some p)]) !! length h = Some (mkEnv ∅ (Some p))).
    { rewrite lookup_app_r by lia. by rewrite Nat.sub_diag. }
    assert (Hsub : forall l env, h !! l = Some env ->
              Define (length h) x v2 (h ++ [mkEnv ∅ (Some p)]) !! l = Some env).
    { intros l env Hl. pose proof (lookup_lt_Some _ _ _ Hl).
      rewrite Define_other by lia. by rewrite lookup_app_l. }
    split; [|split; [|split]].
    + unfold Lookup. rewrite Define_length, length_app. simpl.
      rewrite Nat.add_1_r. cbn [Lookup_at].
      rewrite (Define_same _ _ _ _ _ Hc). cbn [mbind option_bind bindings].
      by rewrite lookup_insert_eq.
    + unfold Lookup in *. eapply Lookup_at_stable; [exact Hp | exact Hsub |].
      rewrite Define_length, length_app. lia.
    + destruct (lookup_lt_is_Some_2 h p Hlt) as [env Henv].
      rewrite Henv. by apply Hsub.
    + by apply lookup_ge_None.
  - intros c envc Hok Hc Hpar.
    pose proof (Hok _ _ _ Hc Hpar) as Hlt.
    pose proof (lookup_lt_Some _ _ _ Hc) as Hclt.
    split; [|split].
    + unfold Lookup. rewrite Define_length.
      apply Lookup_at_here; [lia|]. by apply binding_Define_eq.
    + unfold Lookup in *. rewrite Define_length.
      rewrite (Lookup_at_below _ h); [done | done |].
      intros l Hl. apply Define_other. lia.
    + apply Define_other. lia.
Qed.

Lemma Define_shadows_witness :
  Lookup [mkEnv {["x" := Number 42]} None] 0 "x" = Some (Ok (Number 42))
  /\ (let c := (Extend 0 [mkEnv {["x" := Number 42]} None]).1 in
      let h2 := Define c "x" (Number 17) (Extend 0 [mkEnv {["x" := Number 42]} None]).2 in
      Lookup h2 c "x" = Some (Ok (Number 17))
      /\ Lookup h2 0 "x" = Some (Ok (Number 42))
      /\ h2 !! 0%nat = [mkEnv {["x" := Number 42]} None] !! 0%nat
      /\ [mkEnv {["x" := Number 42]} None] !! c = None).
Proof.
  split; [reflexivity|].
  apply (Define_shadows [mkEnv {["x" := Number 42]} None] 0 "x" (Number 42) (Number 17)).
  reflexivity.
Defined.

End Environments.

(** ** Applying closures *)

Section Application.
Import sexpr.

Lemma bind_params_zip (c : loc) (params : list string) (args : list SExpr) (h : Store) :
  bind_params c params args h
  = foldl (fun h0 pa => Define c pa.1 pa.2 h0) h (zip params args).
Proof.
  revert args h. induction params as [|p params IH]; intros [|a args] h; simpl; auto.
Qed.

Lemma bind_params_length (c : loc) (params : list string) (args : list SExpr) (h : Store) :
  length (bind_params c params args h) = length h.
Proof.
  revert args h. induction params as [|p params IH]; intros [|a args] h; simpl; auto.
  by rewrite IH, Define_length.
Qed.

Lemma bind_params_other (c l : loc) (params : list string) (args : list SExpr)
    (h : Store) :
  l <> c -> bind_params c params args h !! l = h !! l.
Proof.
  intros Hne. revert args h.
  induction params as [|p params IH]; intros [|a args] h; simpl; auto.
  by rewrite IH, Define_other.
Qed.

Lemma binding_bind_other (c l : loc) (params : list string) (args : list SExpr)
    (h : Store) (name : string) :
  l <> c -> binding (bind_params c params args h) l name = binding h l name.
Proof. intros Hne. unfold binding. by rewrite bind_params_other. Qed.

Lemma bind_params_parent (c l : loc) (params : list string) (args : list SExpr)
    (h : Store) :
  parent <$> bind_params c params args h !! l = parent <$> h !! l.
Proof.
  revert args h. induction params as [|p params IH]; intros [|a args] h; simpl; auto.
  by rewrite IH, parent_Define.
Qed.

Lemma bind_params_not_param (c : loc) (params : list string) (args : list SExpr)
    (h : Store) (name : string) :
  name ∉ params ->
  binding (bind_params c params args h) c name = binding h c name.
Proof.
  revert args h. induction params as [|p params IH]; intros [|a args] h Hn; simpl; auto.
  apply not_elem_of_cons in Hn as [Hne Hn].
  rewrite IH by done. by apply binding_Define_ne.
Qed.

Lemma bind_params_binding (c : loc) (params : list string) :
  forall (args : list SExpr) (h : Store) (i : nat) (p : string) (a : SExpr),
    (c < length h)%nat ->
    params !! i = Some p ->
    args !! i = Some a ->
    p ∉ drop (S i) params ->
    binding (bind_params c params args h) c p = Some a.
Proof.
  induction params as [|p0 params IH]; intros args h i p a Hc Hp Ha Hlast;
    [by destruct i|].
  destruct args as [|a0 args]; [by destruct i|].
  destruct i as [|i]; simpl in *.
  - simplify_eq. rewrite drop_0 in Hlast.
    rewrite bind_params_not_param by done. by apply binding_Define_eq.
  - eapply IH; eauto. by rewrite Define_length.
Qed.

Lemma Eval_apply (fuel : nat) (head : SExpr) (rest : list SExpr) (env : loc)
    (h : Store) :
  special_form head = false ->
  Eval (S fuel) (List (head :: rest)) env h
  = evalApply (Eval fuel) (head :: rest) env h.
Proof.
  intros Hsf. rewrite Eval_List. unfold evalList.
  destruct head as [| name | | | | | |]; try reflexivity.
  repeat case_decide; try reflexivity; subst name; vm_compute in Hsf; discriminate.
Qed.

Lemma evalArgs_evaluated (ev : SExpr -> loc -> Store -> Outcome SExpr) (env : loc)
    (elements values : list SExpr) (h h2 : Store) :
  evalArgs ev elements env h = Some (Ok values, h2)
  <-> args_evaluated ev env h elements values h2.
Proof.
  split.
  - revert values h. induction elements as [|arg rest IH]; intros values h; simpl.
    + intros [= <- <-]. constructor.
    + destruct (ev arg env h) as [[[value|err] h1]|] eqn:Harg; try discriminate.
      destruct (evalArgs ev rest env h1) as [[[vs|err] h3]|] eqn:Hrest;
        try discriminate.
      intros [= <- <-]. econstructor; eauto.
  - induction 1 as [|h h1 h2 arg value rest values Harg _ IH]; simpl; [done|].
    by rewrite Harg, IH.
Qed.

Lemma evalArgs_first_failure (ev : SExpr -> loc -> Store -> Outcome SExpr)
    (env : loc) (pre post values : list SExpr) (arg : SExpr) (h h1 h2 : Store)
    (err : Error) :
  args_evaluated ev env h pre values h1 ->
  ev arg env h1 = Some (Err err, h2) ->
  evalArgs ev (pre ++ arg :: post) env h = Some (Err err, h2).
Proof.
  intros Hpre Harg.
  induction Hpre as [|h h1 h3 a v rest vs Ha _ IH]; simpl.
  - by rewrite Harg.
  - by rewrite Ha, IH.
Qed.

(** C1: [applyFunc] on a closure and an argument list.  With a number of
    arguments other than the number of parameters it fails with the arity
    error and leaves the store alone.  Otherwise its outcome is the outcome
    of the body evaluated in a scope [c] of a store [h'] such that: [c] is
    not allocated before the call and [h'] has the records of the store
    before the call, unchanged, and the one of [c] in addition; the parent of
    [c] is the environment held by the closure; [h'] is reached by one
    [Define] in [c] per parameter, in order, with the argument at the same
    position, so that [c] binds each parameter (that no later parameter
    repeats) to its argument and binds no other name.  The caller's
    environment has no part in it: from any environment [env], the
    application of a head that evaluates to the closure is [applyFunc] on
    the closure and the evaluated arguments. *)
Theorem applyFunc_protocol :
  forall (fuel : nat) (params : list string) (body : SExpr) (fnEnv : loc)
         (args : list SExpr) (h : Store),
    (length args <> length params ->
     applyFunc (Eval fuel) params body fnEnv args h
     = Some (Err (FuncArity (length params) (length args)), h)
     /\ error_kind (FuncArity (length params) (length args)) = KArityError)
    /\ (length args = length params ->
        exists h' : Store,
          let c := length h in
          applyFunc (Eval fuel) params body fnEnv args h = Eval fuel body c h'
          /\ h' = foldl (fun h0 pa => Define c pa.1 pa.2 h0)
                    (h ++ [mkEnv ∅ (Some fnEnv)]) (zip params args)
          /\ h !! c = None
          /\ length h' = S (length h)
          /\ (forall l, (l < length h)%nat -> h' !! l = h !! l)
          /\ parent <$> h' !! c = Some (Some fnEnv)
          /\ (forall i p a,
                params !! i = Some p -> args !! i = Some a ->
                p ∉ drop (S i) params ->
                binding h' c p = Some a)
          /\ (forall name, name ∉ params -> binding h' c name = None))
    /\ (forall (head : SExpr) (rest : list SExpr) (env : loc) (h0 h1 : Store),
          special_form head = false ->
          Eval fuel head env h0 = Some (Ok (Func params body fnEnv), h1) ->
          args_evaluated (Eval fuel) env h1 rest args h ->
          Eval (S fuel) (List (head :: rest)) env h0
          = applyFunc (Eval fuel) params body fnEnv args h).
Proof.
  intros fuel params body fnEnv args h. split; [|split].
  - intros Hne. split; [|reflexivity]. unfold applyFunc.
    destruct (Nat.eqb_spec (length args) (length params)); [done | reflexivity].
  - intros Heq.
    exists (bind_params (length h) params args (h ++ [mkEnv ∅ (Some fnEnv)])).
    cbn zeta.
    assert (Hc : (h ++ [mkEnv ∅ (Some fnEnv)]) !! length h
                 = Some (mkEnv ∅ (Some fnEnv))).
    { rewrite lookup_app_r by lia. by rewrite Nat.sub_diag. }
    assert (Hlen : length (h ++ [mkEnv ∅ (Some fnEnv)]) = S (length h)).
    { rewrite length_app. simpl. lia. }
    split; [|split; [|split; [|split; [|split; [|split; [|split]]]]]].
    + unfold applyFunc. rewrite Heq, Nat.eqb_refl. reflexivity.
    + apply bind_params_zip.
    + by apply lookup_ge_None.
    + by rewrite bind_params_length.
    + intros l Hl. rewrite bind_params_other by lia. by apply lookup_app_l.
    + by rewrite bind_params_parent, Hc.
    + intros i p a Hp Ha Hlast. eapply bind_params_binding; eauto. lia.
    + intros name Hn. rewrite bind_params_not_param by done.
      unfold binding. by rewrite Hc.
  - intros head rest env h0 h1 Hsf Hhead Hargs.
    rewrite Eval_apply by done. unfold evalApply. rewrite Hhead.
    apply evalArgs_evaluated in Hargs. by rewrite Hargs.
Qed.

Lemma applyFunc_protocol_witness :
  applyFunc (Eval 2) ["x"] (Symbol "x") 0 [Number 1; Number 2] [mkEnv ∅ None]
  = Some (Err (FuncArity 1 2), [mkEnv ∅ None])
  /\ fst <$> applyFunc (Eval 2) ["x"] (Symbol "x") 0 [Number 5] [mkEnv ∅ None]
     = Some (Ok (Number 5))
  /\ Eval 3 (List [List [Symbol "lambda"; List [Symbol "x"]; Symbol "x"];
                   Number 1; Number 2]) 0 [mkEnv ∅ None]
     = Some (Err (FuncArity 1 2), [mkEnv ∅ None]).
Proof.
  pose proof (applyFunc_protocol 2 ["x"] (Symbol "x") 0 [Number 1; Number 2]
                [mkEnv ∅ None]) as (Harity & _ & Hcall).
  pose proof (applyFunc_protocol 2 ["x"] (Symbol "x") 0 [Number 5]
                [mkEnv ∅ None]) as (_ & Hbody & _).
  assert (Hne : length [Number 1; Number 2] <> length ["x"]) by (simpl; lia).
  split; [exact (proj1 (Harity Hne))|]. split.
  - destruct (Hbody eq_refl) as (h' & Happ & -> & _).
    rewrite Happ. reflexivity.
  - rewrite (Hcall (List [Symbol "lambda"; List [Symbol "x"]; Symbol "x"])
               [Number 1; Number 2] 0%nat [mkEnv ∅ None] [mkEnv ∅ None]).
    + exact (proj1 (Harity Hne)).
    + reflexivity.
    + reflexivity.
    + apply evalArgs_evaluated. reflexivity.
Defined.

(** A closure whose body is the symbol [name], which is not one of its
    parameters, returns what its environment binds to [name] in the store
    of the application. *)
Lemma applyFunc_reads_captured (fuel : nat) (params : list string) (name : string)
    (env : loc) (args : list SExpr) (h : Store) (v : SExpr) :
  binding h env name = Some v ->
  name ∉ params ->
  length args = length params ->
  fst <$> applyFunc (Eval (S fuel)) params (Symbol name) env args h = Some (Ok v).
Proof.
  intros Hb Hn Hlen.
  assert (Henv : (env < length h)%nat).
  { unfold binding in Hb. destruct (h !! env) eqn:E; [|discriminate].
    by eapply lookup_lt_Some. }
  unfold applyFunc. rewrite Hlen, Nat.eqb_refl.
  cbn [negb Extend NewEnv Eval].
  set (h1 := h ++ [mkEnv ∅ (Some env)]).
  set (h2 := bind_params (length h) params args h1).
  assert (Hc : h1 !! length h = Some (mkEnv ∅ (Some env))).
  { unfold h1. rewrite lookup_app_r by lia. by rewrite Nat.sub_diag. }
  assert (Hlen2 : length h2 = S (length h)).
  { unfold h2, h1. rewrite bind_params_length, length_app. simpl. lia. }
  assert (Hl : Lookup h2 (length h) name = Some (Ok v)).
  { unfold Lookup. rewrite Hlen2.
    rewrite (Lookup_at_parent _ _ _ env).
    - apply Lookup_at_here; [lia|]. unfold h2.
      rewrite binding_bind_other by lia. unfold binding, h1.
      by rewrite lookup_app_l.
    - unfold h2. rewrite bind_params_not_param by done.
      unfold binding. by rewrite Hc.
    - unfold h2. by rewrite bind_params_parent, Hc. }
  by rewrite Hl.
Qed.

End Application.

(** ** Closures, applications and definitions *)

Section Closures.
Import sexpr.

(** C2: [lambda] with a well-formed parameter list returns at once, in an
    unchanged store, the closure made of the parameter names, the body
    expression as written (whatever it is: it is not evaluated) and the
    pointer to the current environment.  The environment is shared, not
    copied: when the body is a symbol that is not a parameter, the closure
    applied in a later store returns what its environment binds to that
    symbol in that store - in particular the value [v] given by a [Define]
    of the symbol in the environment after the closure was made, whatever
    was bound when it was made. *)
Theorem lambda_captures_by_reference :
  forall (fuel : nat) (elements : list SExpr) (params : list string)
         (env : loc) (h : Store),
    lambda_params elements = Ok params ->
    (forall body : SExpr,
       Eval (S fuel) (List [Symbol "lambda"; List elements; body]) env h
       = Some (Ok (Func params body env), h))
    /\ (forall (name : string) (args : list SExpr),
          name ∉ params ->
          length args = length params ->
          (forall (h' : Store) (v : SExpr),
             binding h' env name = Some v ->
             fst <$> applyFunc (Eval (S fuel)) params (Symbol name) env args h'
             = Some (Ok v))
          /\ (forall v : SExpr,
                (env < length h)%nat ->
                fst <$> applyFunc (Eval (S fuel)) params (Symbol name) env args
                          (Define env name v h)
                = Some (Ok v))).
Proof.
  intros fuel elements params env h Hparams. split.
  - intros body. rewrite Eval_List. cbn. by rewrite Hparams.
  - intros name args Hn Hlen. split.
    + intros h' v Hb. by apply applyFunc_reads_captured.
    + intros v Henv. apply applyFunc_reads_captured; try done.
      by apply binding_Define_eq.
Qed.

Lemma lambda_captures_by_reference_witness :
  Eval 1 (List [Symbol "lambda"; List [Symbol "y"]; Symbol "x"]) 0
    [mkEnv {["x" := Number 1]} None]
  = Some (Ok (Func ["y"] (Symbol "x") 0), [mkEnv {["x" := Number 1]} None])
  /\ fst <$> applyFunc (Eval 1) ["y"] (Symbol "x") 0 [Nil]
               [mkEnv {["x" := Number 1]} None]
     = Some (Ok (Number 1))
  /\ fst <$> applyFunc (Eval 1) ["y"] (Symbol "x") 0 [Nil]
               (Define 0 "x" (Number 2) [mkEnv {["x" := Number 1]} None])
     = Some (Ok (Number 2)).
Proof.
  pose proof (lambda_captures_by_reference 0 [Symbol "y"] ["y"] 0
                [mkEnv {["x" := Number 1]} None] eq_refl) as [Hmake Happ].
  assert (Hn : "x" ∉ ["y"]).
  { intros [H|H]%elem_of_cons; [discriminate | by apply elem_of_nil in H]. }
  destruct (Happ "x" [Nil] Hn eq_refl) as [Hread Hdef].
  split; [apply Hmake|]. split.
  - apply Hread. reflexivity.
  - apply Hdef. simpl. lia.
Defined.

(** C5: an application - a list whose head is not the symbol of a special
    form.  The head is evaluated first: when it fails, the application
    fails with that error in the store the head left, whatever the
    remaining elements are.  The remaining elements are then evaluated from
    the left, each in the store left by the one before: when one fails
    after the ones before it gave values, the application fails with that
    error in the store that element left, whatever the elements after it
    are.  When all give values and the value of the head is neither a
    Primitive nor a closure, it fails with NotCallable of that value.  So
    an application with an unbound symbol for head fails with
    UndefinedVariable of that symbol and leaves the store alone. *)
Theorem evalApply_order :
  forall (fuel : nat) (head : SExpr) (env : loc) (h : Store),
    special_form head = false ->
    (forall (err : Error) (h1 : Store) (rest : list SExpr),
       Eval fuel head env h = Some (Err err, h1) ->
       Eval (S fuel) (List (head :: rest)) env h = Some (Err err, h1))
    /\ (forall (fn arg : SExpr) (pre values post : list SExpr)
               (h1 h2 h3 : Store) (err : Error),
          Eval fuel head env h = Some (Ok fn, h1) ->
          args_evaluated (Eval fuel) env h1 pre values h2 ->
          Eval fuel arg env h2 = Some (Err err, h3) ->
          Eval (S fuel) (List (head :: pre ++ arg :: post)) env h
          = Some (Err err, h3))
    /\ (forall (fn : SExpr) (rest values : list SExpr) (h1 h2 : Store),
          Eval fuel head env h = Some (Ok fn, h1) ->
          args_evaluated (Eval fuel) env h1 rest values h2 ->
          callable fn = false ->
          Eval (S fuel) (List (head :: rest)) env h
          = Some (Err (NotCallable fn), h2)
          /\ error_kind (NotCallable fn) = KNotCallable)
    /\ (forall (name : string) (rest : list SExpr),
          head = Symbol name ->
          Lookup h env name = Some (Err (UndefinedVariable name)) ->
          Eval (S (S fuel)) (List (head :: rest)) env h
          = Some (Err (UndefinedVariable name), h)).
Proof.
  intros fuel head env h Hsf. split; [|split; [|split]].
  - intros err h1 rest Hhead. rewrite Eval_apply by done.
    unfold evalApply. by rewrite Hhead.
  - intros fn arg pre values post h1 h2 h3 err Hhead Hpre Harg.
    rewrite Eval_apply by done. unfold evalApply. rewrite Hhead.
    by rewrite (evalArgs_first_failure _ _ _ _ _ _ _ _ _ _ Hpre Harg).
  - intros fn rest values h1 h2 Hhead Hargs Hcall. split; [|reflexivity].
    rewrite Eval_apply by done. unfold evalApply. rewrite Hhead.
    apply evalArgs_evaluated in Hargs. rewrite Hargs.
    by destruct fn.
  - intros name rest -> Hl. rewrite Eval_apply by done.
    unfold evalApply. cbn [Eval]. by rewrite Hl.
Qed.

Lemma evalApply_order_witness :
  Eval 2 (List [Symbol "foo"; Number 1; Number 2]) Examples.base.1 Examples.base.2
  = Some (Err (UndefinedVariable "foo"), Examples.base.2)
  /\ Eval 2 (List [Symbol "list"; Number 1; Symbol "zzz"; Symbol "yyy"])
       Examples.base.1 Examples.base.2
     = Some (Err (UndefinedVariable "zzz"), Examples.base.2)
  /\ Eval 2 (List [Number 1; Number 2]) Examples.base.1 Examples.base.2
     = Some (Err (NotCallable (Number 1)), Examples.base.2).
Proof.
  split; [|split].
  - apply (evalApply_order 0 (Symbol "foo") Examples.base.1 Examples.base.2 eq_refl).
    + reflexivity.
    + reflexivity.
  - pose proof (evalApply_order 1 (Symbol "list") Examples.base.1 Examples.base.2
                  eq_refl) as (_ & Harg & _).
    apply (Harg (Primitive "list" primList) (Symbol "zzz") [Number 1] [Number 1]
                [Symbol "yyy"] Examples.base.2 Examples.base.2 Examples.base.2).
    + reflexivity.
    + apply evalArgs_evaluated. reflexivity.
    + reflexivity.
  - pose proof (evalApply_order 1 (Number 1) Examples.base.1 Examples.base.2
                  eq_refl) as (_ & _ & Hnc & _).
    apply (Hnc (Number 1) [Number 2] [Number 2] Examples.base.2 Examples.base.2).
    + reflexivity.
    + apply evalArgs_evaluated. reflexivity.
    + reflexivity.
Defined.

(** C10, as the code has it: when the evaluation of [e] fails, [(define x
    e)] fails with the same error and its own binding step is not done: the
    store it leaves is the store the failed evaluation of [e] left (which
    is the store before the [define] whenever evaluating [e] changes
    nothing).  When the evaluation of [e] gives a value, the store is the
    one [e] left with [x] defined in [env]. *)
Theorem evalDefine_failure :
  forall (fuel : nat) (x : string) (e : SExpr) (env : loc) (h h1 : Store),
    (forall err : Error,
       Eval fuel e env h = Some (Err err, h1) ->
       Eval (S fuel) (List [Symbol "define"; Symbol x; e]) env h
       = Some (Err err, h1))
    /\ (forall value : SExpr,
          Eval fuel e env h = Some (Ok value, h1) ->
          Eval (S fuel) (List [Symbol "define"; Symbol x; e]) env h
          = Some (Ok value, Define env x value h1)).
Proof.
  intros fuel x e env h h1. split.
  - intros err He. rewrite Eval_List. cbn. by rewrite He.
  - intros value He. rewrite Eval_List. cbn. by rewrite He.
Qed.

Lemma evalDefine_failure_witness :
  Eval 2 (List [Symbol "define"; Symbol "x"; Symbol "zzz"]) 0 [mkEnv ∅ None]
  = Some (Err (UndefinedVariable "zzz"), [mkEnv ∅ None])
  /\ Eval 2 (List [Symbol "define"; Symbol "x"; Number 3]) 0 [mkEnv ∅ None]
     = Some (Ok (Number 3), Define 0 "x" (Number 3) [mkEnv ∅ None]).
Proof.
  split.
  - apply (evalDefine_failure 1 "x" (Symbol "zzz") 0 [mkEnv ∅ None] [mkEnv ∅ None]).
    reflexivity.
  - apply (evalDefine_failure 1 "x" (Number 3) 0 [mkEnv ∅ None] [mkEnv ∅ None]).
    reflexivity.
Defined.

(** C10 as it is worded fails on [(define x (if (define x 1) zzz 2))] in an
    empty root scope: the value expression fails, the [define] returns its
    error, and the scope, which did not bind [x], now binds it to 1. *)
Lemma evalDefine_not_atomic_counterexample :
  Eval 3 Examples.define_then_fail 0 Examples.empty_root
  = Some (Err (UndefinedVariable "zzz"), Examples.x_is_1)
  /\ Eval 4 (List [Symbol "define"; Symbol "x"; Examples.define_then_fail]) 0
       Examples.empty_root
     = Some (Err (UndefinedVariable "zzz"), Examples.x_is_1)
  /\ binding Examples.empty_root 0 "x" = None
  /\ binding Examples.x_is_1 0 "x" = Some (Number 1)
  /\ ~ (forall (err : Error) (h' : Store),
          Eval 4 (List [Symbol "define"; Symbol "x"; Examples.define_then_fail]) 0
            Examples.empty_root = Some (Err err, h') ->
          h' = Examples.empty_root).
Proof.
  split; [reflexivity|]. split; [reflexivity|].
  split; [reflexivity|]. split; [reflexivity|].
  intros H. specialize (H _ _ eq_refl). discriminate H.
Qed.

End Closures.

(** ** The stores of the evaluator *)

Section Invariant.
Import sexpr.

Lemma SExpr_nested_ind (P : SExpr -> Prop) :
  (forall n, P (Number n)) ->
  (forall s, P (Symbol s)) ->
  (forall s, P (String s)) ->
  (forall b, P (Bool b)) ->
  P Nil ->
  (forall elements, Forall P elements -> P (List elements)) ->
  (forall params body env, P body -> P (Func params body env)) ->
  (forall name fn, P (Primitive name fn)) ->
  forall v, P v.
Proof.
  intros HN HSy HSt HB HNil HL HF HP. fix IH 1.
  intros [n|s|s|b| |elements|params body env|name fn];
    [apply HN | apply HSy | apply HSt | apply HB | apply HNil |
     | apply HF, IH | apply HP].
  apply HL. induction elements as [|x elements IHl]; constructor;
    [apply IH | exact IHl].
Qed.

Lemma closed_value_List (n : nat) (elements : list SExpr) :
  closed_value n (List elements) <-> Forall (closed_value n) elements.
Proof.
  cbn [closed_value]. induction elements as [|x elements IH]; simpl.
  - split; auto.
  - rewrite IH. split.
    + intros [? ?]. by constructor.
    + intros H. by inversion H.
Qed.

Lemma closed_value_mono (n m : nat) (v : SExpr) :
  (n <= m)%nat -> closed_value n v -> closed_value m v.
Proof.
  intros Hle. induction v as [| | | | |elements IH|params body env IH|]
    using SExpr_nested_ind; try done.
  - rewrite !closed_value_List. intros H.
    induction H as [|x l Hx Hl IHl]; [constructor|].
    inversion IH; subst. constructor; auto.
  - cbn [closed_value]. intros [? ?]. split; [lia | auto].
Qed.

Lemma closed_values_mono (n m : nat) (vs : list SExpr) :
  (n <= m)%nat -> Forall (closed_value n) vs -> Forall (closed_value m) vs.
Proof.
  intros Hle H. eapply Forall_impl; [exact H|].
  intros v. by apply closed_value_mono.
Qed.

Lemma store_closed_NewEnv (h : Store) (p : option loc) :
  store_closed h ->
  (forall q, p = Some q -> (q < length h)%nat) ->
  store_closed (NewEnv p h).2.
Proof.
  intros [Hok Hval] Hp. split; [by apply NewEnv_store_ok|].
  cbn [NewEnv snd]. intros l env name v Hl Hb.
  rewrite length_app. simpl.
  destruct (decide (l < length h)%nat) as [Hlt|Hge].
  - rewrite lookup_app_l in Hl by done.
    eapply closed_value_mono; [|by eapply Hval]. lia.
  - rewrite lookup_app_r in Hl by lia.
    destruct (l - length h)%nat as [|k]; [|by destruct k].
    injection Hl as <-. cbn in Hb. by rewrite lookup_empty in Hb.
Qed.

Lemma store_closed_Define (h : Store) (e : loc) (name : string) (v : SExpr) :
  store_closed h ->
  closed_value (length h) v ->
  store_closed (Define e name v h).
Proof.
  intros [Hok Hval] Hv. split; [by apply Define_store_ok|].
  rewrite Define_length. intros l env name' v' Hl Hb.
  destruct (decide (l = e)) as [->|Hne].
  - destruct (h !! e) as [env0|] eqn:He.
    + rewrite (Define_same _ _ _ _ _ He) in Hl. injection Hl as <-.
      cbn in Hb. destruct (decide (name = name')) as [->|Hn].
      * rewrite lookup_insert_eq in Hb. by injection Hb as <-.
      * rewrite lookup_insert_ne in Hb by done. by eapply Hval.
    + unfold Define in Hl. rewrite He in Hl. congruence.
  - rewrite Define_other in Hl by done. by eapply Hval.
Qed.

Lemma store_closed_bind_params (c : loc) (params : list string) :
  forall (args : list SExpr) (h : Store),
    store_closed h ->
    Forall (closed_value (length h)) args ->
    store_closed (bind_params c params args h).
Proof.
  induction params as [|p params IH]; intros [|a args] h Hh Hargs; simpl; auto.
  inversion Hargs; subst. apply IH.
  - by apply store_closed_Define.
  - by rewrite Define_length.
Qed.

Lemma Lookup_at_closed (n : nat) :
  forall (h : Store) (e : loc) (name : string) (v : SExpr),
    store_closed h ->
    Lookup_at n h e name = Some (Ok v) ->
    closed_value (length h) v.
Proof.
  induction n as [|n IH]; intros h e name v Hh Hl; [discriminate|].
  cbn [Lookup_at] in Hl. destruct (h !! e) as [env|] eqn:He; [|discriminate].
  cbn [mbind option_bind] in Hl.
  destruct (bindings env !! name) as [w|] eqn:Hb.
  - injection Hl as <-. destruct Hh as [_ Hval]. by eapply Hval.
  - destruct (parent env) as [p|]; [by eapply IH | discriminate].
Qed.

Lemma add_loop_closed (n : nat) (args : list SExpr) (sum : Z) (v : SExpr) :
  prim.add_loop sum args = Ok v -> closed_value n v.
Proof.
  revert sum. induction args as [|[]]; simpl; intros sum H;
    try discriminate; eauto. by injection H as <-.
Qed.

Lemma sub_loop_closed (n : nat) (args : list SExpr) (acc : Z) (v : SExpr) :
  prim.sub_loop acc args = Ok v -> closed_value n v.
Proof.
  revert acc. induction args as [|[]]; simpl; intros acc H;
    try discriminate; eauto. by injection H as <-.
Qed.

Lemma mul_loop_closed (n : nat) (args : list SExpr) (acc : Z) (v : SExpr) :
  prim.mul_loop acc args = Ok v -> closed_value n v.
Proof.
  revert acc. induction args as [|[]]; simpl; intros acc H;
    try discriminate; eauto. by injection H as <-.
Qed.

Lemma div_loop_closed (n : nat) (args : list SExpr) (acc : Z) (v : SExpr) :
  prim.div_loop acc args = Ok v -> closed_value n v.
Proof.
  revert acc. induction args as [|[z| | | | | | |]]; simpl; intros acc H;
    try discriminate; [by injection H as <-|].
  destruct (z =? 0)%Z; [discriminate | eauto].
Qed.

Lemma compare_closed (n : nat) (op : string) (test : Z -> Z -> bool)
    (args : list SExpr) (env : loc) (v : SExpr) :
  prim.compare op test args env = Ok v -> closed_value n v.
Proof.
  unfold prim.compare. destruct args as [|[] [|[] [|]]]; intros H;
    try discriminate; by injection H as <-.
Qed.

Lemma predicate_closed (n : nat) (op : string) (test : SExpr -> bool)
    (args : list SExpr) (env : loc) (v : SExpr) :
  prim.predicate op test args env = Ok v -> closed_value n v.
Proof.
  unfold prim.predicate. destruct args as [|a [|]]; intros H;
    try discriminate; by injection H as <-.
Qed.

(** A primitive returns no pointer that its arguments do not hold. *)
Lemma call_closed (n : nat) (fn : PrimFn) (args : list SExpr) (env : loc)
    (v : SExpr) :
  Forall (closed_value n) args ->
  call fn args env = Ok v ->
  closed_value n v.
Proof.
  intros Hargs. destruct fn; cbn [call];
    eauto using compare_closed, predicate_closed.
  - unfold prim.Add. destruct args; intros H;
      [by injection H as <- | by eapply add_loop_closed].
  - unfold prim.Sub. destruct args as [|[] [|]]; intros H; try discriminate;
      [by injection H as <- | by eapply sub_loop_closed].
  - unfold prim.Mul. destruct args; intros H;
      [by injection H as <- | by eapply mul_loop_closed].
  - unfold prim.Div. destruct args as [|[z| | | | | | |] [|]]; intros H;
      try discriminate; [|by eapply div_loop_closed].
    destruct (z =? 0)%Z; [discriminate | by injection H as <-].
  - intros [= <-]. by apply closed_value_List.
  - unfold prim.Car. destruct args as [|[| | | | |[|x l]| |] [|]]; intros H;
      try discriminate. injection H as <-.
    inversion Hargs as [|? ? Hl _]; subst.
    apply closed_value_List in Hl. by inversion Hl.
  - unfold prim.Cdr. destruct args as [|[| | | | |[|x l]| |] [|]]; intros H;
      try discriminate. injection H as <-.
    inversion Hargs as [|? ? Hl _]; subst.
    apply closed_value_List in Hl. apply closed_value_List. by inversion Hl.
  - unfold prim.Cons. destruct args as [|a [|[| | | | |l| |] [|]]]; intros H;
      try discriminate. injection H as <-.
    inversion Hargs as [|? ? Ha Hrest]; subst.
    inversion Hrest as [|? ? Hl _]; subst.
    apply closed_value_List in Hl. apply closed_value_List. by constructor.
Qed.

Section Step.

Variable ev : SExpr -> loc -> Store -> Outcome SExpr.
Hypothesis ev_closed : keeps_closed ev.

Lemma evalArgs_closed (elements : list SExpr) :
  forall (env : loc) (h h' : Store) (r : Res (list SExpr)),
    store_closed h ->
    Forall (closed_value (length h)) elements ->
    (env < length h)%nat ->
    evalArgs ev elements env h = Some (r, h') ->
    store_closed h'
    /\ (length h <= length h')%nat
    /\ forall vs, r = Ok vs -> Forall (closed_value (length h')) vs.
Proof.
  induction elements as [|arg rest IH]; intros env h h' r Hh Hel Henv; simpl.
  - intros [= <- <-]. split; [done|]. split; [lia|]. by intros vs [= <-].
  - inversion Hel as [|? ? Harg Hrest]; subst.
    destruct (ev arg env h) as [[[value|err] h1]|] eqn:E; [| |discriminate].
    + destruct (ev_closed _ _ _ _ _ Hh Harg Henv E) as (Hh1 & Hle1 & Hv).
      specialize (Hv _ eq_refl).
      destruct (evalArgs ev rest env h1) as [[[vs|err] h2]|] eqn:E2;
        [| |discriminate].
      * destruct (IH env h1 h2 (Ok vs) Hh1) as (Hh2 & Hle2 & Hvs); try done.
        { by eapply closed_values_mono. } { lia. }
        intros [= <- <-]. split; [done|]. split; [lia|].
        intros ws [= <-]. constructor; [|by apply Hvs].
        by eapply closed_value_mono.
      * destruct (IH env h1 h2 (Err err) Hh1) as (Hh2 & Hle2 & _); try done.
        { by eapply closed_values_mono. } { lia. }
        intros [= <- <-]. split; [done|]. split; [lia|]. by intros ws [=].
    + destruct (ev_closed _ _ _ _ _ Hh Harg Henv E) as (Hh1 & Hle1 & _).
      intros [= <- <-]. split; [done|]. split; [done|]. by intros ws [=].
Qed.

Lemma applyFunc_closed (params : list string) (body : SExpr) (fnEnv : loc)
    (args : list SExpr) (h h' : Store) (r : Res SExpr) :
  store_closed h ->
  closed_value (length h) (Func params body fnEnv) ->
  Forall (closed_value (length h)) args ->
  applyFunc ev params body fnEnv args h = Some (r, h') ->
  store_closed h'
  /\ (length h <= length h')%nat
  /\ forall v, r = Ok v -> closed_value (length h') v.
Proof.
  intros Hh [Hfn Hbody] Hargs. unfold applyFunc.
  destruct (negb _).
  - intros [= <- <-]. split; [done|]. split; [done|]. by intros v [=].
  - cbn [Extend]. intros E.
    pose proof (store_closed_NewEnv h (Some fnEnv) Hh) as Hnew.
    cbn [NewEnv fst snd] in *.
    assert (Hlen : length (h ++ [mkEnv ∅ (Some fnEnv)]) = S (length h)).
    { rewrite length_app. simpl. lia. }
    eapply ev_closed in E.
    + destruct E as (Hh' & Hle & Hv). rewrite bind_params_length, Hlen in Hle.
      split; [done|]. split; [lia | done].
    + apply store_closed_bind_params.
      * apply Hnew. by intros q [= <-].
      * rewrite Hlen. eapply closed_values_mono; [|done]. lia.
    + rewrite bind_params_length, Hlen.
      eapply closed_value_mono; [|done]. lia.
    + rewrite bind_params_length, Hlen. lia.
Qed.

Lemma evalList_closed (elements : list SExpr) (env : loc) (h h' : Store)
    (r : Res SExpr) :
  store_closed h ->
  Forall (closed_value (length h)) elements ->
  (env < length h)%nat ->
  evalList ev elements env h = Some (r, h') ->
  store_closed h'
  /\ (length h <= length h')%nat
  /\ forall v, r = Ok v -> closed_value (length h') v.
Proof.
  intros Hh Hel Henv.
  assert (Hdone : forall (err : Error),
            Some (Err err, h) = Some (r, h') ->
            store_closed h' /\ (length h <= length h')%nat
            /\ forall v, r = Ok v -> closed_value (length h') v).
  { intros err [= <- <-]. split; [done|]. split; [done|]. by intros v [=]. }
  assert (Happly : evalApply ev elements env h = Some (r, h') ->
            store_closed h' /\ (length h <= length h')%nat
            /\ forall v, r = Ok v -> closed_value (length h') v).
  { unfold evalApply. destruct elements as [|head rest]; [discriminate|].
    inversion Hel as [|? ? Hhead Hrest]; subst.
    destruct (ev head env h) as [[[fn|err] h1]|] eqn:E; [| |discriminate].
    - destruct (ev_closed _ _ _ _ _ Hh Hhead Henv E) as (Hh1 & Hle1 & Hfn).
      specialize (Hfn _ eq_refl).
      destruct (evalArgs ev rest env h1) as [[[args|err] h2]|] eqn:E2;
        [| |discriminate].
      + destruct (evalArgs_closed rest env h1 h2 (Ok args) Hh1)
          as (Hh2 & Hle2 & Hargs); try done.
        { by eapply closed_values_mono. } { lia. }
        specialize (Hargs _ eq_refl).
        assert (Hfn2 : closed_value (length h2) fn)
          by (by eapply closed_value_mono).
        assert (Hother : Some (Err (NotCallable fn), h2) = Some (r, h') ->
                  store_closed h' /\ (length h <= length h')%nat
                  /\ forall v, r = Ok v -> closed_value (length h') v).
        { intros [= <- <-]. split; [done|]. split; [lia|]. by intros v [=]. }
        destruct fn as [| | | | | |params body fnEnv|name f]; try exact Hother.
        * intros Hcall.
          destruct (applyFunc_closed _ _ _ _ _ _ _ Hh2 Hfn2 Hargs Hcall)
            as (? & ? & ?).
          split; [done|]. split; [lia | done].
        * intros [= <- <-]. split; [done|]. split; [lia|].
          intros v Hv. by eapply call_closed.
      + destruct (evalArgs_closed rest env h1 h2 (Err err) Hh1)
          as (Hh2 & Hle2 & _); try done.
        { by eapply closed_values_mono. } { lia. }
        intros [= <- <-]. split; [done|]. split; [lia|]. by intros v [=].
    - destruct (ev_closed _ _ _ _ _ Hh Hhead Henv E) as (Hh1 & Hle1 & _).
      intros [= <- <-]. split; [done|]. split; [done|]. by intros v [=]. }
  unfold evalList. destruct elements as [|first rest].
  { intros [= <- <-]. split; [done|]. split; [done|]. by intros v [= <-]. }
  destruct first as [|name| | | | | |]; try exact Happly.
  repeat case_decide; try exact Happly.
  - (* define *)
    unfold evalDefine.
    destruct rest as [|target [|expr [|]]]; try exact (Hdone _).
    destruct target as [|x| | | | | |]; try exact (Hdone _).
    assert (Hexpr : closed_value (length h) expr).
    { inversion Hel as [|? ? _ Hl1]; inversion Hl1 as [|? ? _ Hl2];
        by inversion Hl2. }
    destruct (ev expr env h) as [[[value|err] h1]|] eqn:E; [| |discriminate].
    + destruct (ev_closed _ _ _ _ _ Hh Hexpr Henv E) as (Hh1 & Hle1 & Hv).
      specialize (Hv _ eq_refl).
      intros [= <- <-]. rewrite Define_length.
      split; [by apply store_closed_Define|]. split; [done|]. by intros v [= <-].
    + destruct (ev_closed _ _ _ _ _ Hh Hexpr Henv E) as (Hh1 & Hle1 & _).
      intros [= <- <-]. split; [done|]. split; [done|]. by intros v [=].
  - (* lambda *)
    unfold evalLambda.
    destruct rest as [|paramsList [|body [|]]]; try exact (Hdone _).
    destruct paramsList as [| | | | |ps| |]; try exact (Hdone _).
    destruct (lambda_params ps) as [params|err]; [|exact (Hdone _)].
    intros [= <- <-]. split; [done|]. split; [done|].
    intros v [= <-]. split; [done|].
    inversion Hel as [|? ? _ Hl1]; inversion Hl1 as [|? ? _ Hl2]; by inversion Hl2.
  - (* if *)
    unfold evalIf.
    destruct rest as [|test [|thenE [|elseE [|]]]]; try exact (Hdone _).
    assert (Hsub : closed_value (length h) test
                   /\ closed_value (length h) thenE
                   /\ closed_value (length h) elseE).
    { inversion Hel as [|? ? _ Hl1]; inversion Hl1 as [|? ? Ht Hl2];
        inversion Hl2 as [|? ? Hth Hl3]; by inversion Hl3. }
    destruct Hsub as (Htest & Hthen & Helse).
    destruct (ev test env h) as [[[value|err] h1]|] eqn:E; [| |discriminate].
    + destruct (ev_closed _ _ _ _ _ Hh Htest Henv E) as (Hh1 & Hle1 & _).
      intros Hbranch.
      assert (Hb : exists branch, closed_value (length h) branch
                     /\ ev branch env h1 = Some (r, h')).
      { destruct (isTruthy value); eauto. }
      destruct Hb as (branch & Hcl & Hev).
      eapply ev_closed in Hev; [|done| |lia].
      * destruct Hev as (? & ? & ?). split; [done|]. split; [lia | done].
      * by eapply closed_value_mono.
    + destruct (ev_closed _ _ _ _ _ Hh Htest Henv E) as (Hh1 & Hle1 & _).
      intros [= <- <-]. split; [done|]. split; [done|]. by intros v [=].
  - (* quote *)
    unfold evalQuote.
    destruct rest as [|expr [|]]; try exact (Hdone _).
    intros [= <- <-]. split; [done|]. split; [done|].
    intros v [= <-]. inversion Hel as [|? ? _ Hl1]; by inversion Hl1.
Qed.

End Step.

(** The evaluator keeps the stores closed: the hypotheses made on stores
    above hold of every store an evaluation reaches from one that satisfies
    them. *)
Lemma Eval_closed (fuel : nat) : keeps_closed (Eval fuel).
Proof.
  induction fuel as [|fuel IH]; intros expr env h r h' Hh Hexpr Henv;
    [discriminate|].
  cbn [Eval].
  destruct expr as [n|name|s|b| |elements|params body fnEnv|name fn];
    try (intros [= <- <-]; split; [done|]; split; [done|];
         by intros v [= <-]).
  - unfold Lookup. destruct (Lookup_at (length h) h env name) as [res|] eqn:E;
      [|discriminate].
    intros [= <- <-]. split; [done|]. split; [done|].
    intros v ->. by eapply Lookup_at_closed.
  - apply closed_value_List in Hexpr. by apply evalList_closed.
Qed.

Lemma base_closed : store_closed Examples.base.2.
Proof.
  unfold Examples.base. cbn [NewEnv fst snd].
  assert (Hfold : forall (l : list (string * PrimFn)) (h : Store),
            store_closed h ->
            store_closed
              (foldl (fun h '(name, fn) => Define 0 name (makePrimitive name fn) h)
                 h l)).
  { induction l as [|[name fn] l IHl]; intros h Hh; simpl; [done|].
    apply IHl. by apply store_closed_Define. }
  apply Hfold. apply (store_closed_NewEnv [] None); [|done].
  split; [intros l env p Hl; by destruct l | intros l env name v Hl; by destruct l].
Qed.

End Invariant.

(** ** More on environments *)

Section MoreEnvironments.
Import sexpr.

Lemma Lookup_at_Define_ne (n : nat) :
  forall (h : Store) (e e' : loc) (name name' : string) (v : SExpr),
    name' <> name ->
    Lookup_at n (Define e name v h) e' name' = Lookup_at n h e' name'.
Proof.
  induction n as [|n IH]; intros h e e' name name' v Hne; [reflexivity|].
  cbn [Lookup_at].
  destruct (decide (e' = e)) as [->|Hl].
  - destruct (h !! e) as [env|] eqn:He.
    + rewrite (Define_same _ _ _ _ _ He). cbn [mbind option_bind bindings parent].
      rewrite lookup_insert_ne by done.
      destruct (bindings env !! name'); [done|].
      destruct (parent env); [by apply IH | done].
    + replace (Define e name v h) with h by (unfold Define; by rewrite He).
      by rewrite He.
  - rewrite Define_other by done.
    destruct (h !! e') as [env|]; [|done]. cbn [mbind option_bind].
    destruct (bindings env !! name'); [done|].
    destruct (parent env); [by apply IH | done].
Qed.

(** X1: after [e.Define(name, v)] on an allocated scope, [e.Lookup(name)]
    gives [v]; a second [Define] of the same name replaces the first; and a
    [Define] of one name changes no lookup of another name, from any
    scope. *)
Theorem Define_then_Lookup :
  forall (h : Store) (e : loc) (name : string) (v : SExpr),
    (e < length h)%nat ->
    Lookup (Define e name v h) e name = Some (Ok v)
    /\ (forall v', Define e name v' (Define e name v h) = Define e name v' h)
    /\ (forall e' name', name' <> name ->
          Lookup (Define e name v h) e' name' = Lookup h e' name').
Proof.
  intros h e name v He. split; [|split].
  - unfold Lookup. rewrite Define_length.
    apply Lookup_at_here; [lia|]. by apply binding_Define_eq.
  - intros v'. destruct (lookup_lt_is_Some_2 h e He) as [env Henv].
    unfold Define at 1. rewrite (Define_same _ _ _ _ _ Henv).
    unfold Define. rewrite Henv. cbn [bindings parent].
    by rewrite list_insert_insert_eq, insert_insert_eq.
  - intros e' name' Hne. unfold Lookup. rewrite Define_length.
    by apply Lookup_at_Define_ne.
Qed.

Lemma Define_then_Lookup_witness :
  Lookup (Define 0 "x" (Number 42) Examples.empty_root) 0 "x"
  = Some (Ok (Number 42)).
Proof.
  apply (Define_then_Lookup Examples.empty_root 0 "x" (Number 42)).
  simpl. lia.
Defined.

(** X2: a scope made by [p.Extend()] sees what [p] sees: every lookup from
    it gives what the lookup from [p] gives; and what is then defined in the
    child is not seen from [p]: every lookup from [p], failing ones
    included, gives what it gave. *)
Theorem Extend_inherits :
  forall (h : Store) (p : loc) (name : string) (r : Res SExpr),
    Lookup h p name = Some r ->
    Lookup (Extend p h).2 (Extend p h).1 name = Some r
    /\ (forall (y : string) (v : SExpr),
          Lookup (Define (Extend p h).1 y v (Extend p h).2) p name = Some r).
Proof.
  intros h p name r Hp.
  pose proof (Lookup_allocated _ _ _ _ Hp) as Hlt.
  cbn [Extend NewEnv fst snd].
  assert (Hc : (h ++ [mkEnv ∅ (Some p)]) !! length h = Some (mkEnv ∅ (Some p))).
  { rewrite lookup_app_r by lia. by rewrite Nat.sub_diag. }
  assert (Hlen : length (h ++ [mkEnv ∅ (Some p)]) = S (length h)).
  { rewrite length_app. simpl. lia. }
  split.
  - unfold Lookup in *. rewrite Hlen.
    rewrite (Lookup_at_parent _ _ _ p).
    + eapply Lookup_at_stable; [exact Hp | | lia].
      intros l env Hl. by rewrite lookup_app_l by (by eapply lookup_lt_Some).
    + unfold binding. by rewrite Hc.
    + by rewrite Hc.
  - intros y v. unfold Lookup in *. rewrite Define_length, Hlen.
    eapply Lookup_at_stable; [exact Hp | | lia].
    intros l env Hl. pose proof (lookup_lt_Some _ _ _ Hl).
    rewrite Define_other by lia. by rewrite lookup_app_l.
Qed.

Lemma Extend_inherits_witness :
  Lookup (Extend 0 Examples.x_is_1).2 (Extend 0 Examples.x_is_1).1 "x"
  = Some (Ok (Number 1))
  /\ Lookup (Define (Extend 0 Examples.x_is_1).1 "y" (Number 17)
              (Extend 0 Examples.x_is_1).2) 0 "y"
     = Some (Err (UndefinedVariable "y")).
Proof.
  split.
  - apply (Extend_inherits Examples.x_is_1 0 "x" (Ok (Number 1))). reflexivity.
  - apply (Extend_inherits Examples.x_is_1 0 "y" (Err (UndefinedVariable "y"))).
    reflexivity.
Defined.

Lemma scope_chain_Define (n : nat) :
  forall (h : Store) (l e : loc) (name : string) (v : SExpr),
    scope_chain n (Define l name v h) e = scope_chain n h e.
Proof.
  induction n as [|n IH]; intros h l e name v; [reflexivity|].
  cbn [scope_chain].
  pose proof (parent_Define l e name v h) as Hpar.
  destruct (Define l name v h !! e) as [env'|], (h !! e) as [env|];
    try discriminate; [|done].
  cbn [mbind option_bind]. injection Hpar as ->.
  destruct (parent env); [by rewrite IH | done].
Qed.

Lemma Lookup_chain (h : Store) (e : loc) (name : string) (chain : list loc) :
  scope_chain (length h) h e = Some chain ->
  Lookup h e name = Some (chain_lookup h name chain).
Proof. apply Lookup_at_chain. Qed.

Lemma chain_lookup_Define (h : Store) (l : loc) (name : string) (v : SExpr)
    (chain : list loc) :
  is_Some (binding h l name) ->
  chain_lookup (Define l name v h) name chain
  = if decide (first_binding h name chain = Some l) then Ok v
    else chain_lookup h name chain.
Proof.
  intros Hl.
  assert (Hlt : (l < length h)%nat).
  { destruct Hl as [w Hw]. unfold binding in Hw.
    destruct (h !! l) eqn:E; [|discriminate]. by eapply lookup_lt_Some. }
  induction chain as [|l0 chain IH]; cbn [chain_lookup first_binding].
  - by case_decide.
  - destruct (decide (l0 = l)) as [->|Hne].
    + rewrite binding_Define_eq by done. destruct Hl as [w ->].
      by rewrite decide_True.
    + rewrite binding_Define_other by done.
      destruct (binding h l0 name) as [w|]; [|exact IH].
      rewrite decide_False; [done | by intros [= ->]].
Qed.

Lemma chain_lookup_first (h : Store) (name : string) (chain : list loc) :
  (exists w, chain_lookup h name chain = Ok w)
  <-> exists l, first_binding h name chain = Some l.
Proof.
  induction chain as [|l0 chain IH]; cbn [chain_lookup first_binding].
  - split; intros [? ?]; discriminate.
  - destruct (binding h l0 name); [|exact IH]. split; eauto.
Qed.

(** X3: when [e.Set(name, v)] succeeds, in a store whose parent pointers
    point to older records, the store it leaves is the old one with [name]
    redefined in one scope [l] that bound it, and then: the lookup of
    [name] from [e] gives [v]; so does the lookup from every scope whose
    nearest binding of [name] was in [l] (the scopes that share it), while
    from every other scope the lookup of [name] gives what it gave; and
    no lookup of another name changes.  [Set] succeeds exactly when
    [Lookup] of the name from the same scope does. *)
Theorem Set_then_Lookup :
  forall (h : Store) (e : loc) (name : string) (v : SExpr),
    store_ok h ->
    (e < length h)%nat ->
    (forall h', Set_ h e name v = Some (Ok tt, h') ->
       exists l,
         h' = Define l name v h
         /\ is_Some (binding h l name)
         /\ Lookup h' e name = Some (Ok v)
         /\ (forall e2 chain2,
               scope_chain (length h) h e2 = Some chain2 ->
               Lookup h' e2 name
               = Some (if decide (first_binding h name chain2 = Some l) then Ok v
                       else chain_lookup h name chain2))
         /\ (forall e2 name', name' <> name ->
               Lookup h' e2 name' = Lookup h e2 name'))
    /\ ((exists h', Set_ h e name v = Some (Ok tt, h'))
        <-> exists old, Lookup h e name = Some (Ok old)).
Proof.
  intros h e name v Hok He.
  destruct (scope_chain_total h Hok e He (length h) He) as [chain Hc].
  pose proof (Set_at_chain _ h e name v chain Hc) as Hset.
  fold (Set_ h e name v) in Hset.
  pose proof (Lookup_chain h e name chain Hc) as Hlook.
  split.
  - intros h' Hs. rewrite Hs in Hset.
    destruct (first_binding h name chain) as [l|] eqn:Hf; [|discriminate].
    injection Hset as ->. exists l.
    destruct (first_binding_Some _ _ _ _ Hf) as (_ & _ & _ & _ & Hb).
    assert (Hall : forall e2 chain2,
              scope_chain (length h) h e2 = Some chain2 ->
              Lookup (Define l name v h) e2 name
              = Some (if decide (first_binding h name chain2 = Some l) then Ok v
                      else chain_lookup h name chain2)).
    { intros e2 chain2 Hc2. unfold Lookup. rewrite Define_length.
      rewrite (Lookup_at_chain _ _ _ _ chain2) by (by rewrite scope_chain_Define).
      by rewrite chain_lookup_Define. }
    split; [done|]. split; [done|]. split; [|split; [exact Hall|]].
    + rewrite (Hall e chain Hc). by rewrite decide_True.
    + intros e2 name' Hne. unfold Lookup. rewrite Define_length.
      by apply Lookup_at_Define_ne.
  - rewrite Hlook. split.
    + intros [h' Hs]. rewrite Hs in Hset.
      destruct (first_binding h name chain) as [l|] eqn:Hf; [|discriminate].
      destruct (proj2 (chain_lookup_first h name chain)) as [w Hw]; [by eexists|].
      exists w. by rewrite Hw.
    + intros [old Hold]. injection Hold as Hold.
      destruct (proj1 (chain_lookup_first h name chain)) as [l Hl]; [by eexists|].
      rewrite Hl in Hset. eauto.
Qed.

Lemma Set_then_Lookup_witness :
  (exists h', Set_ Examples.two_scopes 1 "x" (Number 7) = Some (Ok tt, h'))
  /\ forall h', Set_ Examples.two_scopes 1 "x" (Number 7) = Some (Ok tt, h') ->
       Lookup h' 0 "x" = Some (Ok (Number 7)).
Proof.
  assert (Hlt : (1 < length Examples.two_scopes)%nat) by (simpl; lia).
  destruct (Set_then_Lookup Examples.two_scopes 1 "x" (Number 7) two_scopes_ok Hlt)
    as [Hafter Hiff].
  split.
  - apply Hiff. exists (Number 42). reflexivity.
  - intros h' Hs. destruct (Hafter h' Hs) as (l & -> & Hb & _ & Hshare & _).
    assert (Hl : l = 0%nat).
    { destruct l as [|[|l]]; [done| |]; destruct Hb as [w Hw]; discriminate Hw. }
    subst l. rewrite (Hshare 0%nat [0%nat] eq_refl). reflexivity.
Defined.

End MoreEnvironments.

(** ** More on the primitives *)

Section MorePrimitives.
Import sexpr.

Lemma wrap64_mod (z : Z) : (wrap64 z mod 2 ^ 64 = z mod 2 ^ 64)%Z.
Proof.
  unfold wrap64.
  rewrite Zminus_mod, Zmod_mod, <- Zminus_mod.
  f_equal. lia.
Qed.

Lemma wrap64_congr (a b : Z) :
  (a mod 2 ^ 64 = b mod 2 ^ 64)%Z -> wrap64 a = wrap64 b.
Proof.
  intros H. unfold wrap64.
  rewrite (Zplus_mod a), (Zplus_mod b), H. reflexivity.
Qed.

Lemma wrap64_add_l (a b : Z) : wrap64 (wrap64 a + b) = wrap64 (a + b).
Proof.
  apply wrap64_congr. rewrite Zplus_mod, wrap64_mod, <- Zplus_mod. reflexivity.
Qed.

Lemma wrap64_sub_l (a b : Z) : wrap64 (wrap64 a - b) = wrap64 (a - b).
Proof.
  apply wrap64_congr. rewrite Zminus_mod, wrap64_mod, <- Zminus_mod. reflexivity.
Qed.

Lemma wrap64_mul_l (a b : Z) : wrap64 (wrap64 a * b) = wrap64 (a * b).
Proof.
  apply wrap64_congr. rewrite Zmult_mod, wrap64_mod, <- Zmult_mod. reflexivity.
Qed.

Lemma add_loop_sum (zs : list Z) (sum : Z) :
  prim.add_loop sum (Number <$> zs)
  = Ok (Number (match zs with
                | [] => sum
                | _ => wrap64 (sum + foldr Z.add 0%Z zs)
                end)).
Proof.
  revert sum. induction zs as [|z zs IH]; intros sum; [reflexivity|].
  cbn [fmap list_fmap prim.add_loop foldr]. rewrite IH.
  destruct zs as [|z' zs]; cbn [foldr].
  - by rewrite Z.add_0_r.
  - rewrite wrap64_add_l. do 3 f_equal. lia.
Qed.

Lemma sub_loop_sum (zs : list Z) (acc : Z) :
  prim.sub_loop acc (Number <$> zs)
  = Ok (Number (match zs with
                | [] => acc
                | _ => wrap64 (acc - foldr Z.add 0%Z zs)
                end)).
Proof.
  revert acc. induction zs as [|z zs IH]; intros acc; [reflexivity|].
  cbn [fmap list_fmap prim.sub_loop foldr]. rewrite IH.
  destruct zs as [|z' zs]; cbn [foldr].
  - by rewrite Z.add_0_r.
  - rewrite wrap64_sub_l. do 3 f_equal. lia.
Qed.

Lemma mul_loop_product (zs : list Z) (acc : Z) :
  prim.mul_loop acc (Number <$> zs)
  = Ok (Number (match zs with
                | [] => acc
                | _ => wrap64 (acc * foldr Z.mul 1%Z zs)
                end)).
Proof.
  revert acc. induction zs as [|z zs IH]; intros acc; [reflexivity|].
  cbn [fmap list_fmap prim.mul_loop foldr]. rewrite IH.
  destruct zs as [|z' zs]; cbn [foldr].
  - by rewrite Z.mul_1_r.
  - rewrite wrap64_mul_l. do 3 f_equal. ring.
Qed.

(** X4: on numbers, [+] returns their sum and [*] their product, reduced
    to int64 (0 and 1 for no operand); [-] with two operands or more
    returns the first minus the sum of the others, reduced to int64, and
    with one operand its negation.  The result is always in the int64
    range, and it is the exact sum when that is in the range. *)
Theorem arithmetic_on_numbers :
  forall (zs : list Z) (a z : Z) (env : loc),
    call primAdd (Number <$> zs) env
    = Ok (Number (wrap64 (foldr Z.add 0%Z zs)))
    /\ call primMul (Number <$> zs) env
       = Ok (Number (wrap64 (foldr Z.mul 1%Z zs)))
    /\ call primSub (Number a :: Number z :: (Number <$> zs)) env
       = Ok (Number (wrap64 (a - (z + foldr Z.add 0%Z zs))))
    /\ call primSub [Number a] env = Ok (Number (wrap64 (- a)))
    /\ int64 (wrap64 (foldr Z.add 0%Z zs))
    /\ (int64 (foldr Z.add 0%Z zs) ->
        call primAdd (Number <$> zs) env = Ok (Number (foldr Z.add 0%Z zs))).
Proof.
  intros zs a z env.
  assert (Hadd : call primAdd (Number <$> zs) env
                 = Ok (Number (wrap64 (foldr Z.add 0%Z zs)))).
  { cbn [call]. unfold prim.Add. destruct zs as [|z0 zs]; [reflexivity|].
    exact (add_loop_sum (z0 :: zs) 0). }
  split; [exact Hadd|]. split; [|split; [|split; [|split]]].
  - cbn [call]. unfold prim.Mul. destruct zs as [|z0 zs]; [reflexivity|].
    rewrite <- (Z.mul_1_l (foldr Z.mul 1%Z (z0 :: zs))).
    exact (mul_loop_product (z0 :: zs) 1).
  - exact (sub_loop_sum (z :: zs) a).
  - reflexivity.
  - apply wrap64_range.
  - intros Hr. by rewrite Hadd, wrap64_id.
Qed.

Lemma arithmetic_on_numbers_witness :
  call primAdd (Number <$> [1; 2; 3; 4]%Z) 0%nat = Ok (Number 10)
  /\ call primAdd (Number <$> [2 ^ 62; 2 ^ 62]%Z) 0%nat = Ok (Number (- 2 ^ 63)).
Proof.
  pose proof (arithmetic_on_numbers [1; 2; 3; 4]%Z 0 0 0%nat)
    as (_ & _ & _ & _ & _ & Hexact).
  pose proof (arithmetic_on_numbers [2 ^ 62; 2 ^ 62]%Z 0 0 0%nat) as (Hadd & _).
  split.
  - apply Hexact. unfold int64. simpl. lia.
  - exact Hadd.
Defined.

Lemma add_loop_type_error (pre : list Z) (a : SExpr) (post : list SExpr) :
  prim.is_number a = false ->
  forall acc, prim.add_loop acc ((Number <$> pre) ++ a :: post)
              = Err (ExpectedNumber "+" a).
Proof.
  intros Ha. induction pre as [|z pre IH]; intros acc; simpl;
    [by destruct a | apply IH].
Qed.

Lemma mul_loop_type_error (pre : list Z) (a : SExpr) (post : list SExpr) :
  prim.is_number a = false ->
  forall acc, prim.mul_loop acc ((Number <$> pre) ++ a :: post)
              = Err (ExpectedNumber "*" a).
Proof.
  intros Ha. induction pre as [|z pre IH]; intros acc; simpl;
    [by destruct a | apply IH].
Qed.

Lemma sub_loop_type_error (pre : list Z) (a : SExpr) (post : list SExpr) :
  prim.is_number a = false ->
  forall acc, prim.sub_loop acc ((Number <$> pre) ++ a :: post)
              = Err (ExpectedNumber "-" a).
Proof.
  intros Ha. induction pre as [|z pre IH]; intros acc; simpl;
    [by destruct a | apply IH].
Qed.

(** X5: [+], [*] and [-] fail on the first operand that is not a number,
    with the type error that carries the operator and that operand,
    whatever the operands after it are. *)
Theorem arithmetic_type_error :
  forall (pre : list Z) (a : SExpr) (post : list SExpr) (env : loc),
    prim.is_number a = false ->
    call primAdd ((Number <$> pre) ++ a :: post) env = Err (ExpectedNumber "+" a)
    /\ call primMul ((Number <$> pre) ++ a :: post) env = Err (ExpectedNumber "*" a)
    /\ call primSub ((Number <$> pre) ++ a :: post) env = Err (ExpectedNumber "-" a)
    /\ error_kind (ExpectedNumber "+" a) = KTypeError.
Proof.
  intros pre a post env Ha.
  pose proof (add_loop_type_error pre a post Ha) as Hadd.
  pose proof (mul_loop_type_error pre a post Ha) as Hmul.
  split; [|split; [|split; [|reflexivity]]]; cbn [call].
  - unfold prim.Add. destruct pre; simpl; [by destruct a | apply Hadd].
  - unfold prim.Mul. destruct pre; simpl; [by destruct a | apply Hmul].
  - unfold prim.Sub. destruct pre as [|z pre]; [simpl; by destruct a|].
    change ((Number <$> z :: pre) ++ a :: post)
      with (Number z :: ((Number <$> pre) ++ a :: post)).
    pose proof (sub_loop_type_error pre a post Ha z) as Hrest.
    destruct ((Number <$> pre) ++ a :: post) as [|a1 rest] eqn:E;
      [by destruct pre | exact Hrest].
Qed.

Lemma arithmetic_type_error_witness :
  call primAdd [Number 1; String "a"; Nil] 0%nat
  = Err (ExpectedNumber "+" (String "a")).
Proof.
  apply (arithmetic_type_error [1%Z] (String "a") [Nil] 0%nat). reflexivity.
Defined.

(** X6: on two numbers the five comparisons return booleans that agree
    with one another: exactly one of [<], [=], [>] is true, [<=] is the
    negation of [>], [>=] the negation of [<], and [>] is [<] with the
    operands exchanged.  With a number of operands other than two, each
    fails with the arity error that carries the operator and the count. *)
Theorem comparisons_agree :
  forall (x y : Z) (env : loc),
    (exists lt eq gt : bool,
       call primLt [Number x; Number y] env = Ok (Bool lt)
       /\ call primEq [Number x; Number y] env = Ok (Bool eq)
       /\ call primGt [Number x; Number y] env = Ok (Bool gt)
       /\ ((lt = true /\ eq = false /\ gt = false)
           \/ (lt = false /\ eq = true /\ gt = false)
           \/ (lt = false /\ eq = false /\ gt = true))
       /\ call primLte [Number x; Number y] env = Ok (Bool (negb gt))
       /\ call primGte [Number x; Number y] env = Ok (Bool (negb lt))
       /\ call primGt [Number y; Number x] env = Ok (Bool lt))
    /\ (forall args : list SExpr,
          length args <> 2%nat ->
          call primEq args env = Err (PrimArity "=" 2 (length args))
          /\ call primLt args env = Err (PrimArity "<" 2 (length args))
          /\ call primGt args env = Err (PrimArity ">" 2 (length args))
          /\ call primLte args env = Err (PrimArity "<=" 2 (length args))
          /\ call primGte args env = Err (PrimArity ">=" 2 (length args))).
Proof.
  intros x y env. split.
  - exists (x <? y)%Z, (x =? y)%Z, (x >? y)%Z. cbn [call prim.compare].
    split; [done|]. split; [done|]. split; [done|]. split.
    { destruct (Z.compare_spec x y) as [->|Hlt|Hgt].
      - right; left. rewrite Z.ltb_irrefl, Z.eqb_refl, Z.gtb_ltb, Z.ltb_irrefl. done.
      - left. rewrite Z.gtb_ltb.
        rewrite (proj2 (Z.ltb_lt x y)), (proj2 (Z.eqb_neq x y)),
          (proj2 (Z.ltb_ge y x)); [done | lia | lia | lia].
      - right; right. rewrite Z.gtb_ltb.
        rewrite (proj2 (Z.ltb_ge x y)), (proj2 (Z.eqb_neq x y)),
          (proj2 (Z.ltb_lt y x)); [done | lia | lia | lia]. }
    split; [|split].
    + do 2 f_equal. rewrite Z.gtb_ltb, Z.leb_antisym. done.
    + do 2 f_equal. rewrite Z.geb_leb, Z.ltb_antisym. by rewrite negb_involutive.
    + do 2 f_equal. apply Z.gtb_ltb.
  - intros args Hlen. cbn [call]. unfold prim.compare.
    destruct args as [|a [|b [|c args]]]; simpl in *; try done; lia.
Qed.

Lemma comparisons_agree_witness :
  call primEq [Number 1] 0%nat = Err (PrimArity "=" 2 1).
Proof.
  destruct (comparisons_agree 0 0 0%nat) as [_ Harity].
  apply (Harity [Number 1]). simpl. lia.
Defined.

(** X7: the list primitives undo one another: the [car] of [(cons a l)] is
    [a] and its [cdr] is [l]; [cons] of the [car] and the [cdr] of a list
    that is not empty is that list; what [cons] returns is never the empty
    list; and [list] of the operands is the list of them. *)
Theorem list_primitives_compose :
  forall (a : SExpr) (l : list SExpr) (env : loc),
    call primCons [a; List l] env = Ok (List (a :: l))
    /\ call primCar [List (a :: l)] env = Ok a
    /\ call primCdr [List (a :: l)] env = Ok (List l)
    /\ call primIsNull [List (a :: l)] env = Ok (Bool false)
    /\ call primList l env = Ok (List l)
    /\ (forall v x rest,
          call primCar [v] env = Ok x ->
          call primCdr [v] env = Ok rest ->
          call primCons [x; rest] env = Ok v).
Proof.
  intros a l env. repeat split.
  intros v x rest Hcar Hcdr. cbn [call] in *.
  destruct v as [| | | | |[|y ys]| |]; try discriminate.
  by injection Hcar as <-; injection Hcdr as <-.
Qed.

Lemma list_primitives_compose_witness :
  call primCons [Number 1; List [Number 2; Number 3]] 0%nat
  = Ok (List [Number 1; Number 2; Number 3]).
Proof.
  destruct (list_primitives_compose (Number 1) [Number 2; Number 3] 0%nat)
    as (_ & _ & _ & _ & _ & Hrebuild).
  apply Hrebuild; reflexivity.
Defined.

(** X8: [car] and [cdr] of one operand succeed exactly when [list?] is
    true of it and [null?] false; they fail with the empty-list error
    exactly when [null?] is true, and with the type error otherwise.
    [null?] itself never fails on one operand, and is true of the empty
    list only. *)
Theorem car_cdr_domain :
  forall (v : SExpr) (env : loc),
    ((exists x, call primCar [v] env = Ok x)
     <-> call primIsList [v] env = Ok (Bool true)
         /\ call primIsNull [v] env = Ok (Bool false))
    /\ ((exists x, call primCdr [v] env = Ok x)
        <-> exists x, call primCar [v] env = Ok x)
    /\ (call primCar [v] env = Err (EmptyList "car")
        <-> call primIsNull [v] env = Ok (Bool true))
    /\ (call primCdr [v] env = Err (EmptyList "cdr")
        <-> call primIsNull [v] env = Ok (Bool true))
    /\ (call primIsList [v] env = Ok (Bool false)
        <-> call primCar [v] env = Err (ExpectedList "car" v))
    /\ (call primIsNull [v] env = Ok (Bool true) <-> v = List []).
Proof.
  intros v env. cbn [call].
  destruct v as [| | | | |[|y ys]| |]; cbn;
    repeat split; intros;
    repeat match goal with
           | H : _ /\ _ |- _ => destruct H
           | H : exists _, _ |- _ => destruct H
           end;
    try discriminate; try done; eauto.
Qed.

Lemma car_cdr_domain_witness :
  (exists x, call primCar [List [Number 1]] 0%nat = Ok x)
  /\ call primCar [List []] 0%nat = Err (EmptyList "car").
Proof.
  split.
  - destruct (car_cdr_domain (List [Number 1]) 0%nat) as [[_ Hcar] _].
    apply Hcar. split; reflexivity.
  - destruct (car_cdr_domain (List []) 0%nat) as (_ & _ & [_ Hempty] & _).
    apply Hempty. reflexivity.
Defined.

Lemma define_all_other (env : loc) (table : list (string * PrimFn)) :
  forall (h : Store) (l : loc),
    l <> env ->
    foldl (fun h '(name, fn) => Define env name (makePrimitive name fn) h) h table
      !! l = h !! l.
Proof.
  induction table as [|[name fn] table IH]; intros h l Hne; simpl; [done|].
  rewrite IH by done. by apply Define_other.
Qed.

Lemma define_all_length (env : loc) (table : list (string * PrimFn)) :
  forall (h : Store),
    length (foldl (fun h '(name, fn) => Define env name (makePrimitive name fn) h)
              h table) = length h.
Proof.
  induction table as [|[name fn] table IH]; intros h; simpl; [done|].
  by rewrite IH, Define_length.
Qed.

Lemma define_all_not_in (env : loc) (table : list (string * PrimFn)) :
  forall (h : Store) (name : string),
    name ∉ table.*1 ->
    binding (foldl (fun h '(name, fn) => Define env name (makePrimitive name fn) h)
               h table) env name
    = binding h env name.
Proof.
  induction table as [|[name0 fn0] table IH]; intros h name Hn; simpl; [done|].
  cbn in Hn. apply not_elem_of_cons in Hn as [Hne Hn].
  rewrite IH by done. by apply binding_Define_ne.
Qed.

Lemma define_all_in (env : loc) (table : list (string * PrimFn)) :
  forall (h : Store) (name : string) (fn : PrimFn),
    NoDup table.*1 ->
    (env < length h)%nat ->
    (name, fn) ∈ table ->
    binding (foldl (fun h '(name, fn) => Define env name (makePrimitive name fn) h)
               h table) env name
    = Some (Primitive name fn).
Proof.
  induction table as [|[name0 fn0] table IH]; intros h name fn Hnd Henv Hin;
    [by apply elem_of_nil in Hin|].
  cbn in Hnd. apply NoDup_cons in Hnd as [Hfresh Hnd]. simpl.
  apply elem_of_cons in Hin as [[= -> ->]|Hin].
  - rewrite define_all_not_in by done. by apply binding_Define_eq.
  - apply IH; [done | by rewrite Define_length | done].
Qed.

Lemma primitive_table_NoDup : NoDup primitive_table.*1.
Proof. apply (bool_decide_unpack _). by vm_compute. Qed.

(** X9: [LoadPrimitives] on an allocated scope binds, in that scope, each
    of its seventeen names to the primitive of that name and function, so
    that the lookup of the name from the scope gives it; the other names
    of the scope and the other scopes are left as they were. *)
Theorem LoadPrimitives_binds :
  forall (h : Store) (env : loc),
    (env < length h)%nat ->
    (forall name fn,
       (name, fn) ∈ primitive_table ->
       binding (LoadPrimitives env h) env name = Some (Primitive name fn)
       /\ Lookup (LoadPrimitives env h) env name = Some (Ok (Primitive name fn)))
    /\ (forall name,
          name ∉ primitive_table.*1 ->
          binding (LoadPrimitives env h) env name = binding h env name)
    /\ (forall l, l <> env -> LoadPrimitives env h !! l = h !! l)
    /\ length (LoadPrimitives env h) = length h
    /\ length primitive_table = 17%nat.
Proof.
  intros h env Henv.
  change (LoadPrimitives env h)
    with (foldl (fun h '(name, fn) => Define env name (makePrimitive name fn) h)
            h primitive_table).
  split; [|split; [|split; [|split]]].
  - intros name fn Hin.
    pose proof (define_all_in env primitive_table h name fn
                  primitive_table_NoDup Henv Hin) as Hb.
    split; [exact Hb|]. unfold Lookup. rewrite define_all_length.
    apply Lookup_at_here; [lia | exact Hb].
  - intros name Hn. by apply define_all_not_in.
  - intros l Hne. by apply define_all_other.
  - apply define_all_length.
  - reflexivity.
Qed.

Lemma LoadPrimitives_binds_witness :
  Lookup (LoadPrimitives 0 Examples.x_is_1) 0 "cons"
  = Some (Ok (Primitive "cons" primCons))
  /\ binding (LoadPrimitives 0 Examples.x_is_1) 0 "x" = Some (Number 1).
Proof.
  assert (Hlt : (0 < length Examples.x_is_1)%nat) by (simpl; lia).
  destruct (LoadPrimitives_binds Examples.x_is_1 0 Hlt) as (Hin & Hout & _).
  split.
  - apply (Hin "cons" primCons). unfold primitive_table.
    repeat first [apply list_elem_of_here | apply list_elem_of_further].
  - rewrite (Hout "x"); [reflexivity|].
    apply (bool_decide_unpack _). by vm_compute.
Defined.

End MorePrimitives.

(** ** More on the evaluator *)

Section MoreEvaluator.
Import sexpr.

Lemma store_grows_refl (h : Store) : store_grows h h.
Proof. intros l env Hl. exists env. by split. Qed.

Lemma store_grows_trans (h1 h2 h3 : Store) :
  store_grows h1 h2 -> store_grows h2 h3 -> store_grows h1 h3.
Proof.
  intros H12 H23 l env Hl.
  destruct (H12 _ _ Hl) as (env2 & Hl2 & Hp2 & Hb2).
  destruct (H23 _ _ Hl2) as (env3 & Hl3 & Hp3 & Hb3).
  exists env3. split; [done|]. split; [congruence | auto].
Qed.

Lemma store_grows_Define (h : Store) (e : loc) (name : string) (v : SExpr) :
  store_grows h (Define e name v h).
Proof.
  intros l env Hl. destruct (decide (l = e)) as [->|Hne].
  - rewrite (Define_same _ _ _ _ _ Hl). eexists. split; [done|]. split; [done|].
    cbn. intros name' Hb. destruct (decide (name = name')) as [->|Hn].
    + rewrite lookup_insert_eq. by eexists.
    + by rewrite lookup_insert_ne.
  - rewrite Define_other by done. exists env. by split.
Qed.

Lemma store_grows_NewEnv (h : Store) (p : option loc) :
  store_grows h (NewEnv p h).2.
Proof.
  intros l env Hl. cbn [NewEnv snd]. exists env.
  split; [|by split]. rewrite lookup_app_l; [done|]. by eapply lookup_lt_Some.
Qed.

Lemma store_grows_bind_params (c : loc) (params : list string) :
  forall (args : list SExpr) (h : Store),
    store_grows h (bind_params c params args h).
Proof.
  induction params as [|p params IH]; intros [|a args] h; simpl;
    try apply store_grows_refl.
  eapply store_grows_trans; [apply store_grows_Define | apply IH].
Qed.

Section GrowStep.

Variable ev : SExpr -> loc -> Store -> Outcome SExpr.
Hypothesis ev_grows : keeps_records ev.

Lemma evalArgs_grows (elements : list SExpr) :
  forall (env : loc) (h h' : Store) (r : Res (list SExpr)),
    evalArgs ev elements env h = Some (r, h') -> store_grows h h'.
Proof.
  induction elements as [|arg rest IH]; intros env h h' r; simpl.
  - intros [= <- <-]. apply store_grows_refl.
  - destruct (ev arg env h) as [[[value|err] h1]|] eqn:E; [| |discriminate].
    + pose proof (ev_grows _ _ _ _ _ E) as H1.
      destruct (evalArgs ev rest env h1) as [[[vs|err] h2]|] eqn:E2;
        [| |discriminate]; intros [= <- <-];
        (eapply store_grows_trans; [exact H1 | by eapply IH]).
    + intros [= <- <-]. by eapply ev_grows.
Qed.

Lemma applyFunc_grows (params : list string) (body : SExpr) (fnEnv : loc)
    (args : list SExpr) (h h' : Store) (r : Res SExpr) :
  applyFunc ev params body fnEnv args h = Some (r, h') -> store_grows h h'.
Proof.
  unfold applyFunc. destruct (negb _).
  - intros [= <- <-]. apply store_grows_refl.
  - cbn [Extend]. intros E. apply ev_grows in E.
    eapply store_grows_trans; [|exact E].
    eapply store_grows_trans;
      [apply (store_grows_NewEnv h (Some fnEnv)) | apply store_grows_bind_params].
Qed.

Lemma evalList_grows (elements : list SExpr) (env : loc) (h h' : Store)
    (r : Res SExpr) :
  evalList ev elements env h = Some (r, h') -> store_grows h h'.
Proof.
  assert (Hdone : forall (res : Res SExpr),
            Some (res, h) = Some (r, h') -> store_grows h h').
  { intros res [= <- <-]. apply store_grows_refl. }
  assert (Happly : evalApply ev elements env h = Some (r, h') -> store_grows h h').
  { unfold evalApply. destruct elements as [|head rest]; [discriminate|].
    destruct (ev head env h) as [[[fn|err] h1]|] eqn:E; [| |discriminate].
    - pose proof (ev_grows _ _ _ _ _ E) as Hg1.
      destruct (evalArgs ev rest env h1) as [[[args|err] h2]|] eqn:E2;
        [| |discriminate].
      + pose proof (evalArgs_grows _ _ _ _ _ E2) as Hg2.
        pose proof (store_grows_trans _ _ _ Hg1 Hg2) as Hg12.
        destruct fn as [| | | | | |params body fnEnv|name f];
          try (intros [= <- <-]; exact Hg12).
        intros Hcall. eapply store_grows_trans; [exact Hg12|].
        by eapply applyFunc_grows.
      + intros [= <- <-]. eapply store_grows_trans; [exact Hg1|].
        by eapply evalArgs_grows.
    - intros [= <- <-]. by eapply ev_grows. }
  unfold evalList. destruct elements as [|first rest]; [exact (Hdone _)|].
  destruct first as [|name| | | | | |]; try exact Happly.
  repeat case_decide; try exact Happly.
  - unfold evalDefine.
    destruct rest as [|target [|expr [|]]]; try exact (Hdone _).
    destruct target as [|x| | | | | |]; try exact (Hdone _).
    destruct (ev expr env h) as [[[value|err] h1]|] eqn:E; [| |discriminate].
    + intros [= <- <-]. eapply store_grows_trans;
        [by eapply ev_grows | apply store_grows_Define].
    + intros [= <- <-]. by eapply ev_grows.
  - unfold evalLambda.
    destruct rest as [|paramsList [|body [|]]]; try exact (Hdone _).
    destruct paramsList as [| | | | |ps| |]; try exact (Hdone _).
    destruct (lambda_params ps); exact (Hdone _).
  - unfold evalIf.
    destruct rest as [|test [|thenE [|elseE [|]]]]; try exact (Hdone _).
    destruct (ev test env h) as [[[value|err] h1]|] eqn:E; [| |discriminate].
    + pose proof (ev_grows _ _ _ _ _ E) as Hg1.
      destruct (isTruthy value); intros E2;
        (eapply store_grows_trans; [exact Hg1 | by eapply ev_grows]).
    + intros [= <- <-]. by eapply ev_grows.
  - unfold evalQuote.
    destruct rest as [|expr [|]]; exact (Hdone _).
Qed.

End GrowStep.

Lemma Eval_grows (fuel : nat) : keeps_records (Eval fuel).
Proof.
  induction fuel as [|fuel IH]; intros expr env h r h'; [discriminate|].
  cbn [Eval].
  destruct expr as [n|name|s|b| |elements|params body fnEnv|name fn];
    try (intros [= <- <-]; apply store_grows_refl).
  - destruct (Lookup h env name); [|discriminate].
    intros [= <- <-]. apply store_grows_refl.
  - by apply evalList_grows.
Qed.

(** X10: whatever it evaluates and whether it succeeds or fails, the
    evaluator only adds to the store: every scope that was allocated still
    is, with the same parent, and every name a scope bound is still bound
    in it (to the same value or to a new one).  No scope is freed, no parent
    is changed and no binding is removed. *)
Theorem Eval_only_adds :
  forall (fuel : nat) (expr : SExpr) (env : loc) (h h' : Store) (r : Res SExpr),
    Eval fuel expr env h = Some (r, h') ->
    (length h <= length h')%nat
    /\ (forall l, (l < length h)%nat -> parent <$> h' !! l = parent <$> h !! l)
    /\ (forall l name, is_Some (binding h l name) -> is_Some (binding h' l name)).
Proof.
  intros fuel expr env h h' r E. apply Eval_grows in E.
  split; [|split].
  - destruct (decide (length h <= length h')%nat) as [|Hgt]; [done|].
    destruct (lookup_lt_is_Some_2 h (length h')) as [env0 H0]; [lia|].
    destruct (E _ _ H0) as (env' & Hl & _).
    apply lookup_lt_Some in Hl. lia.
  - intros l Hl. destruct (lookup_lt_is_Some_2 h l Hl) as [env0 H0].
    destruct (E _ _ H0) as (env' & Hl' & Hp & _).
    rewrite H0, Hl'. cbn. by rewrite Hp.
  - intros l name [v Hb]. unfold binding in *.
    destruct (h !! l) as [env0|] eqn:H0; [|discriminate].
    destruct (E _ _ H0) as (env' & Hl' & _ & Hbs).
    rewrite Hl'. cbn in *. apply Hbs. by eexists.
Qed.

Lemma Eval_only_adds_witness :
  (length Examples.base.2
   <= length (Define 0 "square"
                (Func ["x"] (List [Symbol "*"; Symbol "x"; Symbol "x"]) 0)
                Examples.base.2))%nat.
Proof.
  apply (Eval_only_adds 3 Examples.define_square Examples.base.1 Examples.base.2
           _ (Ok (Func ["x"] (List [Symbol "*"; Symbol "x"; Symbol "x"]) 0))).
  reflexivity.
Defined.

Lemma Eval_Symbol (fuel : nat) (name : string) (env : loc) (h : Store)
    (r : Res SExpr) :
  Lookup h env name = Some r -> Eval (S fuel) (Symbol name) env h = Some (r, h).
Proof. intros Hl. cbn [Eval]. by rewrite Hl. Qed.

(** X11: when the value expression of [(define x e)] evaluates to a value,
    in an allocated environment, the form returns that value and leaves a
    store in which the lookup of [x] from the environment, and so the
    evaluation of the symbol [x] there, gives that value. *)
Theorem define_then_symbol :
  forall (fuel : nat) (x : string) (e : SExpr) (env : loc) (h h1 : Store)
         (value : SExpr),
    (env < length h)%nat ->
    Eval fuel e env h = Some (Ok value, h1) ->
    exists h2 : Store,
      Eval (S fuel) (List [Symbol "define"; Symbol x; e]) env h
      = Some (Ok value, h2)
      /\ Lookup h2 env x = Some (Ok value)
      /\ forall fuel', Eval (S fuel') (Symbol x) env h2 = Some (Ok value, h2).
Proof.
  intros fuel x e env h h1 value Henv He.
  exists (Define env x value h1).
  assert (Hlt : (env < length h1)%nat).
  { pose proof (Eval_grows _ _ _ _ _ _ He) as Hg.
    destruct (lookup_lt_is_Some_2 h env Henv) as [env0 H0].
    destruct (Hg _ _ H0) as (env' & Hl & _). by eapply lookup_lt_Some. }
  assert (Hl : Lookup (Define env x value h1) env x = Some (Ok value)).
  { unfold Lookup. rewrite Define_length.
    apply Lookup_at_here; [lia|]. by apply binding_Define_eq. }
  split; [|split; [exact Hl|]].
  - rewrite Eval_List. cbn. by rewrite He.
  - intros fuel'. by apply Eval_Symbol.
Qed.

Lemma define_then_symbol_witness :
  exists h2 : Store,
    Eval 2 (List [Symbol "define"; Symbol "x"; Number 42]) 0 Examples.empty_root
    = Some (Ok (Number 42), h2)
    /\ Lookup h2 0 "x" = Some (Ok (Number 42))
    /\ forall fuel', Eval (S fuel') (Symbol "x") 0 h2 = Some (Ok (Number 42), h2).
Proof.
  apply (define_then_symbol 1 "x" (Number 42) 0 Examples.empty_root
           Examples.empty_root (Number 42)).
  - simpl. lia.
  - reflexivity.
Defined.

Lemma lambda_params_symbols (names : list string) :
  lambda_params (Symbol <$> names) = Ok names.
Proof.
  induction names as [|n names IH]; [done|].
  change (lambda_params (Symbol n :: (Symbol <$> names)) = Ok (n :: names)).
  cbn [lambda_params]. by rewrite IH.
Qed.

Lemma lambda_params_not_symbol (names : list string) (p : SExpr)
    (rest : list SExpr) :
  prim.is_symbol p = false ->
  lambda_params ((Symbol <$> names) ++ p :: rest) = Err (LambdaParamNotSymbol p).
Proof.
  intros Hp. induction names as [|n names IH].
  - simpl. by destruct p.
  - change (lambda_params (Symbol n :: ((Symbol <$> names) ++ p :: rest))
            = Err (LambdaParamNotSymbol p)).
    cbn [lambda_params]. by rewrite IH.
Qed.

Lemma lambda_params_Ok (elements : list SExpr) (names : list string) :
  lambda_params elements = Ok names -> elements = Symbol <$> names.
Proof.
  revert names. induction elements as [|p elements IH]; intros names; simpl.
  - by intros [= <-].
  - destruct p as [|n| | | | | |]; try discriminate.
    destruct (lambda_params elements) as [ns|]; [|discriminate].
    intros [= <-]. cbn. by rewrite (IH ns).
Qed.

(** X12: the operand shapes of [define] and [lambda].  [define] with a
    target that is not a symbol fails as a malformed form without
    evaluating its value expression; [lambda] with a parameter list that is
    not a list, or with a parameter that is not a symbol (the first such is
    reported), fails as a malformed form; and [lambda] returns a closure
    exactly when its parameter list is a list of symbols, with their names
    in order for parameters.  None of this changes the store. *)
Theorem malformed_forms :
  forall (fuel : nat) (env : loc) (h : Store),
    (forall target e,
       prim.is_symbol target = false ->
       Eval (S fuel) (List [Symbol "define"; target; e]) env h
       = Some (Err DefineNotSymbol, h))
    /\ (forall ps body,
          prim.is_list ps = false ->
          Eval (S fuel) (List [Symbol "lambda"; ps; body]) env h
          = Some (Err LambdaParamsNotList, h))
    /\ (forall names p rest body,
          prim.is_symbol p = false ->
          Eval (S fuel)
            (List [Symbol "lambda"; List ((Symbol <$> names) ++ p :: rest); body])
            env h
          = Some (Err (LambdaParamNotSymbol p), h))
    /\ (forall ps body params body' fnEnv h',
          Eval (S fuel) (List [Symbol "lambda"; ps; body]) env h
          = Some (Ok (Func params body' fnEnv), h') ->
          ps = List (Symbol <$> params)
          /\ body' = body /\ fnEnv = env /\ h' = h)
    /\ error_kind DefineNotSymbol = KMalformedForm
    /\ error_kind LambdaParamsNotList = KMalformedForm
    /\ (forall p, error_kind (LambdaParamNotSymbol p) = KMalformedForm).
Proof.
  intros fuel env h.
  split; [|split; [|split; [|split; [|repeat split]]]].
  - intros target e Ht. rewrite Eval_List. cbn. by destruct target.
  - intros ps body Hp. rewrite Eval_List. cbn. by destruct ps.
  - intros names p rest body Hp. rewrite Eval_List. cbn.
    by rewrite lambda_params_not_symbol.
  - intros ps body params body' fnEnv h'. rewrite Eval_List. cbn.
    destruct ps as [| | | | |elements| |]; try discriminate.
    destruct (lambda_params elements) as [ns|] eqn:E; [|discriminate].
    intros [= <- <- <- <-]. by rewrite (lambda_params_Ok _ _ E).
Qed.

Lemma malformed_forms_witness :
  Eval 1 (List [Symbol "define"; Number 1; Symbol "unbound"]) 0 Examples.empty_root
  = Some (Err DefineNotSymbol, Examples.empty_root)
  /\ Eval 1 (List [Symbol "lambda"; List [Symbol "x"; Number 2; Nil]; Nil]) 0
       Examples.empty_root
     = Some (Err (LambdaParamNotSymbol (Number 2)), Examples.empty_root).
Proof.
  destruct (malformed_forms 0 0 Examples.empty_root) as (Hdef & _ & Hparam & _).
  split.
  - apply Hdef. reflexivity.
  - apply (Hparam ["x"] (Number 2) [Nil] Nil). reflexivity.
Defined.

(** X13: a nested arithmetic expression over [+], [-] and [*], evaluated
    in an environment from which these three names look up to the
    primitives, gives its value in int64 arithmetic and leaves the store as
    it was, with any fuel above the depth of the expression. *)
Theorem aexp_evaluates :
  forall (t : aexp) (fuel : nat) (env : loc) (h : Store) (np nm nt : string),
    Lookup h env "+" = Some (Ok (Primitive np primAdd)) ->
    Lookup h env "-" = Some (Ok (Primitive nm primSub)) ->
    Lookup h env "*" = Some (Ok (Primitive nt primMul)) ->
    (aexp_height t < fuel)%nat ->
    Eval fuel (aexp_form t) env h = Some (Ok (Number (aexp_value t)), h).
Proof.
  intros t fuel env h np nm nt Hadd Hsub Hmul. revert fuel.
  induction t as [n|a IHa b IHb|a IHa b IHb|a IHa b IHb|a IHa];
    intros fuel Hfuel; (destruct fuel as [|fuel]; [simpl in Hfuel; lia|]);
    [reflexivity| | | |]; cbn [aexp_height] in Hfuel;
    (destruct fuel as [|fuel]; [lia|]);
    cbn [aexp_form]; rewrite Eval_List; cbn [evalList];
    repeat (case_decide; [discriminate|]);
    unfold evalApply.
  - rewrite (Eval_Symbol _ _ _ _ _ Hadd). cbn [evalArgs].
    rewrite IHa, IHb by lia. cbn.
    by rewrite Z.add_0_l, wrap64_add_l.
  - rewrite (Eval_Symbol _ _ _ _ _ Hsub). cbn [evalArgs].
    rewrite IHa, IHb by lia. reflexivity.
  - rewrite (Eval_Symbol _ _ _ _ _ Hmul). cbn [evalArgs].
    rewrite IHa, IHb by lia. cbn [call prim.Mul prim.mul_loop].
    by rewrite Z.mul_1_l, wrap64_mul_l.
  - rewrite (Eval_Symbol _ _ _ _ _ Hsub). cbn [evalArgs].
    rewrite IHa by lia. reflexivity.
Qed.

Lemma aexp_evaluates_witness :
  Eval 3 (aexp_form (AAdd (AMul (ANum 2) (ANum 3)) (ANum 4)))
    Examples.base.1 Examples.base.2
  = Some (Ok (Number 10), Examples.base.2).
Proof.
  apply (aexp_evaluates (AAdd (AMul (ANum 2) (ANum 3)) (ANum 4)) 3
           Examples.base.1 Examples.base.2 "+" "-" "*");
    try reflexivity.
  simpl. lia.
Defined.

End MoreEvaluator.

(** ** The reader *)

Section ReaderProofs.
Import sexpr parser.

Variable ParseInt : string -> NumError + Z.

Lemma isAtEnd_middle (pre rest : list Token) (t : Token) :
  isAtEnd (pre ++ t :: rest) (length pre) = bool_decide (Typ t = EOF).
Proof. unfold isAtEnd. by rewrite list_lookup_middle. Qed.

Lemma isAtEnd_end (toks : list Token) : isAtEnd toks (length toks) = true.
Proof. unfold isAtEnd. by rewrite lookup_ge_None_2. Qed.

Lemma peek_middle (pre rest : list Token) (t : Token) :
  Typ t <> EOF -> peek (pre ++ t :: rest) (length pre) = t.
Proof.
  intros Ht. unfold peek. rewrite isAtEnd_middle, bool_decide_false by done.
  by rewrite list_lookup_middle.
Qed.

Lemma advance_middle (pre rest : list Token) (t : Token) :
  Typ t <> EOF -> advance (pre ++ t :: rest) (length pre) = (t, S (length pre)).
Proof.
  intros Ht. unfold advance. rewrite isAtEnd_middle, bool_decide_false by done.
  by rewrite list_lookup_middle.
Qed.

Lemma isAtEnd_head (t : Token) (rest : list Token) :
  isAtEnd (t :: rest) 0 = bool_decide (Typ t = EOF).
Proof. reflexivity. Qed.

Lemma peek_head (t : Token) (rest : list Token) :
  Typ t <> EOF -> peek (t :: rest) 0 = t.
Proof. apply (peek_middle [] rest t). Qed.

Lemma advance_head (t : Token) (rest : list Token) :
  Typ t <> EOF -> advance (t :: rest) 0 = (t, 1%nat).
Proof. apply (advance_middle [] rest t). Qed.

(** A spelling starts with a token that opens an expression. *)
Lemma spells_head (toks : list Token) (v : SExpr) :
  spells ParseInt toks v ->
  exists t rest, toks = t :: rest /\ Typ t <> EOF /\ Typ t <> RPAREN.
Proof.
  intros H. inversion H as [t n Ht|t Ht|t Ht|t Ht|lp rp ts es Hlp]; subst;
    eexists _, _; (split; [reflexivity|]); split; congruence.
Qed.

Lemma spells_all_length (toks : list Token) (elements : list SExpr) :
  spells_all ParseInt toks elements -> (length elements <= length toks)%nat.
Proof.
  induction 1 as [|toks toks' elements expr _ IH Hs]; [done|].
  destruct (spells_head _ _ Hs) as (t & rest & -> & _).
  rewrite !length_app. simpl. lia.
Qed.

(** A spelling is read back, wherever it stands in the tokens. *)
Lemma spells_read :
  (forall toks v,
     spells ParseInt toks v ->
     forall pre rest fuel,
       (length toks <= fuel)%nat ->
       readExpr ParseInt fuel (pre ++ toks ++ rest) (length pre)
       = Some (POk (v, (length pre + length toks)%nat)))
  /\ (forall toks elements,
        spells_all ParseInt toks elements ->
        forall pre rest f k acc,
          (length toks <= f)%nat ->
          readList_loop (readExpr ParseInt f (pre ++ toks ++ rest))
            (length elements + k) (pre ++ toks ++ rest) (length pre) acc
          = readList_loop (readExpr ParseInt f (pre ++ toks ++ rest))
              k (pre ++ toks ++ rest) (length pre + length toks) (acc ++ elements)).
Proof.
  apply spells_mutind.
  - intros t n Ht Hn pre rest fuel Hfuel. destruct fuel as [|fuel]; [simpl in *; lia|].
    cbn [readExpr app]. rewrite isAtEnd_middle, bool_decide_false by congruence.
    rewrite peek_middle, Ht by congruence. unfold readNumber.
    rewrite advance_middle by congruence. rewrite Hn. simpl.
    by rewrite Nat.add_1_r.
  - intros t Ht pre rest fuel Hfuel. destruct fuel as [|fuel]; [simpl in *; lia|].
    cbn [readExpr app]. rewrite isAtEnd_middle, bool_decide_false by congruence.
    rewrite peek_middle, Ht by congruence. unfold readSymbol.
    rewrite advance_middle by congruence. simpl. by rewrite Nat.add_1_r.
  - intros t Ht pre rest fuel Hfuel. destruct fuel as [|fuel]; [simpl in *; lia|].
    cbn [readExpr app]. rewrite isAtEnd_middle, bool_decide_false by congruence.
    rewrite peek_middle, Ht by congruence. unfold readString.
    rewrite advance_middle by congruence. simpl. by rewrite Nat.add_1_r.
  - intros t Ht pre rest fuel Hfuel. destruct fuel as [|fuel]; [simpl in *; lia|].
    cbn [readExpr app]. rewrite isAtEnd_middle, bool_decide_false by congruence.
    rewrite peek_middle, Ht by congruence. unfold readBool.
    rewrite advance_middle by congruence. simpl. by rewrite Nat.add_1_r.
  - intros lp rp toks elements Hlp Hrp Hall IH pre rest fuel Hfuel.
    pose proof (spells_all_length _ _ Hall) as Hlen.
    rewrite length_cons, length_app in Hfuel. simpl in Hfuel.
    destruct fuel as [|f]; [lia|].
    cbn [readExpr]. rewrite <- !app_comm_cons.
    rewrite isAtEnd_middle, bool_decide_false by congruence.
    rewrite peek_middle, Hlp by congruence.
    unfold readList. rewrite advance_middle by congruence. cbn [snd].
    replace (pre ++ lp :: (toks ++ [rp]) ++ rest)
      with ((pre ++ [lp]) ++ toks ++ rp :: rest)
      by (by rewrite <- !app_assoc).
    replace (S (length pre)) with (length (pre ++ [lp]))
      by (rewrite length_app; simpl; lia).
    replace f with (length elements + (f - length elements))%nat at 2 by lia.
    rewrite (IH (pre ++ [lp]) (rp :: rest) f (f - length elements)%nat [])
      by lia.
    destruct (f - length elements)%nat as [|k] eqn:Hk; [lia|].
    cbn [readList_loop].
    replace ((pre ++ [lp]) ++ toks ++ rp :: rest)
      with (((pre ++ [lp]) ++ toks) ++ rp :: rest)
      by (by rewrite <- !app_assoc).
    replace (length (pre ++ [lp]) + length toks)%nat
      with (length ((pre ++ [lp]) ++ toks)) by (by rewrite !length_app).
    rewrite isAtEnd_middle, bool_decide_false by congruence.
    rewrite peek_middle by congruence.
    rewrite (bool_decide_true _ Hrp). cbn [negb andb].
    rewrite advance_middle by congruence. cbn [snd app].
    do 3 f_equal. rewrite !length_app. simpl. rewrite length_app. simpl. lia.
  - intros pre rest f k acc _. simpl. by rewrite Nat.add_0_r, app_nil_r.
  - intros toks toks' elements expr Hall IHall Hs IHs pre rest f k acc Hf.
    rewrite length_app in Hf.
    rewrite !length_app. cbn [length].
    replace (length elements + 1 + k)%nat with (length elements + S k)%nat by lia.
    replace (pre ++ (toks ++ toks') ++ rest) with (pre ++ toks ++ (toks' ++ rest))
      by (by rewrite <- !app_assoc).
    rewrite (IHall pre (toks' ++ rest) f (S k) acc) by lia.
    destruct (spells_head _ _ Hs) as (t & ts & Heq & Hne & Hnr).
    cbn [readList_loop].
    replace (pre ++ toks ++ toks' ++ rest) with ((pre ++ toks) ++ toks' ++ rest)
      by (by rewrite <- !app_assoc).
    replace (length pre + length toks)%nat with (length (pre ++ toks))
      by (by rewrite length_app).
    rewrite (IHs (pre ++ toks) rest f) by lia.
    assert (Hcont :
      negb (isAtEnd ((pre ++ toks) ++ toks' ++ rest) (length (pre ++ toks)))
      && negb (bool_decide
                 (Typ (peek ((pre ++ toks) ++ toks' ++ rest) (length (pre ++ toks)))
                  = RPAREN)) = true).
    { rewrite Heq, <- app_comm_cons.
      rewrite isAtEnd_middle, bool_decide_false by done.
      rewrite peek_middle by done. by rewrite (bool_decide_false _ Hnr). }
    rewrite Hcont.
    f_equal; [rewrite !length_app; lia | by rewrite <- app_assoc].
Qed.

Lemma not_isAtEnd (tokens : list Token) (pos : nat) :
  isAtEnd tokens pos = false ->
  exists t,
    tokens !! pos = Some t /\ Typ t <> EOF
    /\ peek tokens pos = t /\ advance tokens pos = (t, S pos).
Proof.
  unfold peek, advance. intros H. rewrite H. unfold isAtEnd in H.
  destruct (tokens !! pos) as [t|]; [|discriminate].
  exists t. apply bool_decide_eq_false in H. done.
Qed.

Lemma spells_all_cons (toks toks' : list Token) (expr : SExpr)
    (elements : list SExpr) :
  spells ParseInt toks expr ->
  spells_all ParseInt toks' elements ->
  spells_all ParseInt (toks ++ toks') (expr :: elements).
Proof.
  intros Hs Hall. induction Hall as [|ts ts' es e _ IH He].
  - rewrite app_nil_r. apply (spells_all_snoc ParseInt [] toks [] expr);
      [constructor | done].
  - rewrite app_assoc. change (expr :: es ++ [e]) with ((expr :: es) ++ [e]).
    by constructor.
Qed.

(** What the loop of [readList] returns is a list that the tokens it went
    over spell, up to the closing parenthesis. *)
Lemma readList_loop_spells (rd : nat -> option (PRes (SExpr * nat)))
    (tokens : list Token) :
  (forall pos v pos',
     rd pos = Some (POk (v, pos')) ->
     exists toks,
       spells ParseInt toks v
       /\ drop pos tokens = toks ++ drop pos' tokens
       /\ pos' = (pos + length toks)%nat) ->
  forall k pos acc v pos',
    readList_loop rd k tokens pos acc = Some (POk (v, pos')) ->
    exists toks elements rp,
      v = List (acc ++ elements)
      /\ spells_all ParseInt toks elements
      /\ Typ rp = RPAREN
      /\ drop pos tokens = toks ++ rp :: drop pos' tokens
      /\ pos' = (pos + length toks + 1)%nat.
Proof.
  intros Hrd. induction k as [|k IH]; intros pos acc v pos' Hloop; [discriminate|].
  cbn [readList_loop] in Hloop.
  destruct (isAtEnd tokens pos) eqn:Hend; cbn [negb andb] in Hloop; [discriminate|].
  destruct (not_isAtEnd _ _ Hend) as (t & Ht & Hne & Hpeek & Hadv).
  rewrite Hpeek in Hloop. case_bool_decide as Hrp; cbn [negb] in Hloop.
  - rewrite Hadv in Hloop. injection Hloop as <- <-.
    exists [], [], t. rewrite app_nil_r. split; [done|]. split; [constructor|].
    split; [done|]. split; [|simpl; lia]. by apply drop_S.
  - destruct (rd pos) as [[[e p1]|err]|] eqn:Erd; try discriminate.
    destruct (Hrd _ _ _ Erd) as (toks1 & Hs1 & Hd1 & ->).
    destruct (IH _ _ _ _ Hloop) as (toks2 & es2 & rp & -> & Hall & Hrp' & Hd2 & ->).
    exists (toks1 ++ toks2), (e :: es2), rp.
    split; [by rewrite <- app_assoc|]. split; [by apply spells_all_cons|].
    split; [done|]. split.
    + by rewrite Hd1, Hd2, <- app_assoc.
    + rewrite length_app. lia.
Qed.

(** What [readExpr] returns is spelt by the tokens it went over. *)
Lemma readExpr_spells (fuel : nat) :
  forall (tokens : list Token) (pos : nat) (v : SExpr) (pos' : nat),
    readExpr ParseInt fuel tokens pos = Some (POk (v, pos')) ->
    exists toks,
      spells ParseInt toks v
      /\ drop pos tokens = toks ++ drop pos' tokens
      /\ pos' = (pos + length toks)%nat.
Proof.
  induction fuel as [|fuel IH]; intros tokens pos v pos' Hr; [discriminate|].
  cbn [readExpr] in Hr.
  destruct (isAtEnd tokens pos) eqn:Hend; [discriminate|].
  destruct (not_isAtEnd _ _ Hend) as (t & Ht & Hne & Hpeek & Hadv).
  rewrite Hpeek in Hr.
  pose proof (drop_S _ _ _ Ht) as Hdrop.
  destruct (Typ t) eqn:Htyp; try discriminate.
  - unfold readList in Hr. rewrite Hadv in Hr. cbn [snd] in Hr.
    destruct (readList_loop_spells _ tokens (IH tokens) _ _ _ _ _ Hr)
      as (toks & es & rp & -> & Hall & Hrp & Hd & ->).
    exists (t :: toks ++ [rp]). split; [by constructor|]. split.
    + rewrite Hdrop, Hd. cbn. by rewrite <- app_assoc.
    + cbn. rewrite length_app. simpl. lia.
  - unfold readNumber in Hr. rewrite Hadv in Hr.
    destruct (ParseInt (Value t)) as [err|n] eqn:Hn; [discriminate|].
    injection Hr as <- <-. exists [t].
    split; [by constructor|]. split; [done | simpl; lia].
  - unfold readSymbol in Hr. rewrite Hadv in Hr. injection Hr as <- <-.
    exists [t]. split; [by constructor|]. split; [done | simpl; lia].
  - unfold readString in Hr. rewrite Hadv in Hr. injection Hr as <- <-.
    exists [t]. split; [by constructor|]. split; [done | simpl; lia].
  - unfold readBool in Hr. rewrite Hadv in Hr. injection Hr as <- <-.
    exists [t]. split; [by constructor|]. split; [done | simpl; lia].
Qed.

(** The loops of the reader end: each token is gone over once. *)
Lemma readList_loop_returns (rd : nat -> option (PRes (SExpr * nat)))
    (tokens : list Token) (f : nat) :
  (forall pos,
     (length tokens - pos < f)%nat ->
     exists r, rd pos = Some r
               /\ forall v pos', r = POk (v, pos') -> (pos < pos')%nat) ->
  forall k pos acc,
    (length tokens - pos < k)%nat ->
    (length tokens - pos < f)%nat ->
    exists r, readList_loop rd k tokens pos acc = Some r
              /\ forall v pos', r = POk (v, pos') -> (pos < pos')%nat.
Proof.
  intros Hrd. induction k as [|k IH]; intros pos acc Hk Hf; [lia|].
  cbn [readList_loop].
  destruct (isAtEnd tokens pos) eqn:Hend; cbn [negb andb].
  { eexists. split; [done|]. discriminate. }
  destruct (not_isAtEnd _ _ Hend) as (t & Ht & Hne & Hpeek & Hadv).
  apply lookup_lt_Some in Ht.
  case_bool_decide as Hrp; cbn [negb].
  - rewrite Hadv. eexists. split; [done|]. intros v pos' [= <- <-]. lia.
  - destruct (Hrd pos Hf) as (r & -> & Hprog).
    destruct r as [[e p1]|err].
    + specialize (Hprog _ _ eq_refl).
      destruct (IH p1 (acc ++ [e])) as (r & -> & Hprog'); [lia | lia |].
      eexists. split; [done|]. intros v pos' ->.
      specialize (Hprog' _ _ eq_refl). lia.
    + eexists. split; [done|]. discriminate.
Qed.

Lemma readExpr_returns (f : nat) :
  forall (tokens : list Token) (pos : nat),
    (length tokens - pos < f)%nat ->
    exists r, readExpr ParseInt f tokens pos = Some r
              /\ forall v pos', r = POk (v, pos') -> (pos < pos')%nat.
Proof.
  induction f as [|f IH]; intros tokens pos Hf; [lia|].
  cbn [readExpr].
  destruct (isAtEnd tokens pos) eqn:Hend.
  { eexists. split; [done|]. discriminate. }
  destruct (not_isAtEnd _ _ Hend) as (t & Ht & Hne & Hpeek & Hadv).
  apply lookup_lt_Some in Ht. rewrite Hpeek.
  destruct (Typ t) eqn:Htyp;
    try (eexists; split; [done|]; discriminate);
    try (unfold readNumber, readSymbol, readString, readBool; rewrite Hadv;
         try destruct (ParseInt (Value t));
         eexists; (split; [done|]); intros v pos' [= <- <-]; lia).
  unfold readList. rewrite Hadv. cbn [snd].
  destruct (readList_loop_returns (readExpr ParseInt f tokens) tokens f
              (IH tokens) f (S pos) []) as (r & -> & Hprog); [lia | lia |].
  eexists. split; [done|]. intros v pos' ->. specialize (Hprog _ _ eq_refl). lia.
Qed.

Lemma Read_Ok_spells (tokens : list Token) (v : SExpr) :
  Read ParseInt tokens = Some (POk v) ->
  exists toks rest,
    tokens = toks ++ rest
    /\ spells ParseInt toks v
    /\ (rest = [] \/ exists t rest', rest = t :: rest' /\ Typ t = EOF).
Proof.
  unfold Read.
  destruct (readExpr ParseInt (S (length tokens)) tokens 0)
    as [[[e pos]|err]|] eqn:Hr; try discriminate.
  destruct (readExpr_spells _ _ _ _ _ Hr) as (toks & Hs & Hd & ->).
  rewrite drop_0 in Hd.
  destruct (isAtEnd tokens (0 + length toks)) eqn:Hend; cbn [negb andb].
  - intros [= <-]. exists toks, (drop (0 + length toks) tokens).
    split; [done|]. split; [done|].
    unfold isAtEnd in Hend.
    destruct (tokens !! (0 + length toks)%nat) as [t|] eqn:Ht.
    + right. exists t, (drop (S (0 + length toks)) tokens).
      split; [by apply drop_S | by apply bool_decide_eq_true in Hend].
    + left. apply drop_ge. by apply lookup_ge_None.
  - destruct (not_isAtEnd _ _ Hend) as (t & Ht & Hne & Hpeek & Hadv).
    rewrite Hpeek, bool_decide_false by done. discriminate.
Qed.

(** X14: [Read] returns an expression exactly when the tokens are a
    spelling of it, in the grammar of the reader, followed by nothing or by
    an end marker (what comes after the marker is not looked at). *)
Theorem Read_grammar :
  forall (tokens : list Token) (v : SExpr),
    Read ParseInt tokens = Some (POk v)
    <-> exists toks rest,
          tokens = toks ++ rest
          /\ spells ParseInt toks v
          /\ (rest = [] \/ exists t rest', rest = t :: rest' /\ Typ t = EOF).
Proof.
  intros tokens v. split; [apply Read_Ok_spells|].
  intros (toks & rest & -> & Hs & Hrest). unfold Read.
  rewrite (proj1 spells_read toks v Hs [] rest)
    by (rewrite length_app; lia).
  cbn [length Nat.add].
  replace (isAtEnd (toks ++ rest) (length toks)) with true; [done|].
  destruct Hrest as [->|(t & rest' & -> & Ht)].
  - rewrite app_nil_r. by rewrite isAtEnd_end.
  - by rewrite isAtEnd_middle, bool_decide_true.
Qed.

Lemma Read_returns (tokens : list Token) :
  exists r, Read ParseInt tokens = Some r.
Proof.
  unfold Read.
  destruct (readExpr_returns (S (length tokens)) tokens 0) as (r & -> & _); [lia|].
  destruct r as [[e pos]|err]; [|by eexists].
  destruct (negb _ && negb _); by eexists.
Qed.

(** X15: the errors of [Read], which always returns.  Tokens that are
    empty or start with the end marker: unexpected end of input.  A first
    token that is a closing parenthesis, or an illegal token: the error
    that carries its line and column.  A first token that is a number the
    library does not parse: invalid number, with the text, the position
    and the library's error.  A spelling followed by a token that is not
    the end marker: the unexpected-token-after-expression error with the
    line, column and type of that token.  An opening parenthesis and
    spellings of expressions followed by nothing or by the end marker:
    unclosed list. *)
Theorem Read_rejects :
  forall (tokens : list Token),
    (exists r, Read ParseInt tokens = Some r)
    /\ (isAtEnd tokens 0 = true ->
        Read ParseInt tokens = Some (PErr UnexpectedEndOfInput))
    /\ (forall t rest,
          tokens = t :: rest -> Typ t = RPAREN ->
          Read ParseInt tokens
          = Some (PErr (UnexpectedClosingParen (Line t) (Col t))))
    /\ (forall t rest,
          tokens = t :: rest -> Typ t = ILLEGAL ->
          Read ParseInt tokens
          = Some (PErr (UnexpectedToken ILLEGAL (Line t) (Col t))))
    /\ (forall t rest err,
          tokens = t :: rest -> Typ t = NUMBER ->
          ParseInt (Value t) = inl err ->
          Read ParseInt tokens
          = Some (PErr (InvalidNumber (Value t) (Line t) (Col t) err)))
    /\ (forall toks v t rest,
          tokens = toks ++ t :: rest ->
          spells ParseInt toks v -> Typ t <> EOF ->
          Read ParseInt tokens
          = Some (PErr (TrailingToken (Line t) (Col t) (Typ t))))
    /\ (forall lp toks elements rest,
          tokens = lp :: toks ++ rest ->
          Typ lp = LPAREN ->
          spells_all ParseInt toks elements ->
          isAtEnd rest 0 = true ->
          Read ParseInt tokens = Some (PErr UnclosedList)).
Proof.
  intros tokens. split; [apply Read_returns|].
  split; [|split; [|split; [|split; [|split]]]].
  - intros Hend. unfold Read. cbn [readExpr]. by rewrite Hend.
  - intros t rest -> Ht. unfold Read. cbn [readExpr].
    rewrite isAtEnd_head, bool_decide_false by congruence.
    rewrite peek_head by congruence. by rewrite Ht.
  - intros t rest -> Ht. unfold Read. cbn [readExpr].
    rewrite isAtEnd_head, bool_decide_false by congruence.
    rewrite peek_head by congruence. by rewrite Ht.
  - intros t rest err -> Ht Herr. unfold Read. cbn [readExpr].
    rewrite isAtEnd_head, bool_decide_false by congruence.
    rewrite peek_head, Ht by congruence. unfold readNumber.
    rewrite advance_head by congruence. by rewrite Herr.
  - intros toks v t rest -> Hs Ht. unfold Read.
    rewrite (proj1 spells_read toks v Hs [] (t :: rest))
      by (rewrite length_app; lia).
    cbn [length Nat.add].
    rewrite isAtEnd_middle, bool_decide_false by done.
    rewrite peek_middle by done. by rewrite bool_decide_false.
  - intros lp toks elements rest -> Hlp Hall Hrest. unfold Read.
    pose proof (spells_all_length _ _ Hall) as Hlen.
    cbn [readExpr].
    rewrite isAtEnd_head, bool_decide_false by congruence.
    rewrite peek_head, Hlp by congruence.
    unfold readList.
    rewrite advance_head by congruence. cbn [snd].
    set (f := length (lp :: toks ++ rest)).
    assert (Hf : (length toks < f)%nat).
    { unfold f. rewrite length_cons, length_app. lia. }
    replace f with (length elements + (f - length elements))%nat at 2 by lia.
    change (lp :: toks ++ rest) with ([lp] ++ toks ++ rest).
    change 1%nat with (length [lp]).
    rewrite (proj2 spells_read toks elements Hall [lp] rest f) by lia.
    destruct (f - length elements)%nat as [|k] eqn:Hk; [lia|].
    cbn [readList_loop].
    replace (isAtEnd ([lp] ++ toks ++ rest) (length [lp] + length toks)) with true;
      [done|].
    rewrite app_assoc. rewrite <- length_app. unfold isAtEnd in *.
    rewrite lookup_app_r by lia. by rewrite Nat.sub_diag.
Qed.

Lemma spells_readable :
  (forall toks v, spells ParseInt toks v -> readable v)
  /\ (forall toks elements,
        spells_all ParseInt toks elements -> Forall readable elements).
Proof.
  apply spells_mutind; try done.
  - intros lp rp toks elements _ _ _ IH. cbn [readable].
    induction IH as [|x l Hx _ IHl]; [done | by split].
  - intros toks toks' elements expr _ IH _ Hexpr.
    apply Forall_app. split; [done | by constructor].
Qed.

Lemma readable_closed (n : nat) (v : SExpr) : readable v -> closed_value n v.
Proof.
  induction v as [| | | | |elements IH|params body env IH|]
    using SExpr_nested_ind; try done.
  cbn [readable closed_value].
  induction IH as [|x l Hx _ IHl]; [done|]. simpl. intros [? ?]. split; auto.
Qed.

(** X16: an expression that [Read] returns is made of numbers, symbols,
    strings, booleans and lists only: it holds no [Nil], no closure and no
    primitive, so no environment pointer.  Evaluated in an allocated
    environment of a store whose pointers are all allocated and point to
    older records, it leaves such a store. *)
Theorem Read_then_Eval :
  forall (tokens : list Token) (v : SExpr),
    Read ParseInt tokens = Some (POk v) ->
    readable v
    /\ (forall n, closed_value n v)
    /\ (forall fuel env h r h',
          store_closed h ->
          (env < length h)%nat ->
          Eval fuel v env h = Some (r, h') ->
          store_closed h' /\ store_ok h').
Proof.
  intros tokens v Hr.
  apply Read_Ok_spells in Hr as (toks & rest & _ & Hs & _).
  pose proof (proj1 spells_readable _ _ Hs) as Hv.
  split; [done|]. split; [intros n; by apply readable_closed|].
  intros fuel env h r h' Hh Henv He.
  destruct (Eval_closed fuel v env h r h' Hh (readable_closed _ _ Hv) Henv He)
    as ([Hok Hval] & _). by repeat split.
Qed.

End ReaderProofs.

Section ReaderWitnesses.
Import sexpr parser ParserExamples.

Lemma Read_grammar_witness :
  exists toks rest,
    plus_tokens = toks ++ rest
    /\ spells parse_int toks
         (List [Symbol "+"; Number 1; List [Symbol "neg"; Symbol "x"]])
    /\ (rest = [] \/ exists t rest', rest = t :: rest' /\ Typ t = EOF).
Proof.
  apply (proj1 (Read_grammar parse_int plus_tokens
                  (List [Symbol "+"; Number 1; List [Symbol "neg"; Symbol "x"]]))).
  reflexivity.
Defined.

Lemma Read_rejects_witness :
  Read parse_int [tok LPAREN "("; tok NUMBER "1"] = Some (PErr UnclosedList)
  /\ Read parse_int [tok NUMBER "1"; tok RPAREN ")"]
     = Some (PErr (TrailingToken 1 1 RPAREN)).
Proof.
  split.
  - destruct (Read_rejects parse_int [tok LPAREN "("; tok NUMBER "1"])
      as (_ & _ & _ & _ & _ & _ & Hunclosed).
    apply (Hunclosed (tok LPAREN "(") [tok NUMBER "1"] [Number 1] []);
      [reflexivity | reflexivity | | reflexivity].
    apply (spells_all_snoc parse_int [] [tok NUMBER "1"] [] (Number 1)).
    + constructor.
    + by constructor.
  - destruct (Read_rejects parse_int [tok NUMBER "1"; tok RPAREN ")"])
      as (_ & _ & _ & _ & _ & Htrailing & _).
    apply (Htrailing [tok NUMBER "1"] (Number 1) (tok RPAREN ")") []);
      [reflexivity | | discriminate].
    by constructor.
Defined.

Lemma Read_then_Eval_witness :
  readable (List [Symbol "+"; Number 1; List [Symbol "neg"; Symbol "x"]]).
Proof.
  apply (Read_then_Eval parse_int plus_tokens). reflexivity.
Defined.

End ReaderWitnesses.

(** ** The lexer *)

Section LexerProofs.
Import parser lexer.

Variable IsLetter : byte -> bool.

Lemma length_list_ascii (s : string) :
  length (String.list_ascii_of_string s) = String.length s.
Proof. induction s as [|c s IH]; simpl; [done | by rewrite IH]. Qed.

Lemma isAtEnd_false (l : Lexer) :
  lexer.isAtEnd l = false ->
  exists ch, input l !! pos l = Some ch /\ lexer.peek l = ch
             /\ (pos l < length (input l))%nat.
Proof.
  unfold lexer.peek. intros H. rewrite H. unfold lexer.isAtEnd in H.
  apply Nat.leb_gt in H.
  destruct (lookup_lt_is_Some_2 (input l) (pos l) H) as [ch Hch].
  exists ch. by rewrite Hch.
Qed.

(** One byte read: the input is the same, the position is the next one,
    and the line and column still count from one. *)
Lemma advance_step (l : Lexer) :
  lexer.isAtEnd l = false ->
  lexer_ok l ->
  input (lexer.advance l).2 = input l
  /\ pos (lexer.advance l).2 = S (pos l)
  /\ lexer_ok (lexer.advance l).2
  /\ (code (lexer.peek l) <> 10%nat ->
      line (lexer.advance l).2 = line l /\ col (lexer.advance l).2 = S (col l)).
Proof.
  intros Hend (Hpos & Hline & Hcol).
  destruct (isAtEnd_false l Hend) as (ch & Hch & Hpeek & Hlt).
  unfold lexer.advance. rewrite Hend, Hch. simpl. rewrite Hpeek.
  unfold lexer_ok.
  destruct (code ch =? 10)%nat eqn:Hnl; simpl.
  - apply Nat.eqb_eq in Hnl.
    split; [done|]. split; [done|]. split; [lia|]. by intros Hne.
  - split; [done|]. split; [done|]. split; [lia|]. by intros _.
Qed.

(** A loop that reads while a test holds: it ends, on a later position of
    the same input, having read bytes that pass the test, before a byte
    that does not or at the end. *)
Lemma advance_while_spec (p : byte -> bool) (fuel : nat) :
  forall (l : Lexer),
    (remaining l < fuel)%nat ->
    lexer_ok l ->
    exists l',
      advance_while p fuel l = Some l'
      /\ input l' = input l
      /\ (pos l <= pos l')%nat
      /\ lexer_ok l'
      /\ (forall i, (pos l <= i < pos l')%nat ->
            exists c, input l !! i = Some c /\ p c = true)
      /\ (lexer.isAtEnd l' = true \/ p (lexer.peek l') = false).
Proof.
  induction fuel as [|fuel IH]; intros l Hfuel Hok; [lia|].
  cbn [advance_while].
  destruct (lexer.isAtEnd l) eqn:Hend; cbn [negb andb].
  { exists l. split; [done|]. split; [done|]. split; [lia|]. split; [done|].
    split; [intros i Hi; lia | by left]. }
  destruct (p (lexer.peek l)) eqn:Hp.
  - destruct (advance_step l Hend Hok) as (Hin & Hpos & Hok' & _).
    destruct (isAtEnd_false l Hend) as (ch & Hch & Hpeek & Hlt).
    destruct (IH (lexer.advance l).2) as (l' & Hl' & Hin' & Hpos' & Hok'' & Hall & Hstop);
      [unfold remaining in *; rewrite Hin, Hpos; lia | done |].
    exists l'. split; [done|]. split; [congruence|]. split; [lia|].
    split; [done|]. split; [|done].
    intros i Hi. destruct (decide (i = pos l)) as [->|Hne].
    + exists ch. split; [done | by rewrite <- Hpeek].
    + rewrite <- Hin. apply Hall. lia.
  - exists l. split; [done|]. split; [done|]. split; [lia|]. split; [done|].
    split; [intros i Hi; lia | by right].
Qed.

Lemma peek_same (l l' : Lexer) :
  input l' = input l -> pos l' = pos l ->
  lexer.peek l' = lexer.peek l /\ lexer.isAtEnd l' = lexer.isAtEnd l.
Proof.
  intros Hin Hpos. unfold lexer.peek, lexer.isAtEnd. by rewrite Hin, Hpos.
Qed.

Lemma advance_while_progress (p : byte -> bool) (l l' : Lexer) :
  lexer.isAtEnd l = false -> p (lexer.peek l) = true ->
  input l' = input l -> (pos l <= pos l')%nat ->
  lexer.isAtEnd l' = true \/ p (lexer.peek l') = false ->
  (pos l < pos l')%nat.
Proof.
  intros Hend Hp Hin Hle Hstop.
  destruct (decide (pos l' = pos l)) as [Heq|]; [|lia].
  destruct (peek_same l l' Hin Heq) as [Hpk He].
  rewrite Hpk, He in Hstop. destruct Hstop; congruence.
Qed.

Lemma skipWhitespaceAndComments_spec (fuel : nat) :
  forall (l : Lexer),
    (remaining l < fuel)%nat ->
    lexer_ok l ->
    exists l',
      skipWhitespaceAndComments fuel l = Some l'
      /\ input l' = input l
      /\ (pos l <= pos l')%nat
      /\ lexer_ok l'
      /\ (lexer.isAtEnd l' = true
          \/ (code (lexer.peek l') <> 59%nat /\ isWhitespace (lexer.peek l') = false)).
Proof.
  induction fuel as [|fuel IH]; intros l Hfuel Hok; [lia|].
  cbn [skipWhitespaceAndComments].
  destruct (lexer.isAtEnd l) eqn:Hend.
  { exists l. split; [done|]. split; [done|]. split; [lia|]. split; [done|]. by left. }
  destruct (isAtEnd_false l Hend) as (ch & Hch & Hpeek & Hlt).
  destruct (code (lexer.peek l) =? 59)%nat eqn:Hsemi.
  - apply Nat.eqb_eq in Hsemi.
    destruct (advance_while_spec (fun c => negb (code c =? 10)%nat)
                (S (remaining l)) l) as (l1 & -> & Hin1 & Hle1 & Hok1 & _ & Hstop);
      [lia | done |].
    cbn [mbind option_bind].
    assert (Hlt1 : (pos l < pos l1)%nat).
    { eapply (advance_while_progress (fun c => negb (code c =? 10)%nat));
        try done. by rewrite Hsemi. }
    destruct (IH l1) as (l' & Hl' & Hin' & Hle' & Hok' & Hstop');
      [unfold remaining in *; rewrite Hin1; lia | done |].
    exists l'. split; [done|]. split; [congruence|]. split; [lia|]. done.
  - destruct (isWhitespace (lexer.peek l)) eqn:Hws.
    + destruct (advance_step l Hend Hok) as (Hin1 & Hpos1 & Hok1 & _).
      destruct (IH (lexer.advance l).2) as (l' & Hl' & Hin' & Hle' & Hok' & Hstop');
        [unfold remaining in *; rewrite Hin1, Hpos1; lia | done |].
      exists l'. split; [done|]. split; [congruence|]. split; [lia|]. done.
    + exists l. split; [done|]. split; [done|]. split; [lia|]. split; [done|].
      right. split; [|done]. by apply Nat.eqb_neq.
Qed.

Lemma scanString_loop_spec (fuel : nat) :
  forall (l : Lexer) (value : list byte),
    (remaining l < fuel)%nat ->
    lexer_ok l ->
    exists r,
      scanString_loop fuel l value = Some r
      /\ match r with
         | inl (t, l') =>
             Typ t = ILLEGAL /\ (1 <= Line t)%nat /\ (1 <= Col t)%nat
             /\ input l' = input l /\ (pos l <= pos l')%nat /\ lexer_ok l'
         | inr (l', _) =>
             input l' = input l /\ (pos l <= pos l')%nat /\ lexer_ok l'
         end.
Proof.
  induction fuel as [|fuel IH]; intros l value Hfuel Hok; [lia|].
  cbn [scanString_loop].
  destruct (lexer.isAtEnd l) eqn:Hend; cbn [negb andb].
  { eexists. split; [done|]. cbn. split; [done|]. split; [lia | done]. }
  destruct (code (lexer.peek l) =? 34)%nat; cbn [negb].
  { eexists. split; [done|]. cbn. split; [done|]. split; [lia | done]. }
  destruct (advance_step l Hend Hok) as (Hin1 & Hpos1 & Hok1 & _).
  destruct (isAtEnd_false l Hend) as (_ & _ & _ & Hlt).
  destruct (code (lexer.peek l) =? 92)%nat.
  - destruct (lexer.isAtEnd (lexer.advance l).2) eqn:Hend1.
    + eexists. split; [done|]. cbn. destruct Hok1 as (? & ? & ?).
      split; [done|]. split; [done|]. split; [done|]. split; [done|].
      split; [lia | done].
    + destruct (advance_step _ Hend1 Hok1) as (Hin2 & Hpos2 & Hok2 & _).
      destruct (isAtEnd_false _ Hend1) as (_ & _ & _ & Hlt1).
      rewrite Hin1, Hpos1 in Hlt1.
      destruct (IH (lexer.advance (lexer.advance l).2).2
                  (value ++ [unescape (lexer.peek (lexer.advance l).2)]))
        as (r & -> & Hr);
        [unfold remaining in *; rewrite Hin2, Hin1, Hpos2, Hpos1; lia | done |].
      eexists. split; [done|].
      destruct r as [[t l']|[l' v]].
      * destruct Hr as (? & ? & ? & Hin' & Hle' & ?).
        split; [done|]. split; [done|]. split; [done|].
        split; [congruence|]. split; [lia | done].
      * destruct Hr as (Hin' & Hle' & ?).
        split; [congruence|]. split; [lia | done].
  - destruct (IH (lexer.advance l).2 (value ++ [lexer.peek l])) as (r & -> & Hr);
      [unfold remaining in *; rewrite Hin1, Hpos1; lia | done |].
    eexists. split; [done|].
    destruct r as [[t l']|[l' v]].
    + destruct Hr as (? & ? & ? & Hin' & Hle' & ?).
      split; [done|]. split; [done|]. split; [done|].
      split; [congruence|]. split; [lia | done].
    + destruct Hr as (Hin' & Hle' & ?).
      split; [congruence|]. split; [lia | done].
Qed.

(** Bytes of a range that all pass a test make a slice that passes it. *)
Lemma range_forallb (p : byte -> bool) (bytes : list byte) (a b : nat) :
  (forall i, (a <= i < b)%nat -> exists c, bytes !! i = Some c /\ p c = true) ->
  forallb p (take (b - a) (drop a bytes)) = true.
Proof.
  intros Hall. apply Is_true_true, forallb_True, Forall_lookup_2.
  intros j c Hj. apply lookup_take_Some in Hj as [Hj Hlt].
  rewrite lookup_drop in Hj.
  destruct (Hall (a + j)%nat) as (c' & Hc' & Hp); [lia|].
  rewrite Hj in Hc'. injection Hc' as <-. by apply Is_true_true.
Qed.

Lemma take_drop_cons (bytes : list byte) (a n : nat) (c : byte) :
  bytes !! a = Some c ->
  take (S n) (drop a bytes) = c :: take n (drop (S a) bytes).
Proof. intros Hc. by rewrite (drop_S _ _ _ Hc). Qed.

Lemma byte_of_code (ch : byte) (n : nat) :
  code ch = n -> ch = Ascii.ascii_of_nat n.
Proof. intros <-. unfold code. by rewrite Ascii.ascii_nat_embedding. Qed.

Lemma makeSingleCharToken_spec (l : Lexer) (typ : TokenType) :
  lexer.isAtEnd l = false ->
  lexer_ok l ->
  code (lexer.peek l) <> 10%nat ->
  exists t l',
    makeSingleCharToken l typ = (t, l')
    /\ Typ t = typ /\ Value t = string_of_byte (lexer.peek l)
    /\ Line t = line l /\ Col t = col l
    /\ input l' = input l /\ pos l' = S (pos l) /\ lexer_ok l'.
Proof.
  intros Hend Hok Hnl.
  destruct (advance_step l Hend Hok) as (Hin & Hpos & Hok' & Hlc).
  destruct (Hlc Hnl) as [Hline Hcol].
  eexists _, _. split; [reflexivity|]. cbn [Typ Value Line Col].
  rewrite Hline, Hcol. repeat (split; [done || lia|]). done.
Qed.

Lemma scanNumber_spec (l : Lexer) :
  lexer.isAtEnd l = false ->
  lexer_ok l ->
  isDigit (lexer.peek l) = true
  \/ (code (lexer.peek l) = 45%nat /\ isDigit (peekNext l) = true) ->
  exists t l',
    scanNumber l = Some (t, l')
    /\ Typ t = NUMBER /\ number_text (Value t) = true
    /\ Line t = line l' /\ Col t = col l
    /\ input l' = input l /\ (pos l < pos l')%nat /\ lexer_ok l'.
Proof.
  intros Hend Hok Hstart.
  destruct (isAtEnd_false l Hend) as (ch & Hch & Hpeek & Hlt).
  unfold scanNumber. destruct Hstart as [Hdig|[Hminus Hnext]].
  - assert (H45 : (code (lexer.peek l) =? 45)%nat = false).
    { apply Nat.eqb_neq. unfold isDigit in Hdig.
      apply andb_true_iff in Hdig as [H1 _]. apply Nat.leb_le in H1. lia. }
    rewrite H45.
    destruct (advance_while_spec isDigit (S (remaining l)) l)
      as (l2 & -> & Hin2 & Hle2 & Hok2 & Hall & Hstop); [lia | done |].
    cbn [mbind option_bind].
    pose proof (advance_while_progress isDigit l l2 Hend Hdig Hin2 Hle2 Hstop)
      as Hprog.
    eexists _, _. split; [reflexivity|]. cbn [Typ Value Line Col].
    split; [done|]. split; [|by repeat (split; [done|])].
    unfold number_text, slice.
    rewrite String.list_ascii_of_string_of_list_ascii, Hin2.
    pose proof (range_forallb isDigit (input l) (pos l) (pos l2) Hall) as Hfa.
    replace (pos l2 - pos l)%nat with (S (pos l2 - pos l - 1)) in * by lia.
    rewrite (take_drop_cons _ _ _ _ Hch) in *.
    rewrite Hpeek in H45. by rewrite H45.
  - rewrite (proj2 (Nat.eqb_eq _ _) Hminus).
    destruct (advance_step l Hend Hok) as (Hin1 & Hpos1 & Hok1 & _).
    assert (Hnext' : (pos l + 1 < length (input l))%nat
                     /\ exists c, input l !! (pos l + 1)%nat = Some c
                                  /\ peekNext l = c).
    { unfold peekNext in *.
      destruct (length (input l) <=? pos l + 1)%nat eqn:E; [discriminate|].
      apply Nat.leb_gt in E. split; [done|].
      destruct (lookup_lt_is_Some_2 (input l) (pos l + 1)%nat E) as [c Hc].
      exists c. by rewrite Hc. }
    destruct Hnext' as (Hlt1 & c & Hc & Hpn).
    assert (Hend1 : lexer.isAtEnd (lexer.advance l).2 = false).
    { unfold lexer.isAtEnd. rewrite Hin1, Hpos1. apply Nat.leb_gt. lia. }
    assert (Hpeek1 : lexer.peek (lexer.advance l).2 = c).
    { destruct (isAtEnd_false _ Hend1) as (c' & Hc' & <- & _).
      rewrite Hin1, Hpos1 in Hc'. replace (S (pos l)) with (pos l + 1)%nat in Hc' by lia.
      congruence. }
    destruct (advance_while_spec isDigit (S (remaining (lexer.advance l).2))
                (lexer.advance l).2)
      as (l2 & -> & Hin2 & Hle2 & Hok2 & Hall & Hstop); [lia | done |].
    cbn [mbind option_bind].
    assert (Hprog : (pos (lexer.advance l).2 < pos l2)%nat).
    { eapply (advance_while_progress isDigit); try done. by rewrite Hpeek1, <- Hpn. }
    rewrite Hpos1 in Hprog, Hall, Hle2. rewrite Hin1 in Hin2, Hall.
    eexists _, _. split; [reflexivity|]. cbn [Typ Value Line Col].
    split; [done|]. split; [|repeat (split; [done || lia|]); done].
    unfold number_text, slice.
    rewrite String.list_ascii_of_string_of_list_ascii, Hin2.
    pose proof (range_forallb isDigit (input l) (S (pos l)) (pos l2) Hall) as Hfa.
    replace (pos l2 - pos l)%nat with (S (pos l2 - S (pos l))) by lia.
    rewrite (take_drop_cons _ _ _ _ Hch).
    rewrite <- Hpeek, (proj2 (Nat.eqb_eq _ _) Hminus), Hfa.
    replace (pos l2 - S (pos l))%nat with (S (pos l2 - S (pos l) - 1)) by lia.
    replace (S (pos l)) with (pos l + 1)%nat in * by lia.
    by rewrite (drop_S _ _ _ Hc).
Qed.

Lemma isSymbolStart_Char (ch : byte) :
  isSymbolStart IsLetter ch = true -> isSymbolChar IsLetter ch = true.
Proof.
  unfold isSymbolStart, isSymbolChar.
  destruct (IsLetter ch), (isDigit ch), (isSymbolSpecial ch); done.
Qed.

Lemma scanSymbol_spec (l : Lexer) :
  lexer.isAtEnd l = false ->
  lexer_ok l ->
  isSymbolStart IsLetter (lexer.peek l) = true ->
  exists t l',
    scanSymbol IsLetter l = Some (t, l')
    /\ (Typ t = SYMBOL \/ Typ t = BOOL) /\ token_ok IsLetter t = true
    /\ Line t = line l' /\ Col t = col l
    /\ input l' = input l /\ (pos l < pos l')%nat /\ lexer_ok l'.
Proof.
  intros Hend Hok Hstart.
  destruct (isAtEnd_false l Hend) as (ch & Hch & Hpeek & Hlt).
  unfold scanSymbol.
  destruct (advance_while_spec (isSymbolChar IsLetter) (S (remaining l)) l)
    as (l2 & -> & Hin2 & Hle2 & Hok2 & Hall & Hstop); [lia | done |].
  cbn [mbind option_bind].
  pose proof (advance_while_progress _ l l2 Hend (isSymbolStart_Char _ Hstart)
                Hin2 Hle2 Hstop) as Hprog.
  set (value := slice l2 (pos l) (pos l2)).
  destruct (bool_decide (value = "true") || bool_decide (value = "false")) eqn:Hb.
  - eexists _, _. split; [reflexivity|]. cbn [Typ Value Line Col].
    split; [by right|]. split; [|by repeat (split; [done|])].
    unfold token_ok. cbn [Typ Value]. exact Hb.
  - eexists _, _. split; [reflexivity|]. cbn [Typ Value Line Col].
    split; [by left|]. split; [|by repeat (split; [done|])].
    unfold token_ok. cbn [Typ Value]. unfold symbol_text.
    apply orb_false_iff in Hb as [Ht Hf]. rewrite Ht, Hf. cbn [negb].
    unfold value, slice.
    rewrite String.list_ascii_of_string_of_list_ascii, Hin2.
    pose proof (range_forallb _ (input l) (pos l) (pos l2) Hall) as Hfa.
    replace (pos l2 - pos l)%nat with (S (pos l2 - pos l - 1)) in * by lia.
    rewrite (take_drop_cons _ _ _ _ Hch) in *.
    cbn [forallb] in Hfa. apply andb_true_iff in Hfa as [_ Hfa].
    rewrite <- Hpeek, Hstart, Hfa. done.
Qed.

Lemma scanString_spec (l : Lexer) :
  lexer.isAtEnd l = false ->
  lexer_ok l ->
  exists t l',
    scanString l = Some (t, l')
    /\ (Typ t = STRING \/ Typ t = ILLEGAL)
    /\ (1 <= Line t)%nat /\ (1 <= Col t)%nat
    /\ input l' = input l /\ (pos l < pos l')%nat /\ lexer_ok l'.
Proof.
  intros Hend Hok.
  destruct (advance_step l Hend Hok) as (Hin0 & Hpos0 & Hok0 & _).
  unfold scanString.
  destruct (scanString_loop_spec (S (remaining (lexer.advance l).2))
              (lexer.advance l).2 []) as (r & -> & Hr); [lia | done |].
  cbn [mbind option_bind].
  destruct r as [[t l1]|[l1 value]].
  - destruct Hr as (Ht & ? & ? & Hin1 & Hle1 & Hok1).
    eexists _, _. split; [reflexivity|]. split; [by right|].
    split; [done|]. split; [done|]. split; [congruence|]. split; [lia | done].
  - destruct Hr as (Hin1 & Hle1 & Hok1).
    destruct (lexer.isAtEnd l1) eqn:Hend1.
    + eexists _, _. split; [reflexivity|]. cbn [makeToken Typ Line Col].
      destruct Hok1 as (? & ? & ?).
      split; [by right|]. split; [done|]. split; [done|].
      split; [congruence|]. split; [lia | done].
    + destruct (advance_step l1 Hend1 Hok1) as (Hin2 & Hpos2 & Hok2 & _).
      eexists _, _. split; [reflexivity|]. cbn [Typ Line Col].
      destruct Hok2 as (? & ? & ?). destruct Hok as (? & ? & ?).
      split; [by left|]. split; [done|]. split; [done|].
      split; [congruence|]. split; [lia | done].
Qed.

(** What [nextToken] does to the lexer and what it returns: it stays
    inside the same input and never moves back, any token but EOF and
    ILLEGAL takes at least one byte, and the token has a position and a
    text of its type. *)
Lemma nextToken_spec (l : Lexer) :
  lexer_ok l ->
  exists t l',
    nextToken IsLetter l = Some (t, l')
    /\ input l' = input l /\ (pos l <= pos l')%nat /\ lexer_ok l'
    /\ (Typ t <> EOF -> Typ t <> ILLEGAL -> (pos l < pos l')%nat)
    /\ (1 <= Line t)%nat /\ (1 <= Col t)%nat
    /\ token_ok IsLetter t = true.
Proof.
  intros Hok. unfold nextToken.
  destruct (skipWhitespaceAndComments_spec (S (remaining l)) l)
    as (l1 & -> & Hin1 & Hle1 & Hok1 & Hstop); [lia | done |].
  cbn [mbind option_bind].
  pose proof Hok1 as (Hp1 & Hline1 & Hcol1).
  destruct (lexer.isAtEnd l1) eqn:Hend.
  { eexists _, _. split; [reflexivity|]. cbn [makeToken Typ Value Line Col].
    repeat (split; [done|]). done. }
  destruct (code (lexer.peek l1) =? 40)%nat eqn:H40.
  { apply Nat.eqb_eq in H40.
    destruct (makeSingleCharToken_spec l1 LPAREN Hend Hok1)
      as (t & l' & -> & Ht & Hv & Hl & Hc & Hin & Hpos & Hok'); [lia|].
    eexists _, _. split; [reflexivity|].
    split; [congruence|]. split; [lia|]. split; [done|]. split; [lia|].
    split; [lia|]. split; [lia|].
    unfold token_ok. rewrite Ht, Hv, (byte_of_code _ _ H40). done. }
  destruct (code (lexer.peek l1) =? 41)%nat eqn:H41.
  { apply Nat.eqb_eq in H41.
    destruct (makeSingleCharToken_spec l1 RPAREN Hend Hok1)
      as (t & l' & -> & Ht & Hv & Hl & Hc & Hin & Hpos & Hok'); [lia|].
    eexists _, _. split; [reflexivity|].
    split; [congruence|]. split; [lia|]. split; [done|]. split; [lia|].
    split; [lia|]. split; [lia|].
    unfold token_ok. rewrite Ht, Hv, (byte_of_code _ _ H41). done. }
  destruct (code (lexer.peek l1) =? 34)%nat eqn:H34.
  { destruct (scanString_spec l1 Hend Hok1)
      as (t & l' & -> & Ht & Hl & Hc & Hin & Hpos & Hok').
    eexists _, _. split; [reflexivity|].
    split; [congruence|]. split; [lia|]. split; [done|]. split; [lia|].
    split; [done|]. split; [done|].
    unfold token_ok. by destruct Ht as [-> | ->]. }
  destruct (isDigit (lexer.peek l1)
            || ((code (lexer.peek l1) =? 45)%nat
                && negb (code (peekNext l1) =? 0)%nat
                && isDigit (peekNext l1))) eqn:Hnum.
  { destruct (scanNumber_spec l1 Hend Hok1)
      as (t & l' & -> & Ht & Hv & Hl & Hc & Hin & Hpos & Hok').
    { apply orb_true_iff in Hnum as [Hd|Hm]; [by left | right].
      apply andb_true_iff in Hm as [Hm Hd].
      apply andb_true_iff in Hm as [Hm _].
      by apply Nat.eqb_eq in Hm. }
    pose proof Hok' as (_ & Hline' & _).
    eexists _, _. split; [reflexivity|].
    split; [congruence|]. split; [lia|]. split; [done|]. split; [lia|].
    split; [lia|]. split; [lia|].
    unfold token_ok. by rewrite Ht. }
  destruct (isSymbolStart IsLetter (lexer.peek l1)) eqn:Hsym.
  { destruct (scanSymbol_spec l1 Hend Hok1 Hsym)
      as (t & l' & -> & Ht & Hv & Hl & Hc & Hin & Hpos & Hok').
    pose proof Hok' as (_ & Hline' & _).
    eexists _, _. split; [reflexivity|].
    split; [congruence|]. split; [lia|]. split; [done|]. split; [lia|].
    split; [lia|]. split; [lia|]. done. }
  eexists _, _. split; [reflexivity|]. cbn [makeToken Typ Value Line Col].
  repeat (split; [done|]). done.
Qed.

(** The loop of [Tokenize] with enough fuel: it returns; the tokens are
    those it had, then tokens that are neither EOF nor ILLEGAL, then one
    EOF token; a failure is the error of an illegal token. *)
Lemma Tokenize_loop_spec (fuel : nat) :
  forall (l : Lexer) (tokens : list Token),
    (remaining l < fuel)%nat ->
    lexer_ok l ->
    exists r,
      Tokenize_loop IsLetter fuel l tokens = Some r
      /\ match r with
         | POk ts =>
             exists body eof,
               ts = tokens ++ body ++ [eof]
               /\ Forall (fun t => Typ t <> EOF /\ Typ t <> ILLEGAL
                                   /\ (1 <= Line t)%nat /\ (1 <= Col t)%nat
                                   /\ token_ok IsLetter t = true) body
               /\ Typ eof = EOF /\ Value eof = EmptyString
               /\ (1 <= Line eof)%nat /\ (1 <= Col eof)%nat
         | PErr e =>
             exists line col value,
               e = IllegalToken line col value
               /\ (1 <= line)%nat /\ (1 <= col)%nat
         end.
Proof.
  induction fuel as [|fuel IH]; intros l tokens Hfuel Hok; [lia|].
  cbn [Tokenize_loop].
  destruct (nextToken_spec l Hok)
    as (t & l' & -> & Hin & Hle & Hok' & Hprog & Hline & Hcol & Htok).
  case_bool_decide as Heof.
  { eexists. split; [reflexivity|]. exists [], t. cbn [app].
    split; [done|]. split; [constructor|]. split; [done|].
    split; [|done]. unfold token_ok in Htok. rewrite Heof in Htok.
    by apply bool_decide_eq_true in Htok. }
  case_bool_decide as Hill.
  { eexists. split; [reflexivity|]. by eexists _, _, _. }
  destruct (IH l' (tokens ++ [t])) as (r & -> & Hr); [|done|].
  { specialize (Hprog Heof Hill). pose proof Hok' as (? & _).
    unfold remaining in *. rewrite Hin in *. lia. }
  eexists. split; [reflexivity|]. destruct r as [ts|e]; [|done].
  destruct Hr as (body & eof & -> & Hbody & Heof').
  exists (t :: body), eof. split; [by rewrite <- app_assoc|].
  split; [|done]. by constructor.
Qed.

(** X17: [Tokenize] returns on every input, whatever the letters are.  On
    success the last token, and only the last, is an EOF token, with an
    empty text, and no token is ILLEGAL; the only error is that of an
    illegal token; lines and columns count from 1. *)
Theorem Tokenize_returns (text : string) :
  exists r,
    Tokenize IsLetter text = Some r
    /\ match r with
       | POk ts =>
           exists body eof,
             ts = body ++ [eof]
             /\ Forall (fun t => Typ t <> EOF /\ Typ t <> ILLEGAL) body
             /\ Typ eof = EOF /\ Value eof = EmptyString
             /\ Forall (fun t => (1 <= Line t)%nat /\ (1 <= Col t)%nat) ts
       | PErr e =>
           exists line col value,
             e = IllegalToken line col value /\ (1 <= line)%nat /\ (1 <= col)%nat
       end.
Proof.
  unfold Tokenize.
  destruct (Tokenize_loop_spec (S (String.length text)) (NewLexer text) [])
    as (r & -> & Hr).
  { unfold remaining, NewLexer. cbn [input pos]. rewrite length_list_ascii. lia. }
  { unfold lexer_ok, NewLexer. cbn [input pos line col]. lia. }
  eexists. split; [reflexivity|]. destruct r as [ts|e]; [|done].
  destruct Hr as (body & eof & -> & Hbody & Heof & Hval & Hl & Hc).
  exists body, eof. cbn [app]. split; [done|].
  split; [eapply Forall_impl; [exact Hbody | by intros t (? & ? & _)]|].
  split; [done|]. split; [done|].
  apply Forall_app. split.
  - eapply Forall_impl; [exact Hbody | by intros t (_ & _ & ? & ? & _)].
  - by repeat constructor.
Qed.

(** X18: the text of every token [Tokenize] returns agrees with its type:
    a NUMBER is digits, at least one, after an optional minus sign; a
    SYMBOL starts with a letter or a special character, goes on with
    letters, digits and special characters, and is neither "true" nor
    "false"; a BOOL is one of these two; the parentheses are the two
    bytes. *)
Theorem Tokenize_texts (text : string) (ts : list Token) :
  Tokenize IsLetter text = Some (POk ts) ->
  Forall (fun t => token_ok IsLetter t = true) ts.
Proof.
  unfold Tokenize. intros Hts.
  destruct (Tokenize_loop_spec (S (String.length text)) (NewLexer text) [])
    as (r & Hr & Hspec).
  { unfold remaining, NewLexer. cbn [input pos]. rewrite length_list_ascii. lia. }
  { unfold lexer_ok, NewLexer. cbn [input pos line col]. lia. }
  rewrite Hts in Hr. injection Hr as <-.
  destruct Hspec as (body & eof & -> & Hbody & Heof & Hval & _).
  cbn [app]. apply Forall_app. split.
  - eapply Forall_impl; [exact Hbody | by intros t (_ & _ & _ & _ & ?)].
  - repeat constructor. unfold token_ok. rewrite Heof, Hval. done.
Qed.

End LexerProofs.

(** ** The lexer, then the reader *)

Section PipelineProofs.
Import sexpr parser.

Variable ParseInt : string -> NumError + Z.
Variable IsLetter : lexer.byte -> bool.

Lemma readList_loop_errors (rd : nat -> option (PRes (SExpr * nat)))
    (tokens : list Token) :
  (forall pos e, rd pos = Some (PErr e) -> syntax_error e) ->
  forall k pos acc e,
    readList_loop rd k tokens pos acc = Some (PErr e) -> syntax_error e.
Proof.
  intros Hrd. induction k as [|k IH]; intros pos acc e; [discriminate|].
  cbn [readList_loop].
  destruct (negb (isAtEnd tokens pos)
            && negb (bool_decide (Typ (peek tokens pos) = RPAREN))).
  - destruct (rd pos) as [[[v pos']|e']|] eqn:Hr; [apply IH | | discriminate].
    intros [= <-]. by eapply Hrd.
  - destruct (isAtEnd tokens pos); [|discriminate]. by intros [= <-].
Qed.

Lemma readExpr_errors (tokens : list Token) :
  Forall (fun t => Typ t <> ILLEGAL /\ token_ok IsLetter t = true) tokens ->
  forall fuel pos e,
    readExpr ParseInt fuel tokens pos = Some (PErr e) -> syntax_error e.
Proof.
  intros Htoks. induction fuel as [|fuel IH]; intros pos e; [discriminate|].
  cbn [readExpr].
  destruct (isAtEnd tokens pos) eqn:Hend; [by intros [= <-]|].
  destruct (not_isAtEnd tokens pos Hend) as (t & Ht & Heof & Hpeek & Hadv).
  rewrite Hpeek.
  destruct (proj1 (Forall_lookup _ _) Htoks pos t Ht) as [Hill Hok].
  destruct (Typ t) eqn:Htyp; try done; try by intros [= <-].
  - unfold readList. by apply readList_loop_errors.
  - unfold readNumber. rewrite Hadv.
    destruct (ParseInt (Value t)); [|discriminate].
    intros [= <-]. unfold token_ok in Hok. by rewrite Htyp in Hok.
  - unfold readSymbol. by rewrite Hadv.
  - unfold readString. by rewrite Hadv.
  - unfold readBool. by rewrite Hadv.
Qed.

(** X19: the reader on the tokens of [Tokenize].  It returns, and when it
    fails the error is never that of an illegal or unexpected token, nor
    the unexpected end of file: the input is empty, a parenthesis is not
    matched, a token follows the expression, or the library refuses a
    number whose text is digits after an optional minus sign. *)
Theorem Tokenize_then_Read (text : string) (ts : list Token) :
  lexer.Tokenize IsLetter text = Some (POk ts) ->
  exists r,
    Read ParseInt ts = Some r
    /\ forall e, r = PErr e -> syntax_error e.
Proof.
  intros Hts.
  assert (Htoks : Forall (fun t => Typ t <> ILLEGAL /\ token_ok IsLetter t = true) ts).
  { unfold lexer.Tokenize in Hts.
    destruct (Tokenize_loop_spec IsLetter (S (String.length text))
                (lexer.NewLexer text) []) as (r & Hr & Hspec).
    { unfold lexer.remaining, lexer.NewLexer. cbn [lexer.input lexer.pos].
      rewrite length_list_ascii. lia. }
    { unfold lexer_ok, lexer.NewLexer.
      cbn [lexer.input lexer.pos lexer.line lexer.col]. lia. }
    rewrite Hts in Hr. injection Hr as <-.
    destruct Hspec as (body & eof & -> & Hbody & Heof & Hval & _).
    cbn [app]. apply Forall_app. split.
    - eapply Forall_impl; [exact Hbody | by intros t (_ & ? & _ & _ & ?)].
    - repeat constructor; [by rewrite Heof|].
      unfold token_ok. by rewrite Heof, Hval. }
  destruct (readExpr_returns ParseInt (S (length ts)) ts 0) as (r & Hr & _); [lia|].
  unfold Read. rewrite Hr. destruct r as [[v pos]|e].
  - destruct (negb (isAtEnd ts pos)
              && negb (bool_decide (Typ (peek ts pos) = EOF)));
      eexists; (split; [reflexivity|]); [by intros e [= <-] | done].
  - eexists. split; [reflexivity|]. intros e' [= <-].
    by eapply readExpr_errors.
Qed.

End PipelineProofs.

Section LexerWitnesses.
Import sexpr parser ParserExamples.

Lemma Tokenize_texts_witness :
  Forall (fun t => token_ok ascii_letter t = true)
    [mkToken LPAREN "(" 1 1; mkToken SYMBOL "+" 1 2; mkToken NUMBER "-12" 1 4;
     mkToken SYMBOL "x1" 2 1; mkToken BOOL "true" 2 4; mkToken RPAREN ")" 2 8;
     mkToken EOF EmptyString 2 9].
Proof.
  apply (Tokenize_texts ascii_letter
           (String.string_of_list_ascii
              (String.list_ascii_of_string "(+ -12"
               ++ [Ascii.ascii_of_nat 10]
               ++ String.list_ascii_of_string "x1 true)"))).
  vm_compute. reflexivity.
Defined.

Lemma Tokenize_then_Read_witness :
  exists r,
    Read parse_int
      [mkToken LPAREN "(" 1 1; mkToken SYMBOL "+" 1 2; mkToken NUMBER "1" 1 4;
       mkToken NUMBER "2" 1 6; mkToken RPAREN ")" 1 7; mkToken EOF EmptyString 1 8]
    = Some r
    /\ forall e, r = PErr e -> syntax_error e.
Proof.
  apply (Tokenize_then_Read parse_int ascii_letter "(+ 1 2)").
  vm_compute. reflexivity.
Defined.

End LexerWitnesses.
